(** * Guardian-AI: the event/subject lifecycle engine and its command fabric

    A shallow embedding of the detection loop
    ([security_threat_detection.py], and its MediaPipe predecessor
    [security_threat_detection1.py]), of the persistence consumer
    ([security_db_writer.py]) and of the analysis worker
    ([security_worker.py]), followed by the properties the specification
    states about them.

    Conventions of the embedding.
    - Python floats (timestamps from [time.time()], pixel coordinates,
      confidences) are exact rationals [Q]; rounding is not modelled.
    - An uncaught Python exception is the [Raise] outcome of the [result]
      monad; a caught one is handled where the source handles it.
    - [multiprocessing.Queue.put] appends to a list kept in the state, so the
      list is the sequence of messages in emission order.
    - Insertion-ordered [dict]s are association lists; Python [set]s of
      strings are [gset string]. *)

From Stdlib Require Import QArith Lqa.
From stdpp Require Import gmap strings list.

Open Scope string_scope.
Open Scope list_scope.

(** ** Exceptions and the error monad *)

Inductive exn : Type :=
| IndexError
| TypeError
| KeyError
| Exception (what : string).

Inductive result (A : Type) : Type :=
| Ok (a : A)
| Raise (e : exn).

Arguments Ok {A} a.
Arguments Raise {A} e.

#[global] Instance result_ret : MRet result := λ A a, Ok a.

#[global] Instance result_bind : MBind result := λ A B k m,
  match m with
  | Ok a => k a
  | Raise e => Raise e
  end.

(** A [for] loop whose body may raise. *)
Fixpoint for_each {A S : Type} (body : S → A → result S) (xs : list A) (s : S)
  : result S :=
  match xs with
  | [] => Ok s
  | x :: rest => s' ← body s x; for_each body rest s'
  end.

(** [seq[i]] on a Python sequence: [IndexError] out of range. *)
Definition get_item {A : Type} (l : list A) (i : nat) : result A :=
  match l !! i with
  | Some a => Ok a
  | None => Raise IndexError
  end.

(** [a > b] and [a >= b] on numbers. *)
Definition Qgtb (a b : Q) : bool := negb (Qle_bool a b).
Definition Qgeb (a b : Q) : bool := Qle_bool b a.

Definition Qsum (l : list Q) : Q := foldl Qplus 0%Q l.

(** ** Messages exchanged over the queues *)

(** A subject's ['status']. *)
Inductive Status : Type :=
| normal
| pending
| suspicious.

#[global] Instance Status_eq_dec : EqDecision Status.
Proof. solve_decision. Defined.

(** [bson.ObjectId]: an opaque identifier, which the library guarantees to
    be unique among the identifiers a process generates; it is modelled by
    the rank of its allocation. *)
Definition ObjectId : Type := nat.

(** Messages put on [db_writer_queue], by their ['action']. *)
Inductive DbCommand : Type :=
| create_new_subject (tracking_id : string) (reid_vector : list Q) (camera_id : string)
| update_subject_status (tracking_id : string) (new_status : Status)
| create_event (event_id : option ObjectId) (start_camera_id : string)
    (participant_tracking_id : string)
| add_participant_to_event (event_id : option ObjectId) (tracking_id : string)
| end_event (event_id : option ObjectId)
| add_vlm_log (event_id : option ObjectId) (camera_id : string) (description : string)
    (embedding : list Q) (subjects : list string).

#[global] Instance Q_eq_dec : EqDecision Q.
Proof. solve_decision. Defined.

#[global] Instance DbCommand_eq_dec : EqDecision DbCommand.
Proof. solve_decision. Defined.

(** The ['analyze_threat'] message put on [vlm_task_queue]. *)
Record VlmTask : Type := mkVlmTask {
  task_event_id : option ObjectId;
  task_subjects : list string;
  base64_frame : string
}.

(** ** The ground-pose heuristic ([is_person_on_ground_yolo]) *)

Module Pose.

(** One row of the keypoint tensor: [x, y, confidence]. *)
Definition Keypoint : Type := (Q * Q * Q)%type.

Definition kp_y (k : Keypoint) : Q := snd (fst k).
Definition kp_conf (k : Keypoint) : Q := snd k.

Definition LEFT_SHOULDER : nat := 5.
Definition RIGHT_SHOULDER : nat := 6.
Definition LEFT_HIP : nat := 11.
Definition RIGHT_HIP : nat := 12.

(** The confidence a torso keypoint must exceed (the literal [0.5]). *)
Definition CONF_THRESHOLD : Q := 1 # 2.

(** Default of the parameter [ground_threshold_percent] (the literal [0.55]). *)
Definition GROUND_THRESHOLD_PERCENT : Q := 11 # 20.

Definition append_if_confident (k : Keypoint) (valid_points_y : list Q) : list Q :=
  if Qgtb (kp_conf k) CONF_THRESHOLD then valid_points_y ++ [kp_y k]
  else valid_points_y.

Definition is_person_on_ground_yolo
  (keypoints : list Keypoint) (frame_height : Z) (ground_threshold_percent : Q)
  : result bool :=
  ls ← get_item keypoints LEFT_SHOULDER;
  rs ← get_item keypoints RIGHT_SHOULDER;
  lh ← get_item keypoints LEFT_HIP;
  rh ← get_item keypoints RIGHT_HIP;
  let valid_points_y := [] in
  let valid_points_y := append_if_confident ls valid_points_y in
  let valid_points_y := append_if_confident rs valid_points_y in
  let valid_points_y := append_if_confident lh valid_points_y in
  let valid_points_y := append_if_confident rh valid_points_y in
  if (length valid_points_y <? 2)%nat then Ok false
  else
    let avg_torso_y :=
      (Qsum valid_points_y / inject_Z (Z.of_nat (length valid_points_y)))%Q in
    let ground_threshold_pixels :=
      (inject_Z frame_height * ground_threshold_percent)%Q in
    Ok (Qgtb avg_torso_y ground_threshold_pixels).

(** The specification's reading, written independently of the code: the four
    torso keypoints, those among them that are confident, and their mean
    height. *)
Definition torso_keypoints (keypoints : list Keypoint) : list Keypoint :=
  omap (fun i => keypoints !! i) [LEFT_SHOULDER; RIGHT_SHOULDER; LEFT_HIP; RIGHT_HIP].

Definition confident (k : Keypoint) : Prop := (CONF_THRESHOLD < kp_conf k)%Q.

#[global] Instance confident_dec (k : Keypoint) : Decision (confident k).
Proof.
  unfold confident.
  destruct (Qlt_le_dec CONF_THRESHOLD (kp_conf k)) as [Hlt | Hle].
  - left. exact Hlt.
  - right. intros Hlt. exact (Qlt_not_le _ _ Hlt Hle).
Defined.

Definition confident_torso (keypoints : list Keypoint) : list Keypoint :=
  filter confident (torso_keypoints keypoints).

Definition mean_y (ks : list Keypoint) : Q :=
  (Qsum (map kp_y ks) / inject_Z (Z.of_nat (length ks)))%Q.

(** Seventeen keypoints of which only the two shoulders are confident, at
    heights 400 and 420; the left hip sits exactly on the threshold. *)
Definition two_confident_shoulders : list Keypoint :=
  replicate 5 (0, 0, 0)%Q ++ [(0, 400, 9 # 10)%Q; (0, 420, 6 # 10)%Q]
  ++ replicate 4 (0, 0, 0)%Q ++ [(0, 50, 1 # 2)%Q; (0, 60, 1 # 10)%Q]
  ++ replicate 4 (0, 0, 0)%Q.

End Pose.

(** ** The detection loop ([threat_detection_process], YOLO variant) *)

Module Detection.

Import Pose.

(** *** Data *)

(** A value of [tracked_subjects]. *)
Record Subject : Type := mkSubject {
  tracking_id : string;
  status : Status;
  pose_start_time : option Q;
  is_confirmed_suspicious : bool
}.

Inductive EventStatus : Type :=
| inactive
| active.

#[global] Instance EventStatus_eq_dec : EqDecision EventStatus.
Proof. solve_decision. Defined.

(** The dictionary [active_event]. *)
Record ActiveEvent : Type := mkActiveEvent {
  id : option ObjectId;
  event_status : EventStatus;
  last_vlm_trigger_time : Q;
  participants : gset string
}.

(** One tracked person of a frame: row [i] of [results.boxes.id] together with
    row [i] of [results.keypoints], and the eight hex digits
    [uuid.uuid4().hex[:8]] yields if it is called for this person. *)
Record Detection : Type := mkDetection {
  yolo_track_id : Z;
  keypoints_for_person : list Keypoint;
  uuid_hex : string
}.

(** What one iteration of [for results in results_generator] reads:
    [time.time()], [frame.shape[0]], the frame as the base64 JPEG text the
    loop would encode it to, and the tracked persons ([None] when
    [results.boxes.id is None]). *)
Record Frame : Type := mkFrame {
  current_time : Q;
  frame_height : Z;
  jpg_as_text : string;
  boxes : option (list Detection)
}.

(** The loop's variables, the two queues it writes to, and the number of
    [ObjectId()] allocations made so far. *)
Record State : Type := mkState {
  tracked_subjects : list (Z * Subject);
  active_event : ActiveEvent;
  db_writer_queue : list DbCommand;
  vlm_task_queue : list VlmTask;
  object_ids_allocated : nat
}.

Definition POSE_CONFIRMATION_SEC : Q := 1.
Definition VLM_INTERVAL_SEC : Q := 5.

(** *** Insertion-ordered dictionaries *)

Section Dict.
Context {V : Type}.

Fixpoint dict_get (d : list (Z * V)) (k : Z) : option V :=
  match d with
  | [] => None
  | (k', v) :: rest => if Z.eqb k' k then Some v else dict_get rest k
  end.

Definition dict_mem (d : list (Z * V)) (k : Z) : bool :=
  match dict_get d k with Some _ => true | None => false end.

(** [d[k] = v]: in place when the key exists, appended otherwise. *)
Fixpoint dict_set (d : list (Z * V)) (k : Z) (v : V) : list (Z * V) :=
  match d with
  | [] => [(k, v)]
  | (k', v') :: rest =>
      if Z.eqb k' k then (k', v) :: rest else (k', v') :: dict_set rest k v
  end.

(** [del d[k]] for a key that is present. *)
Fixpoint dict_del (d : list (Z * V)) (k : Z) : list (Z * V) :=
  match d with
  | [] => []
  | (k', v') :: rest =>
      if Z.eqb k' k then rest else (k', v') :: dict_del rest k
  end.

Definition dict_keys (d : list (Z * V)) : list Z := fst <$> d.
Definition dict_values (d : list (Z * V)) : list V := snd <$> d.

End Dict.

(** *** State updates *)

Definition with_tracked (d : list (Z * Subject)) (st : State) : State :=
  {| tracked_subjects := d;
     active_event := active_event st;
     db_writer_queue := db_writer_queue st;
     vlm_task_queue := vlm_task_queue st;
     object_ids_allocated := object_ids_allocated st |}.

Definition with_event (ev : ActiveEvent) (st : State) : State :=
  {| tracked_subjects := tracked_subjects st;
     active_event := ev;
     db_writer_queue := db_writer_queue st;
     vlm_task_queue := vlm_task_queue st;
     object_ids_allocated := object_ids_allocated st |}.

(** [db_writer_queue.put(c)] *)
Definition put_db (c : DbCommand) (st : State) : State :=
  {| tracked_subjects := tracked_subjects st;
     active_event := active_event st;
     db_writer_queue := db_writer_queue st ++ [c];
     vlm_task_queue := vlm_task_queue st;
     object_ids_allocated := object_ids_allocated st |}.

(** [vlm_task_queue.put(t)] *)
Definition put_vlm (t : VlmTask) (st : State) : State :=
  {| tracked_subjects := tracked_subjects st;
     active_event := active_event st;
     db_writer_queue := db_writer_queue st;
     vlm_task_queue := vlm_task_queue st ++ [t];
     object_ids_allocated := object_ids_allocated st |}.

(** [ObjectId()] *)
Definition allocate_object_id (st : State) : ObjectId * State :=
  (object_ids_allocated st,
   {| tracked_subjects := tracked_subjects st;
      active_event := active_event st;
      db_writer_queue := db_writer_queue st;
      vlm_task_queue := vlm_task_queue st;
      object_ids_allocated := S (object_ids_allocated st) |}).

(** *** Step 2: the subject state machine *)

Definition new_subject (persistent_id : string) : Subject :=
  {| tracking_id := persistent_id;
     status := normal;
     pose_start_time := None;
     is_confirmed_suspicious := false |}.

(** The branch on the pose, acting on the subject's dictionary; the second
    component is what it puts on [db_writer_queue]. *)
Definition update_pose (on_ground : bool) (current_time : Q) (subject : Subject)
  : result (Subject * list DbCommand) :=
  if on_ground then
    match status subject with
    | normal =>
        Ok ({| tracking_id := tracking_id subject;
               status := pending;
               pose_start_time := Some current_time;
               is_confirmed_suspicious := is_confirmed_suspicious subject |}, [])
    | pending =>
        match pose_start_time subject with
        | None => Raise TypeError
        | Some started =>
            if Qgeb (current_time - started) POSE_CONFIRMATION_SEC then
              if negb (is_confirmed_suspicious subject) then
                Ok ({| tracking_id := tracking_id subject;
                       status := suspicious;
                       pose_start_time := pose_start_time subject;
                       is_confirmed_suspicious := true |},
                    [update_subject_status (tracking_id subject) suspicious])
              else Ok (subject, [])
            else Ok (subject, [])
        end
    | suspicious => Ok (subject, [])
    end
  else
    if decide (status subject ≠ normal) then
      Ok ({| tracking_id := tracking_id subject;
             status := normal;
             pose_start_time := None;
             is_confirmed_suspicious := false |},
          [update_subject_status (tracking_id subject) normal])
    else Ok (subject, []).

Definition put_all_db (cs : list DbCommand) (st : State) : State :=
  foldl (λ st c, put_db c st) st cs.

(** The body of [for i, yolo_track_id in enumerate(yolo_track_ids)]. *)
Definition track_person (current_time : Q) (frame_height : Z)
  (st : State) (person : Detection) : result State :=
  let st :=
    if dict_mem (tracked_subjects st) (yolo_track_id person) then st
    else
      let persistent_id := "person_" +:+ uuid_hex person in
      put_db (create_new_subject persistent_id [] "cam_01")
        (with_tracked
           (dict_set (tracked_subjects st) (yolo_track_id person)
              (new_subject persistent_id)) st) in
  match dict_get (tracked_subjects st) (yolo_track_id person) with
  | None => Raise KeyError
  | Some subject =>
      on_ground ← is_person_on_ground_yolo (keypoints_for_person person)
                    frame_height GROUND_THRESHOLD_PERCENT;
      '(subject, commands) ← update_pose on_ground current_time subject;
      Ok (put_all_db commands
            (with_tracked
               (dict_set (tracked_subjects st) (yolo_track_id person) subject) st))
  end.

(** *** Step 3: lost tracks *)

Definition lost_track_ids (tracked : list (Z * Subject)) (current_track_ids : list Z)
  : list Z :=
  filter (λ k, k ∉ current_track_ids) (dict_keys tracked).

Definition clean_up_lost_tracks (current_track_ids : list Z) (st : State) : State :=
  with_tracked
    (foldl dict_del (tracked_subjects st)
       (lost_track_ids (tracked_subjects st) current_track_ids)) st.

(** *** Step 4: the global event life cycle *)

Definition suspicious_subjects (tracked : list (Z * Subject)) : list Subject :=
  filter (λ s, status s = suspicious) (dict_values tracked).

(** START a new event *)
Definition start_new_event (suspects : list Subject) (st : State) : State :=
  match suspects with
  | first :: _ =>
      if decide (event_status (active_event st) = inactive) then
        let '(oid, st) := allocate_object_id st in
        let first_participant_id := tracking_id first in
        let st :=
          with_event
            {| id := Some oid;
               event_status := active;
               last_vlm_trigger_time := last_vlm_trigger_time (active_event st);
               participants := participants (active_event st) ∪ {[first_participant_id]} |}
            st in
        let st := put_db (create_event (Some oid) "cam_01" first_participant_id) st in
        with_event
          {| id := id (active_event st);
             event_status := event_status (active_event st);
             last_vlm_trigger_time := 0;
             participants := participants (active_event st) |}
          st
      else st
  | [] => st
  end.

(** END an existing event *)
Definition end_existing_event (suspects : list Subject) (st : State) : State :=
  match suspects with
  | [] =>
      if decide (event_status (active_event st) = active) then
        let st := put_db (end_event (id (active_event st))) st in
        with_event
          {| id := None;
             event_status := inactive;
             last_vlm_trigger_time := last_vlm_trigger_time (active_event st);
             participants := ∅ |}
          st
      else st
  | _ :: _ => st
  end.

(** One turn of [for tracking_id in new_participants]. *)
Definition add_participant (st : State) (tracking_id : string) : State :=
  let st := put_db (add_participant_to_event (id (active_event st)) tracking_id) st in
  with_event
    {| id := id (active_event st);
       event_status := event_status (active_event st);
       last_vlm_trigger_time := last_vlm_trigger_time (active_event st);
       participants := participants (active_event st) ∪ {[tracking_id]} |}
    st.

(** CONTINUOUS VLM ANALYSIS. Python does not specify the order in which
    [for tracking_id in new_participants] visits the set; [elements] fixes
    one. *)
Definition continuous_vlm_analysis (current_time : Q) (jpg_as_text : string)
  (suspects : list Subject) (st : State) : State :=
  if decide (event_status (active_event st) = active) then
    if Qgeb (current_time - last_vlm_trigger_time (active_event st)) VLM_INTERVAL_SEC
    then
      let current_participant_ids : gset string :=
        list_to_set (tracking_id <$> suspects) in
      let new_participants :=
        current_participant_ids ∖ participants (active_event st) in
      let st := foldl add_participant st (elements new_participants) in
      let st :=
        put_vlm
          {| task_event_id := id (active_event st);
             task_subjects := tracking_id <$> suspects;
             base64_frame := jpg_as_text |}
          st in
      with_event
        {| id := id (active_event st);
           event_status := event_status (active_event st);
           last_vlm_trigger_time := current_time;
           participants := participants (active_event st) |}
        st
    else st
  else st.

Definition manage_event_lifecycle (current_time : Q) (jpg_as_text : string)
  (st : State) : State :=
  let suspects := suspicious_subjects (tracked_subjects st) in
  let st := start_new_event suspects st in
  let st := end_existing_event suspects st in
  continuous_vlm_analysis current_time jpg_as_text suspects st.

(** *** The loop *)

(** The body of [for results in results_generator]. *)
Definition process_frame (st : State) (results : Frame) : result State :=
  match boxes results with
  | None => Ok st
  | Some persons =>
      let current_track_ids := yolo_track_id <$> persons in
      st ← for_each (track_person (current_time results) (frame_height results))
             persons st;
      let st := clean_up_lost_tracks current_track_ids st in
      Ok (manage_event_lifecycle (current_time results) (jpg_as_text results) st)
  end.

Definition initial_state : State :=
  {| tracked_subjects := [];
     active_event :=
       {| id := None;
          event_status := inactive;
          last_vlm_trigger_time := 0;
          participants := ∅ |};
     db_writer_queue := [];
     vlm_task_queue := [];
     object_ids_allocated := 0 |}.

(** The process on the frames the tracker yields before it stops. *)
Definition threat_detection_process (frames : list Frame) : result State :=
  for_each process_frame frames initial_state.

End Detection.

(** ** The detection loop, MediaPipe variant ([security_threat_detection1.py]) *)

Module Detection1.

Import Detection.

(** A normalised landmark; only [y] is read. *)
Record Landmark : Type := mkLandmark {
  lm_x : Q;
  lm_y : Q
}.

(** Values of [mp.solutions.pose.PoseLandmark]. *)
Definition LEFT_SHOULDER : nat := 11.
Definition RIGHT_SHOULDER : nat := 12.
Definition LEFT_HIP : nat := 23.
Definition RIGHT_HIP : nat := 24.

Definition is_person_on_ground (landmarks : list Landmark) (frame_height : Z)
  : result bool :=
  match landmarks with
  | [] => Ok false
  | _ :: _ =>
      left_shoulder ← get_item landmarks LEFT_SHOULDER;
      right_shoulder ← get_item landmarks RIGHT_SHOULDER;
      left_hip ← get_item landmarks LEFT_HIP;
      right_hip ← get_item landmarks RIGHT_HIP;
      let avg_torso_y :=
        ((lm_y left_shoulder + lm_y right_shoulder + lm_y left_hip + lm_y right_hip)
         / 4)%Q in
      Ok (Qgtb avg_torso_y (3 # 4))
  end.

(** One entry of [pose_results.pose_landmarks], with the hex digits
    [uuid.uuid4()] yields if it is called for this person. *)
Record Person : Type := mkPerson {
  landmarks_of : list Landmark;
  person_uuid_hex : string
}.

(** What one turn of [while True] reads: the outcome of [cap.read()],
    [frame.shape[0]], the frame as base64 JPEG text, the detected poses and
    [time.time()]. *)
Record Frame : Type := mkFrame {
  success : bool;
  frame_height : Z;
  jpg_as_text : string;
  pose_landmarks : list Person;
  current_time : Q
}.

(** The body of [for person_idx in detected_person_indices]. The subject's
    dictionary is created without the key ['is_confirmed_suspicious'], which
    is only read through [.get(key, False)]: an absent key is [false]. The
    branch on the pose is, statement for statement, that of the YOLO
    variant. *)
Definition track_person (current_time : Q) (frame_height : Z)
  (st : State) (indexed : nat * Person) : result State :=
  let '(person_idx, person) := indexed in
  let key := Z.of_nat person_idx in
  let st :=
    if dict_mem (tracked_subjects st) key then st
    else
      let persistent_id := "person_" +:+ person_uuid_hex person in
      put_db (create_new_subject persistent_id [] "cam_01")
        (with_tracked
           (dict_set (tracked_subjects st) key (new_subject persistent_id)) st) in
  match dict_get (tracked_subjects st) key with
  | None => Raise KeyError
  | Some subject =>
      on_ground ← is_person_on_ground (landmarks_of person) frame_height;
      '(subject, commands) ← update_pose on_ground current_time subject;
      Ok (put_all_db commands
            (with_tracked (dict_set (tracked_subjects st) key subject) st))
  end.

(** END an existing event: the participants are left as they are. *)
Definition end_existing_event (suspects : list Subject) (st : State) : State :=
  match suspects with
  | [] =>
      if decide (event_status (active_event st) = active) then
        let st := put_db (end_event (id (active_event st))) st in
        with_event
          {| id := None;
             event_status := inactive;
             last_vlm_trigger_time := last_vlm_trigger_time (active_event st);
             participants := participants (active_event st) |}
          st
      else st
  | _ :: _ => st
  end.

(** The START and VLM blocks are those of the YOLO variant. *)
Definition manage_event_lifecycle (current_time : Q) (jpg_as_text : string)
  (st : State) : State :=
  let suspects := suspicious_subjects (tracked_subjects st) in
  let st := start_new_event suspects st in
  let st := end_existing_event suspects st in
  continuous_vlm_analysis current_time jpg_as_text suspects st.

(** [detected_person_indices] is [set(range(n))], which CPython visits in
    increasing order. *)
Definition enumerate {A : Type} (l : list A) : list (nat * A) :=
  zip (seq 0 (length l)) l.

(** The body of [while True]. *)
Definition process_frame (st : State) (frame : Frame) : result State :=
  if success frame then
    st ← for_each (track_person (current_time frame) (frame_height frame))
           (enumerate (pose_landmarks frame)) st;
    Ok (manage_event_lifecycle (current_time frame) (jpg_as_text frame) st)
  else Ok st.

Definition threat_detection_process (frames : list Frame) : result State :=
  for_each process_frame frames initial_state.

End Detection1.

(** ** The persistence consumer ([db_writer_process]) *)

Module DbWriter.

(** The keyword arguments of a command: the ['payload'] dictionary. *)
Definition Payload : Type := list (string * string).

(** A dictionary taken from [db_queue]; either key may be missing. *)
Record Task : Type := mkTask {
  action : option string;
  payload : option Payload
}.

(** Lines the process prints. *)
Inductive LogLine : Type :=
| FatalNoDatabaseManager (e : exn)
| ShutdownSignalReceived
| UnknownAction (action : option string)
| ErrorProcessingTask (task : Task) (e : exn)
| ShuttingDown.

Section Writer.

(** The store behind [DatabaseManager], and its methods: each takes the
    keyword arguments and the store, and returns the store it leaves and the
    exception it raised, if any. *)
Context {Store : Type}.

Record DatabaseManager : Type := mkDatabaseManager {
  db_create_event : Payload → Store → Store * option exn;
  db_add_participant_to_event : Payload → Store → Store * option exn;
  db_end_event : Payload → Store → Store * option exn;
  db_add_vlm_log : Payload → Store → Store * option exn;
  db_create_new_subject : Payload → Store → Store * option exn;
  db_update_subject_status : Payload → Store → Store * option exn;
  db_close : Store → Store
}.

(** How the process stands once the queue's present content is consumed:
    it has left the loop and closed the connection, or it never had a
    connection, or it is blocked in [db_queue.get()]. *)
Inductive Outcome : Type :=
| Exited (store : Store) (log : list LogLine)
| NeverStarted (log : list LogLine)
| BlockedOnGet (store : Store) (log : list LogLine).

Context (db_manager : DatabaseManager).

(** The [if]/[elif] chain routing a task to a method; [None] when no branch
    matches. *)
Definition route (action : option string)
  : option (Payload → Store → Store * option exn) :=
  if decide (action = Some "create_event") then Some (db_create_event db_manager)
  else if decide (action = Some "add_participant_to_event")
    then Some (db_add_participant_to_event db_manager)
  else if decide (action = Some "end_event") then Some (db_end_event db_manager)
  else if decide (action = Some "add_vlm_log") then Some (db_add_vlm_log db_manager)
  else if decide (action = Some "create_new_subject")
    then Some (db_create_new_subject db_manager)
  else if decide (action = Some "update_subject_status")
    then Some (db_update_subject_status db_manager)
  else None.

(** [task is None or task.get('action') == 'shutdown'] *)
Definition is_shutdown (task : option Task) : bool :=
  match task with
  | None => true
  | Some t => bool_decide (action t = Some "shutdown")
  end.

(** The [while True] loop on the messages the queue delivers, in order. *)
Fixpoint writer_loop (queue : list (option Task)) (store : Store)
  (log : list LogLine) : Outcome :=
  match queue with
  | [] => BlockedOnGet store log
  | task :: rest =>
      match task with
      | None => Exited (db_close db_manager store)
                  (log ++ [ShutdownSignalReceived; ShuttingDown])
      | Some t =>
          if bool_decide (action t = Some "shutdown") then
            Exited (db_close db_manager store)
              (log ++ [ShutdownSignalReceived; ShuttingDown])
          else
            let kwargs := default [] (payload t) in
            match route (action t) with
            | Some method =>
                match method kwargs store with
                | (store, None) => writer_loop rest store log
                | (store, Some e) =>
                    writer_loop rest store (log ++ [ErrorProcessingTask t e])
                end
            | None => writer_loop rest store (log ++ [UnknownAction (action t)])
            end
      end
  end.

(** [connect] is the outcome of [DatabaseManager(MONGO_URI, DB_NAME)]. *)
Definition db_writer_process (connect : result Store) (queue : list (option Task))
  : Outcome :=
  match connect with
  | Raise e => NeverStarted [FatalNoDatabaseManager e]
  | Ok store => writer_loop queue store []
  end.

End Writer.

Arguments DatabaseManager Store : clear implicits.
Arguments Outcome Store : clear implicits.

End DbWriter.

(** ** The analysis worker ([run_vlm_analysis], [background_ai_worker]) *)

Module Worker.

(** A dictionary taken from [vlm_task_queue]. *)
Record VlmMessage : Type := mkVlmMessage {
  task : option string;
  payload : VlmTask
}.

(** Outcome of the inner [try] around [sct.grab]: the frame was captured, or
    [Full] was raised and passed over, or another exception was printed. *)
Inductive GrabOutcome : Type :=
| Grabbed
| GrabFull
| GrabFailed (e : exn).

(** What the outside world answers during one analysis:
    [np.random.rand(256).tolist()]; the screen capture ([Raise] when
    [mss.mss()] or [sct.monitors[1]] raises); and the chat completion
    ([Raise] when the call raises, otherwise [message.content], which may be
    [None]). *)
Record Capabilities : Type := mkCapabilities {
  random_embedding : list Q;
  screen : result GrabOutcome;
  chat_completion : result (option string)
}.

(** Calls made to the analysis service. *)
Inductive Call : Type :=
| ChatCompletion (prompt : string) (image_url : string).

Record WorkerState : Type := mkWorkerState {
  db_writer_queue : list DbCommand;
  calls : list Call
}.

Inductive Outcome : Type :=
| Stopped (st : WorkerState)
| NeverStarted
| Polling (st : WorkerState).

Section Analysis.

(** [str.strip] *)
Context (strip : string → string).

Definition run_vlm_analysis (env : Capabilities) (payload : VlmTask)
  (st : WorkerState) : WorkerState :=
  let event_id := task_event_id payload in
  let subjects_in_log := task_subjects payload in
  let prompt :=
    "Analyze the following subjects: " +:+ String.concat ", " subjects_in_log
    +:+ ". What are each of them doing? Keep it extremely short." in
  let embedding := random_embedding env in
  match screen env with
  | Raise _ => st
  | Ok (GrabFull | GrabFailed _) =>
      (* [latest_frame] is unbound: [encode_image_to_base64] raises *)
      st
  | Ok Grabbed =>
      let st :=
        {| db_writer_queue := db_writer_queue st;
           calls := calls st ++
             [ChatCompletion prompt
                ("data:image/jpeg;base64," +:+ base64_frame payload)] |} in
      match chat_completion env with
      | Raise _ => st
      | Ok None => st
      | Ok (Some content) =>
          let description := strip content in
          {| db_writer_queue := db_writer_queue st ++
               [add_vlm_log event_id "cam_01" description embedding subjects_in_log];
             calls := calls st |}
      end
  end.

(** One turn of [while True]: what [task_queue.get_nowait()] gave ([None]
    for [Empty], otherwise the value of [task['task']]), what
    [vlm_task_queue.get_nowait()] gave, and the outside world's answers. *)
Record Iteration : Type := mkIteration {
  polled_task : option string;
  polled_vlm : option (option VlmMessage);
  env : Capabilities
}.

Fixpoint worker_loop (iterations : list Iteration) (st : WorkerState) : Outcome :=
  match iterations with
  | [] => Polling st
  | it :: rest =>
      if bool_decide (polled_task it = Some "shutdown") then Stopped st
      else
        match polled_vlm it with
        | None => worker_loop rest st
        | Some None => Stopped st
        | Some (Some vlm_task) =>
            if bool_decide (task vlm_task = Some "analyze_threat") then
              worker_loop rest (run_vlm_analysis (env it) (payload vlm_task) st)
            else worker_loop rest st
        end
  end.

(** [client] is the outcome of [OpenAI()]. *)
Definition background_ai_worker (client : result unit)
  (iterations : list Iteration) : Outcome :=
  match client with
  | Raise _ => NeverStarted
  | Ok _ => worker_loop iterations {| db_writer_queue := []; calls := [] |}
  end.

End Analysis.

End Worker.

(** ** The video source ([threat_detection_process], lines 80 to 104, and
    [_resolve_video_source] of the stand-alone detector) *)

Module VideoSource.


Section Resolve.

(** [int(text)], [None] standing for [ValueError], and [os.path.exists]. *)
Context (int : string → option Z) (path_exists : string → bool).




End Resolve.

End VideoSource.

(** ** The messages on the wire *)

Module Wire.

Import DbWriter.

(** The ['action'] under which each command is put on [db_writer_queue] (the
    dictionary literals of the detection loops and of [run_vlm_analysis]). *)
Definition action_of (c : DbCommand) : string :=
  match c with
  | create_new_subject _ _ _ => "create_new_subject"
  | update_subject_status _ _ => "update_subject_status"
  | create_event _ _ _ => "create_event"
  | add_participant_to_event _ _ => "add_participant_to_event"
  | end_event _ => "end_event"
  | add_vlm_log _ _ _ _ _ => "add_vlm_log"
  end.

(** The keys of its ['payload']. *)
Definition payload_keys (c : DbCommand) : list string :=
  match c with
  | create_new_subject _ _ _ => ["tracking_id"; "reid_vector"; "camera_id"]
  | update_subject_status _ _ => ["tracking_id"; "status"]
  | create_event _ _ _ => ["event_id"; "start_camera_id"; "participant_tracking_id"]
  | add_participant_to_event _ _ => ["event_id"; "tracking_id"]
  | end_event _ => ["event_id"]
  | add_vlm_log _ _ _ _ _ =>
      ["event_id"; "camera_id"; "description"; "embedding"; "subjects"]
  end.

(** The dictionary itself, given the text of the payload's values. *)
Definition to_task (values : DbCommand → list string) (c : DbCommand) : Task :=
  {| action := Some (action_of c);
     payload := Some (zip (payload_keys c) (values c)) |}.

(** The parameters of a method of [DatabaseManager], [self] apart: those
    without default and those with one. *)
Record Signature : Type := mkSignature {
  required : list string;
  optional : list string
}.

Definition signature_of (method : string) : option Signature :=
  if decide (method = "find_subject_by_vector") then
    Some {| required := ["vector"]; optional := ["k"] |}
  else if decide (method = "create_new_subject") then
    Some {| required := ["tracking_id"; "reid_vector"; "camera_id"]; optional := [] |}
  else if decide (method = "update_subject_status") then
    Some {| required := ["tracking_id"; "status"]; optional := ["camera_id"] |}
  else if decide (method = "create_event") then
    Some {| required := ["event_id"; "start_camera_id"; "participant_tracking_id"];
            optional := [] |}
  else if decide (method = "add_participant_to_event") then
    Some {| required := ["event_id"; "tracking_id"]; optional := [] |}
  else if decide (method = "end_event") then
    Some {| required := ["event_id"]; optional := ["final_status"; "summary"] |}
  else if decide (method = "add_vlm_log") then
    Some {| required := ["event_id"; "camera_id"; "description"; "embedding";
                         "subjects"];
            optional := [] |}
  else if decide (method = "get_person_involvement_details") then
    Some {| required := ["tracking_id"]; optional := [] |}
  else if decide (method = "semantic_search_logs") then
    Some {| required := ["query_vector"]; optional := ["k"] |}
  else if decide (method = "close") then
    Some {| required := []; optional := [] |}
  else None.

(** Calling a method with the payload as its keyword arguments binds without
    [TypeError]: every parameter without default is among the keys, and every
    key is a parameter. *)
Definition binds (keys : list string) (sig : Signature) : Prop :=
  required sig ⊆ keys ∧ keys ⊆ required sig ++ optional sig.

(** The method the consumer calls for a command: in [db_writer_process] each
    branch calls the method named like the action. *)
Definition method_for {Store : Type} (db_manager : DatabaseManager Store)
  (c : DbCommand) : Payload → Store → Store * option exn :=
  match c with
  | create_new_subject _ _ _ => db_create_new_subject db_manager
  | update_subject_status _ _ => db_update_subject_status db_manager
  | create_event _ _ _ => db_create_event db_manager
  | add_participant_to_event _ _ => db_add_participant_to_event db_manager
  | end_event _ => db_end_event db_manager
  | add_vlm_log _ _ _ _ _ => db_add_vlm_log db_manager
  end.

End Wire.

(** ** The event records ([DatabaseManager], collection [Events]) *)

Module Events.

(** A reading of the UTC clock ([datetime.datetime.utcnow()]). *)
Definition datetime : Type := Z.

(** A document of the collection; [final_summary] is absent until the event
    is ended. *)
Record Document : Type := mkDocument {
  _id : option ObjectId;
  start_time : datetime;
  end_time : option datetime;
  status : string;
  start_camera_id : string;
  involved_cameras : list string;
  participant_tracking_ids : list string;
  final_summary : option string
}.

(** [insert_one]: the collection refuses a second document with the same
    [_id]. *)
Definition insert_one (doc : Document) (events : list Document)
  : result (list Document) :=
  if decide (_id doc ∈ _id <$> events) then Raise (Exception "DuplicateKeyError")
  else Ok (events ++ [doc]).

(** [update_one({"_id": event_id}, update)]: the first document that
    matches is updated; the result carries [matched_count]. *)
Fixpoint update_one (event_id : option ObjectId) (update : Document → Document)
  (events : list Document) : list Document * nat :=
  match events with
  | [] => ([], 0%nat)
  | doc :: rest =>
      if decide (_id doc = event_id) then (update doc :: rest, 1%nat)
      else
        let '(rest, matched_count) := update_one event_id update rest in
        (doc :: rest, matched_count)
  end.

(** [$addToSet] *)
Definition addToSet (value : string) (array : list string) : list string :=
  if decide (value ∈ array) then array else array ++ [value].

Definition create_event (utcnow : datetime) (event_id : option ObjectId)
  (start_camera_id participant_tracking_id : string) (events : list Document)
  : result (list Document) :=
  let doc :=
    {| _id := event_id;
       start_time := utcnow;
       end_time := None;
       status := "active";
       start_camera_id := start_camera_id;
       involved_cameras := [start_camera_id];
       participant_tracking_ids := [participant_tracking_id];
       final_summary := None |} in
  insert_one doc events.

Definition add_participant_to_event (event_id : option ObjectId)
  (tracking_id : string) (events : list Document) : list Document * nat :=
  update_one event_id
    (λ doc,
       {| _id := _id doc;
          start_time := start_time doc;
          end_time := end_time doc;
          status := status doc;
          start_camera_id := start_camera_id doc;
          involved_cameras := involved_cameras doc;
          participant_tracking_ids :=
            addToSet tracking_id (participant_tracking_ids doc);
          final_summary := final_summary doc |})
    events.

(** The defaults of [end_event]'s parameters. *)
Definition default_final_status : string := "ended_cleared".
Definition default_summary : string := EmptyString.

Definition end_event (utcnow : datetime) (event_id : option ObjectId)
  (final_status summary : string) (events : list Document)
  : list Document * nat :=
  update_one event_id
    (λ doc,
       {| _id := _id doc;
          start_time := start_time doc;
          end_time := Some utcnow;
          status := final_status;
          start_camera_id := start_camera_id doc;
          involved_cameras := involved_cameras doc;
          participant_tracking_ids := participant_tracking_ids doc;
          final_summary := Some summary |})
    events.

End Events.

(** ** The consumer's calls on the event records *)

Module Serving.

(** How a call went. *)
Inductive Served : Type :=
| Inserted
| Updated (matched_count : nat)
| Failed (e : exn)
| Elsewhere.

(** What serving a command leaves in the collection: [db_writer_process]
    calls the method named like the action with the payload as keyword
    arguments, and an exception of the method is caught by the loop. The
    other methods write to other collections. *)
Definition serve (events : list Events.Document) (utcnow : Events.datetime) (c : DbCommand)
  : list Events.Document * Served :=
  match c with
  | create_event event_id start_camera_id participant_tracking_id =>
      match Events.create_event utcnow event_id start_camera_id
              participant_tracking_id events with
      | Ok events => (events, Inserted)
      | Raise e => (events, Failed e)
      end
  | add_participant_to_event event_id tracking_id =>
      let '(events, matched_count) :=
        Events.add_participant_to_event event_id tracking_id events in
      (events, Updated matched_count)
  | end_event event_id =>
      let '(events, matched_count) :=
        Events.end_event utcnow event_id Events.default_final_status Events.default_summary
          events in
      (events, Updated matched_count)
  | create_new_subject _ _ _ | update_subject_status _ _
  | add_vlm_log _ _ _ _ _ => (events, Elsewhere)
  end.

(** The consumer serving calls one after the other, each at its time. *)
Fixpoint serve_all (calls : list (Events.datetime * DbCommand))
  (events : list Events.Document) : list Events.Document * list Served :=
  match calls with
  | [] => (events, [])
  | (utcnow, c) :: calls =>
      let '(events, served) := serve events utcnow c in
      let '(events, rest) := serve_all calls events in
      (events, served :: rest)
  end.

End Serving.

(** ** The shutdown messages of the orchestrator ([main], [finally] block) *)

Module Orchestrator.

(** [task_queue.put({'task': 'shutdown'})]: the value of [task['task']]. *)
Definition task_queue_stop : string := "shutdown".

(** [db_writer_queue.put({'action': 'shutdown'})] *)
Definition db_writer_stop : option DbWriter.Task :=
  Some {| DbWriter.action := Some "shutdown"; DbWriter.payload := None |}.

(** [vlm_task_queue.put(None)] *)
Definition vlm_task_stop : option Worker.VlmMessage := None.

End Orchestrator.

(** * Vocabulary of the specification *)

(** ** Well-formed input *)

Module Input.

Import Pose Detection.

(** The pose model yields 17 keypoints per person; the heuristic reads up to
    index [RIGHT_HIP]. *)
Definition well_formed_person (person : Detection) : Prop :=
  (RIGHT_HIP < length (keypoints_for_person person))%nat.

Definition well_formed_frame (results : Frame) : Prop :=
  match boxes results with
  | None => True
  | Some persons => Forall well_formed_person persons
  end.

(** The transient ids observed in a frame. *)
Definition observed_ids (results : Frame) : list Z :=
  yolo_track_id <$> default [] (boxes results).

End Input.

(** ** The event commands as a ledger *)

Module Ledger.

(** Events a command stream has created and not ended, latest first. *)
Definition record_command (open : list ObjectId) (c : DbCommand) : list ObjectId :=
  match c with
  | create_event (Some x) _ _ => x :: open
  | end_event (Some x) => filter (λ y, y ≠ x) open
  | _ => open
  end.

Definition open_events (commands : list DbCommand) : list ObjectId :=
  foldl record_command [] commands.

(** The event a command refers to. *)
Definition event_of (c : DbCommand) : option (option ObjectId) :=
  match c with
  | create_event e _ _ => Some e
  | add_participant_to_event e _ => Some e
  | end_event e => Some e
  | _ => None
  end.

(** The protocol of one event at a time: [current] is the open event, and
    every identifier below [fresh] has been used. *)
Record Protocol : Type := mkProtocol {
  current : option ObjectId;
  fresh : nat
}.

Definition protocol_step (g : Protocol) (c : DbCommand) : option Protocol :=
  match c with
  | create_event (Some x) _ _ =>
      match current g with
      | None =>
          if decide (fresh g ≤ x)%nat
          then Some {| current := Some x; fresh := S x |} else None
      | Some _ => None
      end
  | add_participant_to_event (Some x) _ =>
      if decide (current g = Some x) then Some g else None
  | end_event (Some x) =>
      if decide (current g = Some x)
      then Some {| current := None; fresh := fresh g |} else None
  | create_event None _ _ | add_participant_to_event None _ | end_event None => None
  | create_new_subject _ _ _ | update_subject_status _ _
  | add_vlm_log _ _ _ _ _ => Some g
  end.

Fixpoint replay (commands : list DbCommand) (g : Protocol) : option Protocol :=
  match commands with
  | [] => Some g
  | c :: rest =>
      match protocol_step g c with
      | Some g' => replay rest g'
      | None => None
      end
  end.

Definition well_formed (g : Protocol) : Prop :=
  ∀ x, current g = Some x → (x < fresh g)%nat.

(** The subject a command reports on. *)
Definition subject_of (c : DbCommand) : option string :=
  match c with
  | create_new_subject pid _ _ | update_subject_status pid _ => Some pid
  | _ => None
  end.

Definition is_subject_command (c : DbCommand) : Prop :=
  match c with
  | create_new_subject _ _ _ | update_subject_status _ _ => True
  | _ => False
  end.

Definition is_add_participant (c : DbCommand) : Prop :=
  match c with
  | add_participant_to_event _ _ => True
  | _ => False
  end.

#[global] Instance is_subject_command_dec (c : DbCommand) :
  Decision (is_subject_command c).
Proof. destruct c; simpl; apply _. Defined.

#[global] Instance is_add_participant_dec (c : DbCommand) :
  Decision (is_add_participant c).
Proof. destruct c; simpl; apply _. Defined.

End Ledger.

(** ** A subject's pose history *)

Module Episode.

Import Pose Detection.

(** A subject fed a sequence of (pose, time) observations. *)
Definition observe (subject : Subject) (input : bool * Q) : result Subject :=
  '(subject, _) ← update_pose input.1 input.2 subject; Ok subject.

Definition subject_after (subject : Subject) (inputs : list (bool * Q))
  : result Subject :=
  for_each observe inputs subject.

(** The heuristic's verdict on a person; a keypoint tensor too short for it
    has none, and counts as "not on ground" here. *)
Definition pose_of (frame_height : Z) (person : Detection) : bool :=
  match is_person_on_ground_yolo (keypoints_for_person person) frame_height
          GROUND_THRESHOLD_PERCENT with
  | Ok b => b
  | Raise _ => false
  end.

(** The observations a frame holds for transient id [k]. *)
Definition observations (k : Z) (now : Q) (frame_height : Z)
  (persons : list Detection) : list (bool * Q) :=
  (λ person, (pose_of frame_height person, now))
    <$> filter (λ person, yolo_track_id person = k) persons.

(** The observations of [k] since its subject was last created: a frame
    without tracked persons is skipped, a frame with tracked persons but not
    [k] ends the episode. *)
Definition episode_step (k : Z) (acc : option (list (bool * Q))) (results : Frame)
  : option (list (bool * Q)) :=
  match boxes results with
  | None => acc
  | Some persons =>
      if decide (k ∈ yolo_track_id <$> persons) then
        Some (default [] acc
              ++ observations k (current_time results) (frame_height results) persons)
      else None
  end.

Definition episode (k : Z) (frames : list Frame) : option (list (bool * Q)) :=
  foldl (episode_step k) None frames.

(** The inputs begin a fresh pose: nothing before, or a pose-false input just
    before. *)
Definition fresh_start (before : list (bool * Q)) : Prop :=
  before = [] ∨ ∃ earlier t, before = earlier ++ [(false, t)].

(** A full confirmation window: since a fresh start the pose held at [t0],
    held at every input after it, and held at some [t1] at least
    [POSE_CONFIRMATION_SEC] later. *)
Definition held_full_window (inputs : list (bool * Q)) (t0 : Q) : Prop :=
  ∃ before during t1 after,
    inputs = before ++ (true, t0) :: during ++ (true, t1) :: after
    ∧ fresh_start before
    ∧ Forall (λ i, i.1 = true) during
    ∧ Forall (λ i, i.1 = true) after
    ∧ (POSE_CONFIRMATION_SEC <= t1 - t0)%Q.

(** What a subject's status says about the observations it was fed since it
    was created. *)
Definition history_matches (inputs : list (bool * Q)) (s : Subject) : Prop :=
  match status s with
  | normal =>
      fresh_start inputs
      ∧ pose_start_time s = None ∧ is_confirmed_suspicious s = false
  | pending =>
      ∃ before t0 during,
        inputs = before ++ (true, t0) :: during
        ∧ fresh_start before
        ∧ Forall (λ i, i.1 = true) during
        ∧ pose_start_time s = Some t0 ∧ is_confirmed_suspicious s = false
  | suspicious =>
      ∃ t0, held_full_window inputs t0
            ∧ pose_start_time s = Some t0 ∧ is_confirmed_suspicious s = true
  end.

(** The subject found under a key, given the one found there before and the
    observations made of the key in between. *)
Definition evolves (start : option Subject) (inputs : list (bool * Q))
  (final : option Subject) : Prop :=
  match start with
  | Some s => ∃ s', final = Some s' ∧ subject_after s inputs = Ok s'
  | None =>
      (inputs = [] ∧ final = None)
      ∨ (inputs ≠ [] ∧ ∃ pid s', final = Some s'
                         ∧ subject_after (new_subject pid) inputs = Ok s')
  end.

(** The subject under key [k] is the one its episode produces. *)
Definition follows_episode (k : Z) (acc : option (list (bool * Q))) (st : State)
  : Prop :=
  match acc with
  | None => dict_get (tracked_subjects st) k = None
  | Some inputs =>
      ∃ pid s, dict_get (tracked_subjects st) k = Some s
               ∧ subject_after (new_subject pid) inputs = Ok s
  end.

End Episode.

(** ** Consistent states *)

Module Consistency.

Import Detection Ledger.

(** The timer and the flag of a subject agree with its status. *)
Definition subject_consistent (s : Subject) : Prop :=
  match status s with
  | normal => pose_start_time s = None ∧ is_confirmed_suspicious s = false
  | pending => is_Some (pose_start_time s) ∧ is_confirmed_suspicious s = false
  | suspicious => is_Some (pose_start_time s) ∧ is_confirmed_suspicious s = true
  end.

(** The event dictionary agrees with its status. *)
Definition event_consistent (st : State) : Prop :=
  match event_status (active_event st) with
  | inactive =>
      id (active_event st) = None ∧ participants (active_event st) = ∅
  | active =>
      ∃ x, id (active_event st) = Some x ∧ (x < object_ids_allocated st)%nat
  end.

(** The commands sent so far follow the protocol and leave it where the
    event dictionary stands. *)
Definition ledger_consistent (st : State) : Prop :=
  replay (db_writer_queue st) {| current := None; fresh := 0 |}
  = Some {| current := id (active_event st); fresh := object_ids_allocated st |}.

Definition consistent (st : State) : Prop :=
  NoDup (dict_keys (tracked_subjects st))
  ∧ Forall (λ kv, subject_consistent kv.2) (tracked_subjects st)
  ∧ event_consistent st
  ∧ ledger_consistent st.

End Consistency.

(** ** Scenarios *)

Module Scenario.

Import Pose Detection.

(** Seventeen confident keypoints at height [y]. *)
Definition keypoints_at (y : Q) : list Keypoint := replicate 17 (0, y, 9 # 10)%Q.

(** In a 480-pixel frame the ground threshold is at 264 pixels. *)
Definition lying : list Keypoint := keypoints_at 400.
Definition standing : list Keypoint := keypoints_at 100.

Definition person (k : Z) (uuid : string) (keypoints : list Keypoint) : Detection :=
  {| yolo_track_id := k; keypoints_for_person := keypoints; uuid_hex := uuid |}.

Definition frame (t : Q) (persons : option (list Detection)) : Frame :=
  {| current_time := t; frame_height := 480; jpg_as_text := "/9j/4AAQ";
     boxes := persons |}.

(** Track 1 goes down at 1000 s and is still down one second later. *)
Definition fall : list Frame :=
  [frame 1000 (Some [person 1 "0a1b2c3d" lying]);
   frame 1001 (Some [person 1 "0a1b2c3d" lying])].

(** ... and is up again at 1002 s. *)
Definition fall_and_recover : list Frame :=
  fall ++ [frame 1002 (Some [person 1 "0a1b2c3d" standing])].

(** Two tracks go down together and stay down. *)
Definition two_fall : list Frame :=
  [frame 1000 (Some [person 1 "0a1b2c3d" lying; person 2 "4e5f6071" lying]);
   frame 1001 (Some [person 1 "0a1b2c3d" lying; person 2 "4e5f6071" lying])].

(** Track 2 falls alone and recovers; later tracks 1 and 2 fall together. *)
Definition relapse : list Frame :=
  [frame 1000 (Some [person 1 "4e5f6071" standing; person 2 "0a1b2c3d" lying]);
   frame 1001 (Some [person 1 "4e5f6071" standing; person 2 "0a1b2c3d" lying]);
   frame 1002 (Some [person 1 "4e5f6071" standing; person 2 "0a1b2c3d" standing]);
   frame 1010 (Some [person 1 "4e5f6071" lying; person 2 "0a1b2c3d" lying]);
   frame 1011 (Some [person 1 "4e5f6071" lying; person 2 "0a1b2c3d" lying])].

(** The same scenes for the MediaPipe variant: 33 landmarks at a normalised
    height, 0.9 being low in the frame and 0.1 high. *)
Definition pose_at (y : Q) (uuid : string) : Detection1.Person :=
  {| Detection1.landmarks_of :=
       replicate 33 {| Detection1.lm_x := 1 # 2; Detection1.lm_y := y |};
     Detection1.person_uuid_hex := uuid |}.

Definition frame1 (t : Q) (persons : list Detection1.Person) : Detection1.Frame :=
  {| Detection1.success := true; Detection1.frame_height := 480;
     Detection1.jpg_as_text := "/9j/4AAQ"; Detection1.pose_landmarks := persons;
     Detection1.current_time := t |}.

Definition fall_and_recover1 : list Detection1.Frame :=
  [frame1 1000 [pose_at (9 # 10) "0a1b2c3d"];
   frame1 1001 [pose_at (9 # 10) "0a1b2c3d"];
   frame1 1002 [pose_at (1 # 10) "0a1b2c3d"]].

Definition relapse1 : list Detection1.Frame :=
  [frame1 1000 [pose_at (1 # 10) "4e5f6071"; pose_at (9 # 10) "0a1b2c3d"];
   frame1 1001 [pose_at (1 # 10) "4e5f6071"; pose_at (9 # 10) "0a1b2c3d"];
   frame1 1002 [pose_at (1 # 10) "4e5f6071"; pose_at (1 # 10) "0a1b2c3d"];
   frame1 1010 [pose_at (9 # 10) "4e5f6071"; pose_at (9 # 10) "0a1b2c3d"];
   frame1 1011 [pose_at (9 # 10) "4e5f6071"; pose_at (9 # 10) "0a1b2c3d"]].

(** The state after a run known not to raise. *)
Definition state_after (frames : list Frame) : State :=
  match threat_detection_process frames with
  | Ok st => st
  | Raise _ => initial_state
  end.

(** The person of [fall_and_recover1] is confirmed, then nobody is detected. *)
Definition fall_then_empty1 : list Detection1.Frame :=
  [frame1 1000 [pose_at (9 # 10) "0a1b2c3d"];
   frame1 1001 [pose_at (9 # 10) "0a1b2c3d"]].

Definition state_after1 (frames : list Detection1.Frame) : State :=
  match Detection1.threat_detection_process frames with
  | Ok st => st
  | Raise _ => initial_state
  end.

End Scenario.

(** ** The specification's sentences, as stated *)

Module Stated.

Import Detection Input.

(** "For every transient id present in the internal map but absent from this
    frame's observations: remove the Subject", on that first absent frame. *)
Definition lost_on_first_absent_frame : Prop :=
  ∀ (frames : list Frame) (results : Frame) (st st' : State) (k : Z),
    threat_detection_process frames = Ok st →
    process_frame st results = Ok st' →
    k ∈ dict_keys (tracked_subjects st) →
    k ∉ observed_ids results →
    k ∉ dict_keys (tracked_subjects st').

(** "On every frame where an Event is active and now - lastEscalationTime >=
    escalationInterval", one analysis task is sent and the time of the last
    escalation becomes now. *)
Definition escalates_on_every_due_frame : Prop :=
  ∀ (frames : list Frame) (results : Frame) (st st' : State),
    threat_detection_process frames = Ok st →
    process_frame st results = Ok st' →
    event_status (active_event st) = active →
    event_status (active_event st') = active →
    (VLM_INTERVAL_SEC
     <= current_time results - last_vlm_trigger_time (active_event st))%Q →
    length (vlm_task_queue st') = S (length (vlm_task_queue st))
    ∧ last_vlm_trigger_time (active_event st') = current_time results.

End Stated.

(** ** The consumers, command by command *)

Module Consumer.

Import DbWriter.

Section Apply.

Context {Store : Type} (db_manager : DatabaseManager Store).

(** Applying one command: the routed method runs on the store; an exception
    it raises is logged, an action without a route is logged and dropped. *)
Definition apply_command (sl : Store * list LogLine) (t : Task)
  : Store * list LogLine :=
  match route db_manager (action t) with
  | Some method =>
      match method (default [] (payload t)) sl.1 with
      | (store, None) => (store, sl.2)
      | (store, Some e) => (store, sl.2 ++ [ErrorProcessingTask t e])
      end
  | None => (sl.1, sl.2 ++ [UnknownAction (action t)])
  end.

End Apply.

(** The sentinel: [None], or a dictionary whose action is ['shutdown']. *)
Definition sentinel (message : option Task) : Prop :=
  message = None ∨ ∃ t, message = Some t ∧ action t = Some "shutdown".

Definition recognised_actions : list string :=
  ["create_event"; "add_participant_to_event"; "end_event"; "add_vlm_log";
   "create_new_subject"; "update_subject_status"].

(** A store that records the names of the methods called on it, whose
    [end_event] fails after recording. *)
Definition recording_manager : DatabaseManager (list string) :=
  {| db_create_event := λ _ store, (store ++ ["create_event"], None);
     db_add_participant_to_event :=
       λ _ store, (store ++ ["add_participant_to_event"], None);
     db_end_event :=
       λ _ store, (store ++ ["end_event"], Some (Exception "ServerSelectionTimeoutError"));
     db_add_vlm_log := λ _ store, (store ++ ["add_vlm_log"], None);
     db_create_new_subject := λ _ store, (store ++ ["create_new_subject"], None);
     db_update_subject_status :=
       λ _ store, (store ++ ["update_subject_status"], None);
     db_close := λ store, store ++ ["close"] |}.

Definition command (name : string) : Task :=
  {| action := Some name; payload := Some [] |}.

End Consumer.

Module Analysis.

Import Worker.

(** The analysis goes through: the screen was grabbed and the completion
    returned a text. *)
Definition succeeds (env : Capabilities) (content : string) : Prop :=
  screen env = Ok Grabbed ∧ chat_completion env = Ok (Some content).

Definition fails (env : Capabilities) : Prop :=
  ∀ content, ¬ succeeds env content.

(** A turn of the loop that carries no stop signal. *)
Definition keeps_running (it : Iteration) : Prop :=
  polled_task it ≠ Some "shutdown" ∧ polled_vlm it ≠ Some None.

(** The persistence commands a turn of the loop owes. *)
Definition owed (strip : string → string) (it : Iteration) : list DbCommand :=
  match polled_vlm it with
  | Some (Some message) =>
      if decide (task message = Some "analyze_threat") then
        match screen (env it), chat_completion (env it) with
        | Ok Grabbed, Ok (Some content) =>
            [add_vlm_log (task_event_id (payload message)) "cam_01" (strip content)
               (random_embedding (env it)) (task_subjects (payload message))]
        | _, _ => []
        end
      else []
  | _ => []
  end.

Definition analyze (event : ObjectId) (subjects : list string) (env : Capabilities)
  : Iteration :=
  {| polled_task := None;
     polled_vlm :=
       Some (Some {| task := Some "analyze_threat";
                     payload := {| task_event_id := Some event;
                                   task_subjects := subjects;
                                   base64_frame := "/9j/4AAQ" |} |});
     env := env |}.

Definition answering (content : string) : Capabilities :=
  {| random_embedding := [1 # 2; 1 # 3]%Q;
     screen := Ok Grabbed;
     chat_completion := Ok (Some content) |}.

Definition unreachable_service : Capabilities :=
  {| random_embedding := [1 # 2; 1 # 3]%Q;
     screen := Ok Grabbed;
     chat_completion := Raise (Exception "APIConnectionError") |}.

End Analysis.

(** ** The durable record, read off the command stream *)

Module Durable.

Import Detection Ledger.

(** The command creates event [e]. *)
Definition creates (e : option ObjectId) (c : DbCommand) : Prop :=
  match c with
  | create_event e' _ _ => e' = e
  | _ => False
  end.

#[global] Instance creates_dec (e : option ObjectId) (c : DbCommand) :
  Decision (creates e c).
Proof. destruct c; simpl; apply _. Defined.

(** The command adds to event [e] or ends it. *)
Definition uses (e : option ObjectId) (c : DbCommand) : Prop :=
  match c with
  | add_participant_to_event e' _ | end_event e' => e' = e
  | _ => False
  end.

(** The participants the stream records for event [x]: the one named at its
    creation and those added since. *)
Definition record_participant (x : ObjectId) (acc : gset string) (c : DbCommand)
  : gset string :=
  match c with
  | create_event (Some y) _ p => if decide (y = x) then acc ∪ {[p]} else acc
  | add_participant_to_event (Some y) t => if decide (y = x) then acc ∪ {[t]} else acc
  | _ => acc
  end.

Definition recorded_participants (x : ObjectId) (q : list DbCommand) : gset string :=
  foldl (record_participant x) ∅ q.

(** An analysis task the worker can serve: it names an event that has been
    allocated and at least one subject. *)
Definition task_well_formed (allocated : nat) (t : VlmTask) : Prop :=
  (∃ x, task_event_id t = Some x ∧ (x < allocated)%nat) ∧ task_subjects t ≠ [].

(** A subject fed a sequence of observations, with the commands the pose
    branch puts on the queue along the way. *)
Definition observe_emitting (acc : Subject * list DbCommand) (input : bool * Q)
  : result (Subject * list DbCommand) :=
  '(subject, commands) ← update_pose input.1 input.2 acc.1;
  Ok (subject, acc.2 ++ commands).

Definition trace_after (subject : Subject) (inputs : list (bool * Q))
  : result (Subject * list DbCommand) :=
  for_each observe_emitting inputs (subject, []).

(** The status the store holds for a subject after its commands:
    [create_new_subject] writes ['normal'], [update_subject_status] writes
    the status it carries. *)
Definition stored_status (commands : list DbCommand) : Status :=
  foldl (λ st c, match c with
                 | update_subject_status _ new_status => new_status
                 | create_new_subject _ _ _ => normal
                 | _ => st
                 end) normal commands.

(** The participants held in memory are those the stream records for the
    open event, and none when no event is open. *)
Definition participants_recorded (st : State) : Prop :=
  match id (active_event st) with
  | Some x =>
      participants (active_event st)
      = recorded_participants x (db_writer_queue st)
  | None => participants (active_event st) = ∅
  end.

End Durable.

(** ** What the analysis worker was asked and what it did *)

Module Served.

Import Worker Analysis.

(** A turn that carries one of the stop signals of the orchestrator. *)
Definition stops (it : Iteration) : Prop :=
  polled_task it = Some Orchestrator.task_queue_stop
  ∨ polled_vlm it = Some Orchestrator.vlm_task_stop.

(** What the worker has put on the persistence queue and asked the service
    by the time it stands in an outcome; nothing when it never started. *)
Definition produced (o : Outcome) : WorkerState :=
  match o with
  | Stopped st | Polling st => st
  | NeverStarted => {| db_writer_queue := []; calls := [] |}
  end.

(** The analysis task a turn polls, if any. *)
Definition analysis_task (it : Iteration) : option VlmTask :=
  match polled_vlm it with
  | Some (Some message) =>
      if decide (task message = Some "analyze_threat") then Some (payload message)
      else None
  | _ => None
  end.

Definition analysis_tasks (iterations : list Iteration) : list VlmTask :=
  omap analysis_task iterations.

(** The prompt built for a task. *)
Definition prompt_of (t : VlmTask) : string :=
  "Analyze the following subjects: " +:+ String.concat ", " (task_subjects t)
  +:+ ". What are each of them doing? Keep it extremely short.".

(** The log answers one of the tasks: it names the task's event and
    subjects. *)
Definition answers (tasks : list VlmTask) (c : DbCommand) : Prop :=
  ∃ t description embedding,
    t ∈ tasks
    ∧ c = add_vlm_log (task_event_id t) "cam_01" description embedding
            (task_subjects t).

(** The call asks about one of the tasks: its prompt lists the task's
    subjects and its image is the task's frame. *)
Definition asks (tasks : list VlmTask) (call : Call) : Prop :=
  ∃ t, t ∈ tasks
       ∧ call = ChatCompletion (prompt_of t)
                  ("data:image/jpeg;base64," +:+ base64_frame t).

(** Every log is backed by a call, every call by a task, and logs and calls
    are about the tasks. *)
Definition accounted (tasks : list VlmTask) (st : WorkerState) : Prop :=
  (length (db_writer_queue st) ≤ length (calls st))%nat
  ∧ (length (calls st) ≤ length tasks)%nat
  ∧ Forall (answers tasks) (db_writer_queue st)
  ∧ Forall (asks tasks) (calls st).

(** A turn that polls ['shutdown'] while an analysis task is waiting. *)
Definition shutdown_over (event : ObjectId) (subjects : list string)
  (env : Capabilities) : Iteration :=
  {| polled_task := Some "shutdown";
     polled_vlm := polled_vlm (analyze event subjects env);
     env := env |}.

End Served.

(** ** What the event records hold *)

Module Stored.

Import Detection Ledger Durable Serving.

(** The calls for a command stream, the n-th made at [utcnow n]. *)
Definition stamped (utcnow : nat → Events.datetime) (commands : list DbCommand)
  : list (Events.datetime * DbCommand) :=
  imap (λ n c, (utcnow n, c)) commands.

(** The call did what it was made for: it inserted its document, or updated
    the one document it names, or went to another collection. *)
Definition went_through (s : Served) : Prop :=
  s = Inserted ∨ s = Updated 1 ∨ s = Elsewhere.

Definition open_document (doc : Events.Document) : Prop :=
  Events.status doc = "active" ∧ Events.end_time doc = None.

Definition ended_document (doc : Events.Document) : Prop :=
  Events.status doc = "ended_cleared" ∧ is_Some (Events.end_time doc).

(** The collection holds what the stream [q] says, the protocol standing in
    [g]: one document per event created, with the participants the stream
    records for it, open if it is the current event and ended otherwise. *)
Definition mirrors (g : Protocol) (q : list DbCommand)
  (events : list Events.Document) : Prop :=
  NoDup (Events._id <$> events)
  ∧ Forall (λ doc,
      ∃ x, Events._id doc = Some x ∧ (x < fresh g)%nat
           ∧ list_to_set (Events.participant_tracking_ids doc)
             = recorded_participants x q
           ∧ if decide (current g = Some x) then open_document doc
             else ended_document doc) events
  ∧ (∀ x, current g = Some x → Some x ∈ Events._id <$> events)
  ∧ (∀ x, (fresh g ≤ x)%nat → recorded_participants x q = ∅).

(** What a document keeps through later calls: its identity, its start, its
    participants (new ones come behind), and its end once it has ended. *)
Definition kept (doc doc' : Events.Document) : Prop :=
  Events._id doc' = Events._id doc
  ∧ Events.start_time doc' = Events.start_time doc
  ∧ Events.start_camera_id doc' = Events.start_camera_id doc
  ∧ Events.involved_cameras doc' = Events.involved_cameras doc
  ∧ Events.participant_tracking_ids doc `prefix_of`
      Events.participant_tracking_ids doc'
  ∧ (Events.status doc = Events.default_final_status →
     Events.status doc' = Events.default_final_status).

(** The collection has only grown: the documents it had are kept, in place,
    and new ones come behind. *)
Definition grows (events events' : list Events.Document) : Prop :=
  ∃ old new, events' = old ++ new ∧ Forall2 kept events old.

(** A collection with one event that has ended. *)
Definition one_ended_event : list Events.Document :=
  [{| Events._id := Some 0%nat;
      Events.start_time := 1000%Z;
      Events.end_time := Some 1010%Z;
      Events.status := "ended_cleared";
      Events.start_camera_id := "cam_01";
      Events.involved_cameras := ["cam_01"];
      Events.participant_tracking_ids := ["person_0a1b2c3d"];
      Events.final_summary := Some EmptyString |}].

End Stored.

(** * Properties *)

(** ** Comparisons on rationals *)

Lemma Qgtb_lt (a b : Q) : Qgtb a b = true ↔ (b < a)%Q.
Proof.
  unfold Qgtb. rewrite negb_true_iff. split.
  - intros Hf. apply Qnot_le_lt. intros Hle.
    apply Qle_bool_iff in Hle. congruence.
  - intros Hlt. destruct (Qle_bool a b) eqn:Hle; [|done].
    apply Qle_bool_iff in Hle. exfalso. exact (Qlt_not_le _ _ Hlt Hle).
Qed.

Lemma Qgeb_le (a b : Q) : Qgeb a b = true ↔ (b <= a)%Q.
Proof. unfold Qgeb. apply Qle_bool_iff. Qed.

Lemma Qgeb_false (a b : Q) : Qgeb a b = false ↔ (a < b)%Q.
Proof.
  unfold Qgeb. split.
  - intros Hf. apply Qnot_le_lt. intros Hle.
    apply Qle_bool_iff in Hle. congruence.
  - intros Hlt. destruct (Qle_bool b a) eqn:Hle; [|done].
    apply Qle_bool_iff in Hle. exfalso. exact (Qlt_not_le _ _ Hlt Hle).
Qed.

(** ** The ground-pose heuristic *)

Section PoseFacts.

Import Pose.

Lemma get_item_lookup {A : Type} (l : list A) (i : nat) (a : A) :
  l !! i = Some a → get_item l i = Ok a.
Proof. unfold get_item. by intros ->. Qed.

Lemma get_item_out_of_range {A : Type} (l : list A) (i : nat) :
  (length l ≤ i)%nat → get_item l i = Raise IndexError.
Proof. unfold get_item. intros H. by rewrite lookup_ge_None_2. Qed.

(** The four guarded [append]s build the heights of the confident torso
    keypoints, in the order of the torso keypoints. *)
Lemma append_if_confident_filter (k : Keypoint) (ks : list Keypoint) :
  append_if_confident k (map kp_y (filter confident ks))
  = map kp_y (filter confident (ks ++ [k])).
Proof.
  unfold append_if_confident. rewrite filter_app, map_app.
  destruct (Qgtb (kp_conf k) CONF_THRESHOLD) eqn:Hc.
  - apply Qgtb_lt in Hc. rewrite (filter_cons_True confident k []) by exact Hc.
    reflexivity.
  - rewrite (filter_cons_False confident k []).
    + simpl. by rewrite app_nil_r.
    + intros Hk. apply Qgtb_lt in Hk. congruence.
Qed.

Lemma valid_points_are_confident_torso (ls rs lh rh : Keypoint) :
  append_if_confident rh
    (append_if_confident lh (append_if_confident rs (append_if_confident ls [])))
  = map kp_y (filter confident [ls; rs; lh; rh]).
Proof.
  change (@nil Q) with (map kp_y (filter confident (@nil Keypoint))).
  by rewrite !append_if_confident_filter.
Qed.

Lemma torso_keypoints_in_range (keypoints : list Keypoint) :
  (RIGHT_HIP < length keypoints)%nat →
  ∃ ls rs lh rh,
    keypoints !! LEFT_SHOULDER = Some ls ∧ keypoints !! RIGHT_SHOULDER = Some rs ∧
    keypoints !! LEFT_HIP = Some lh ∧ keypoints !! RIGHT_HIP = Some rh ∧
    torso_keypoints keypoints = [ls; rs; lh; rh].
Proof.
  unfold RIGHT_HIP, LEFT_HIP, RIGHT_SHOULDER, LEFT_SHOULDER, torso_keypoints.
  intros Hlen.
  destruct (lookup_lt_is_Some_2 keypoints 5) as [ls Hls]; [lia|].
  destruct (lookup_lt_is_Some_2 keypoints 6) as [rs Hrs]; [lia|].
  destruct (lookup_lt_is_Some_2 keypoints 11) as [lh Hlh]; [lia|].
  destruct (lookup_lt_is_Some_2 keypoints 12) as [rh Hrh]; [lia|].
  exists ls, rs, lh, rh. repeat split; try done.
  simpl. unfold LEFT_SHOULDER, RIGHT_SHOULDER, LEFT_HIP, RIGHT_HIP.
  by rewrite Hls, Hrs, Hlh, Hrh.
Qed.

(** With the four torso rows present the heuristic returns normally. *)
Lemma is_person_on_ground_yolo_returns
  (keypoints : list Keypoint) (frame_height : Z) (ground_threshold_percent : Q) :
  (RIGHT_HIP < length keypoints)%nat →
  ∃ on_ground : bool,
    is_person_on_ground_yolo keypoints frame_height ground_threshold_percent
      = Ok on_ground.
Proof.
  intros Hlen.
  destruct (torso_keypoints_in_range keypoints Hlen)
    as (ls & rs & lh & rh & Hls & Hrs & Hlh & Hrh & _).
  unfold is_person_on_ground_yolo.
  rewrite (get_item_lookup _ _ _ Hls), (get_item_lookup _ _ _ Hrs),
    (get_item_lookup _ _ _ Hlh), (get_item_lookup _ _ _ Hrh).
  cbn [mbind result_bind]. case_match; by eexists.
Qed.

(** C7. With the four torso keypoints present, the heuristic returns
    normally; it answers "not on ground" whenever fewer than two of the four
    have confidence above 0.5, and with two or more it answers "on ground"
    exactly when the mean height of the confident ones exceeds
    [frame_height] times the ground-threshold fraction. *)
Theorem ground_pose_heuristic
  (keypoints : list Keypoint) (frame_height : Z) (ground_threshold_percent : Q) :
  (RIGHT_HIP < length keypoints)%nat →
  ∃ on_ground : bool,
    is_person_on_ground_yolo keypoints frame_height ground_threshold_percent
      = Ok on_ground
    ∧ length (torso_keypoints keypoints) = 4%nat
    ∧ ((length (confident_torso keypoints) < 2)%nat → on_ground = false)
    ∧ ((2 ≤ length (confident_torso keypoints))%nat →
        (on_ground = true ↔
         (inject_Z frame_height * ground_threshold_percent
          < mean_y (confident_torso keypoints))%Q)).
Proof.
  intros Hlen.
  destruct (torso_keypoints_in_range keypoints Hlen)
    as (ls & rs & lh & rh & Hls & Hrs & Hlh & Hrh & Htorso).
  unfold is_person_on_ground_yolo.
  rewrite (get_item_lookup _ _ _ Hls), (get_item_lookup _ _ _ Hrs),
    (get_item_lookup _ _ _ Hlh), (get_item_lookup _ _ _ Hrh).
  cbn [mbind result_bind].
  rewrite valid_points_are_confident_torso.
  unfold confident_torso, mean_y. rewrite Htorso.
  set (ks := filter confident [ls; rs; lh; rh]).
  rewrite length_map.
  destruct (Nat.ltb_spec (length ks) 2) as [Hfew | Henough].
  - exists false. repeat split; try done. lia.
  - eexists. split; [reflexivity|]. split; [done|]. split; [lia|].
    intros _. apply Qgtb_lt.
Qed.

(** A person low in a 480-pixel frame with exactly two confident torso
    keypoints, both shoulders. *)
Lemma ground_pose_heuristic_witness :
  (RIGHT_HIP < length two_confident_shoulders)%nat
  ∧ ∃ on_ground : bool,
      is_person_on_ground_yolo two_confident_shoulders 480 GROUND_THRESHOLD_PERCENT
        = Ok on_ground
      ∧ length (torso_keypoints two_confident_shoulders) = 4%nat
      ∧ ((length (confident_torso two_confident_shoulders) < 2)%nat →
           on_ground = false)
      ∧ ((2 ≤ length (confident_torso two_confident_shoulders))%nat →
          (on_ground = true ↔
           (inject_Z 480 * GROUND_THRESHOLD_PERCENT
            < mean_y (confident_torso two_confident_shoulders))%Q)).
Proof.
  assert (RIGHT_HIP < length two_confident_shoulders)%nat as Hlen
    by (vm_compute; lia).
  split; [exact Hlen|].
  exact (ground_pose_heuristic two_confident_shoulders 480 GROUND_THRESHOLD_PERCENT Hlen).
Defined.

(** The boundary: two confident keypoints are enough for a verdict, one is
    not, and a tensor without the hip rows raises. *)
Example two_confident_keypoints_decide :
  is_person_on_ground_yolo two_confident_shoulders 480 GROUND_THRESHOLD_PERCENT
  = Ok true.
Proof. reflexivity. Qed.

Example one_confident_keypoint_is_not_on_ground :
  is_person_on_ground_yolo
    (replicate 5 (0, 0, 0)%Q ++ [(0, 400, 9 # 10)%Q] ++ replicate 11 (0, 470, 1 # 2)%Q)
    480 GROUND_THRESHOLD_PERCENT
  = Ok false.
Proof. reflexivity. Qed.

Example short_tensor_raises :
  is_person_on_ground_yolo (replicate 12 (0, 400, 1)%Q) 480 GROUND_THRESHOLD_PERCENT
  = Raise IndexError.
Proof. reflexivity. Qed.

End PoseFacts.

(** ** The error monad and loops *)

Lemma bind_Ok {A B : Type} (m : result A) (k : A → result B) (b : B) :
  m ≫= k = Ok b → ∃ a, m = Ok a ∧ k a = Ok b.
Proof. destruct m as [a|e]; [|done]. intros H. by exists a. Qed.

Lemma for_each_app {A S : Type} (body : S → A → result S) (xs ys : list A) (s : S) :
  for_each body (xs ++ ys) s = for_each body xs s ≫= for_each body ys.
Proof.
  revert s. induction xs as [|x xs IH]; intros s; [done|].
  simpl. destruct (body s x) as [s'|e]; [|done]. apply IH.
Qed.

(** A property kept by every turn of a loop holds when the loop ends. *)
Lemma for_each_invariant {A S : Type} (body : S → A → result S) (P : S → Prop)
  (xs : list A) (s s' : S) :
  (∀ s x s', x ∈ xs → P s → body s x = Ok s' → P s') →
  P s → for_each body xs s = Ok s' → P s'.
Proof.
  revert s. induction xs as [|x xs IH]; intros s Hstep HP Hrun.
  - simpl in Hrun. by simplify_eq.
  - simpl in Hrun. apply bind_Ok in Hrun as (s1 & Hx & Hrest).
    apply (IH s1).
    + intros ? y ? Hy. apply Hstep. by right.
    + apply (Hstep s x s1); [by left|done|done].
    + done.
Qed.

(** ** Lists *)

Lemma filter_ext_elem {A : Type} (P Q : A → Prop)
  `{!∀ x, Decision (P x), !∀ x, Decision (Q x)} (l : list A) :
  (∀ x, x ∈ l → (P x ↔ Q x)) → filter P l = filter Q l.
Proof.
  induction l as [|a l IH]; intros Hext; [done|].
  rewrite !filter_cons.
  assert (P a ↔ Q a) as Ha by (apply Hext; by left).
  rewrite IH by (intros x Hx; apply Hext; by right).
  destruct (decide (P a)), (decide (Q a)); tauto.
Qed.

Lemma filter_id {A : Type} (P : A → Prop) `{!∀ x, Decision (P x)} (l : list A) :
  (∀ x, x ∈ l → P x) → filter P l = l.
Proof.
  induction l as [|a l IH]; intros Hall; [done|].
  rewrite filter_cons_True by (apply Hall; by left).
  f_equal. apply IH. intros x Hx. apply Hall. by right.
Qed.

Lemma filter_none {A : Type} (P : A → Prop) `{!∀ x, Decision (P x)} (l : list A) :
  (∀ x, x ∈ l → ¬ P x) → filter P l = [].
Proof.
  induction l as [|a l IH]; intros Hnone; [done|].
  rewrite filter_cons_False by (apply Hnone; by left).
  apply IH. intros x Hx. apply Hnone. by right.
Qed.

Lemma Forall_filter_keep {A : Type} (P Q : A → Prop) `{!∀ x, Decision (P x)}
  (l : list A) :
  Forall Q l → Forall Q (filter P l).
Proof.
  rewrite !Forall_forall. intros Hall x [_ Hx]%list_elem_of_filter. by apply Hall.
Qed.

(** ** Dictionaries *)

Section DictFacts.

Import Detection.
Context {V : Type}.
Implicit Types (d : list (Z * V)) (k : Z) (v : V).

Lemma dict_get_set_eq d k v : dict_get (dict_set d k v) k = Some v.
Proof.
  induction d as [|[k' v'] d IH]; simpl.
  - by rewrite Z.eqb_refl.
  - destruct (Z.eqb_spec k' k) as [->|Hne]; simpl.
    + by rewrite Z.eqb_refl.
    + by destruct (Z.eqb_spec k' k).
Qed.

Lemma dict_get_set_ne d k k' v : k ≠ k' → dict_get (dict_set d k v) k' = dict_get d k'.
Proof.
  intros Hne. induction d as [|[k0 v0] d IH]; simpl.
  - by destruct (Z.eqb_spec k k').
  - destruct (Z.eqb_spec k0 k) as [->|Hk0]; simpl.
    + by destruct (Z.eqb_spec k k').
    + by rewrite IH.
Qed.

Lemma dict_get_Some_keys d k : is_Some (dict_get d k) ↔ k ∈ dict_keys d.
Proof.
  unfold dict_keys. induction d as [|[k' v'] d IH]; simpl.
  - split; [by intros [? ?]|]. by intros ?%elem_of_nil.
  - destruct (Z.eqb_spec k' k) as [->|Hne].
    + split; [intros _; by left|by eexists].
    + rewrite IH. split; [by right|]. by intros [?|?]%elem_of_cons.
Qed.

Lemma dict_get_None_keys d k : dict_get d k = None ↔ k ∉ dict_keys d.
Proof. rewrite <- dict_get_Some_keys, eq_None_not_Some. done. Qed.

Lemma dict_mem_keys d k : dict_mem d k = true ↔ k ∈ dict_keys d.
Proof.
  rewrite <- dict_get_Some_keys. unfold dict_mem.
  destruct (dict_get d k); split; try done; try (by eexists); by intros [? ?].
Qed.

Lemma dict_keys_set_present d k v :
  k ∈ dict_keys d → dict_keys (dict_set d k v) = dict_keys d.
Proof.
  unfold dict_keys. induction d as [|[k' v'] d IH]; simpl.
  - by intros ?%elem_of_nil.
  - intros Hin. destruct (Z.eqb_spec k' k) as [->|Hne]; [done|].
    simpl. f_equal. apply IH. by apply elem_of_cons in Hin as [?|?].
Qed.

Lemma dict_keys_set_absent d k v :
  k ∉ dict_keys d → dict_keys (dict_set d k v) = dict_keys d ++ [k].
Proof.
  unfold dict_keys. induction d as [|[k' v'] d IH]; simpl; [done|].
  intros Hin. apply not_elem_of_cons in Hin as [Hne Hin].
  destruct (Z.eqb_spec k' k) as [->|_]; [done|].
  simpl. f_equal. by apply IH.
Qed.

Lemma dict_keys_set_NoDup d k v : NoDup (dict_keys d) → NoDup (dict_keys (dict_set d k v)).
Proof.
  intros Hnd. destruct (decide (k ∈ dict_keys d)) as [Hin|Hout].
  - by rewrite dict_keys_set_present.
  - rewrite dict_keys_set_absent by done. apply NoDup_app.
    split; [done|]. split; [|apply NoDup_singleton].
    intros x Hx ->%list_elem_of_singleton. done.
Qed.

Lemma dict_keys_set_elem d k k' v :
  k' ∈ dict_keys (dict_set d k v) ↔ k' = k ∨ k' ∈ dict_keys d.
Proof.
  destruct (decide (k ∈ dict_keys d)) as [Hin|Hout].
  - rewrite dict_keys_set_present by done. split; [by right|].
    by intros [->|?].
  - rewrite dict_keys_set_absent by done.
    rewrite elem_of_app, list_elem_of_singleton. tauto.
Qed.

(** Deleting a key of a dictionary keeps the other entries, in order. *)
Lemma dict_del_filter d k :
  NoDup (dict_keys d) → dict_del d k = filter (λ kv, kv.1 ≠ k) d.
Proof.
  unfold dict_keys. induction d as [|[k' v'] d IH]; simpl; [done|].
  intros [Hout Hnd]%NoDup_cons. destruct (Z.eqb_spec k' k) as [->|Hne].
  - rewrite filter_cons_False by (simpl; auto).
    symmetry. apply filter_id. intros [k0 v0] Hin. simpl.
    intros ->. apply Hout. apply list_elem_of_fmap. by exists (k, v0).
  - rewrite filter_cons_True by done. f_equal. by apply IH.
Qed.

End DictFacts.

(** ** The detection loop: what each step changes *)

Section DetectionSteps.

Import Pose Detection Input Ledger.

Lemma dict_set_set {V : Type} (d : list (Z * V)) (k : Z) (v v' : V) :
  dict_set (dict_set d k v) k v' = dict_set d k v'.
Proof.
  induction d as [|[k0 v0] d IH]; simpl.
  - by rewrite Z.eqb_refl.
  - destruct (Z.eqb_spec k0 k) as [->|Hne]; simpl.
    + by rewrite Z.eqb_refl.
    + destruct (Z.eqb_spec k0 k); [done|]. by rewrite IH.
Qed.

Lemma filter_keys_NoDup {V : Type} (P : Z * V → Prop) `{!∀ x, Decision (P x)}
  (d : list (Z * V)) :
  NoDup (dict_keys d) → NoDup (dict_keys (filter P d)).
Proof.
  unfold dict_keys. intros Hnd.
  apply (sublist_NoDup _ (fst <$> d)); [exact Hnd|].
  apply fmap_sublist. apply sublist_filter.
Qed.

Lemma foldl_dict_del_filter {V : Type} (d : list (Z * V)) (ks : list Z) :
  NoDup (dict_keys d) → foldl dict_del d ks = filter (λ kv, kv.1 ∉ ks) d.
Proof.
  revert d. induction ks as [|k ks IH]; intros d Hnd; simpl.
  - symmetry. apply filter_id. intros x _. apply not_elem_of_nil.
  - rewrite dict_del_filter by done.
    rewrite IH by by apply filter_keys_NoDup.
    rewrite list_filter_filter. apply list_filter_iff.
    intros [k0 v0]. simpl. rewrite not_elem_of_cons. tauto.
Qed.

(** Step 3 keeps exactly the subjects whose transient id was observed. *)
Lemma clean_up_lost_tracks_filter (ids : list Z) (st : State) :
  NoDup (dict_keys (tracked_subjects st)) →
  tracked_subjects (clean_up_lost_tracks ids st)
  = filter (λ kv, kv.1 ∈ ids) (tracked_subjects st).
Proof.
  intros Hnd. unfold clean_up_lost_tracks, lost_track_ids. simpl.
  rewrite foldl_dict_del_filter by done.
  apply filter_ext_elem. intros [k v] Hin. simpl.
  rewrite list_elem_of_filter. split.
  - intros Hlost. destruct (decide (k ∈ ids)) as [|Hout]; [done|].
    exfalso. apply Hlost. split; [done|].
    unfold dict_keys. apply list_elem_of_fmap. by exists (k, v).
  - intros Hk [Hout _]. done.
Qed.

Lemma put_all_db_queue (cs : list DbCommand) (st : State) :
  db_writer_queue (put_all_db cs st) = db_writer_queue st ++ cs.
Proof.
  unfold put_all_db. revert st. induction cs as [|c cs IH]; intros st; simpl.
  - by rewrite app_nil_r.
  - rewrite IH. simpl. by rewrite <- app_assoc.
Qed.

Lemma put_all_db_rest (cs : list DbCommand) (st : State) :
  tracked_subjects (put_all_db cs st) = tracked_subjects st
  ∧ active_event (put_all_db cs st) = active_event st
  ∧ vlm_task_queue (put_all_db cs st) = vlm_task_queue st
  ∧ object_ids_allocated (put_all_db cs st) = object_ids_allocated st.
Proof.
  unfold put_all_db. revert st. induction cs as [|c cs IH]; intros st; simpl.
  - done.
  - destruct (IH (put_db c st)) as (-> & -> & -> & ->). done.
Qed.

(** The pose branch keeps the persistent id, and only ever reports the
    subject it acts on. *)
Lemma update_pose_commands (on_ground : bool) (now : Q) (s s' : Subject)
  (cs : list DbCommand) :
  update_pose on_ground now s = Ok (s', cs) →
  tracking_id s' = tracking_id s
  ∧ (cs = [] ∨ ∃ new_status, cs = [update_subject_status (tracking_id s) new_status]).
Proof.
  unfold update_pose. intros H.
  repeat (case_match; simplify_eq); simpl; eauto.
Qed.

(** One turn of step 2, spelled out. *)
Lemma track_person_Ok (now : Q) (fh : Z) (st st' : State) (person : Detection) :
  track_person now fh st person = Ok st' →
  ∃ (before after : Subject) (created commands : list DbCommand) (on_ground : bool),
    (dict_get (tracked_subjects st) (yolo_track_id person) = Some before
       ∧ created = []
     ∨ dict_get (tracked_subjects st) (yolo_track_id person) = None
       ∧ before = new_subject ("person_" +:+ uuid_hex person)
       ∧ created = [create_new_subject ("person_" +:+ uuid_hex person) [] "cam_01"])
    ∧ is_person_on_ground_yolo (keypoints_for_person person) fh
        GROUND_THRESHOLD_PERCENT = Ok on_ground
    ∧ update_pose on_ground now before = Ok (after, commands)
    ∧ tracked_subjects st'
      = dict_set (tracked_subjects st) (yolo_track_id person) after
    ∧ db_writer_queue st' = db_writer_queue st ++ created ++ commands
    ∧ active_event st' = active_event st
    ∧ vlm_task_queue st' = vlm_task_queue st
    ∧ object_ids_allocated st' = object_ids_allocated st.
Proof.
  unfold track_person, dict_mem. intros H.
  destruct (dict_get (tracked_subjects st) (yolo_track_id person)) as [s0|] eqn:Hget.
  - rewrite Hget in H.
    apply bind_Ok in H as (on_ground & Hpose & H).
    apply bind_Ok in H as ([after commands] & Hupd & H). simplify_eq.
    exists s0, after, [], commands, on_ground.
    rewrite put_all_db_queue.
    destruct (put_all_db_rest commands
      (with_tracked (dict_set (tracked_subjects st) (yolo_track_id person) after) st))
      as (-> & -> & -> & ->).
    simpl. repeat split; auto.
  - simpl in H. rewrite dict_get_set_eq in H.
    apply bind_Ok in H as (on_ground & Hpose & H).
    apply bind_Ok in H as ([after commands] & Hupd & H). simplify_eq.
    eexists _, after, _, commands, on_ground.
    rewrite put_all_db_queue.
    match goal with |- context [put_all_db commands ?s] =>
      destruct (put_all_db_rest commands s) as (-> & -> & -> & ->) end.
    simpl. rewrite dict_set_set, <- app_assoc.
    split; [right; done|]. repeat split; auto.
Qed.

End DetectionSteps.

(** ** The event life cycle: what each operation changes *)

Section LifecycleSteps.

Import Pose Detection Input Ledger.

Lemma add_participants_effect (ts : list string) (st : State) :
  let st' := foldl add_participant st ts in
  tracked_subjects st' = tracked_subjects st
  ∧ id (active_event st') = id (active_event st)
  ∧ event_status (active_event st') = event_status (active_event st)
  ∧ last_vlm_trigger_time (active_event st')
    = last_vlm_trigger_time (active_event st)
  ∧ participants (active_event st')
    = participants (active_event st) ∪ list_to_set ts
  ∧ db_writer_queue st'
    = db_writer_queue st
      ++ (add_participant_to_event (id (active_event st)) <$> ts)
  ∧ vlm_task_queue st' = vlm_task_queue st
  ∧ object_ids_allocated st' = object_ids_allocated st.
Proof.
  revert st. induction ts as [|t ts IH]; intros st; simpl.
  - rewrite app_nil_r, (right_id_L ∅ (∪)). done.
  - destruct (IH (add_participant st t))
      as (-> & -> & -> & -> & -> & -> & -> & ->).
    simpl. rewrite <- app_assoc, (assoc_L (∪)). done.
Qed.

(** The escalation, when it is due. *)
Lemma continuous_vlm_analysis_due (now : Q) (jpg : string)
  (suspects : list Subject) (st : State) :
  event_status (active_event st) = active →
  (VLM_INTERVAL_SEC <= now - last_vlm_trigger_time (active_event st))%Q →
  let st' := continuous_vlm_analysis now jpg suspects st in
  let new_participants : gset string :=
    list_to_set (tracking_id <$> suspects) ∖ participants (active_event st) in
  tracked_subjects st' = tracked_subjects st
  ∧ id (active_event st') = id (active_event st)
  ∧ event_status (active_event st') = active
  ∧ last_vlm_trigger_time (active_event st') = now
  ∧ participants (active_event st')
    = participants (active_event st) ∪ new_participants
  ∧ db_writer_queue st'
    = db_writer_queue st
      ++ (add_participant_to_event (id (active_event st))
          <$> elements new_participants)
  ∧ vlm_task_queue st'
    = vlm_task_queue st
      ++ [{| task_event_id := id (active_event st);
             task_subjects := tracking_id <$> suspects;
             base64_frame := jpg |}]
  ∧ object_ids_allocated st' = object_ids_allocated st.
Proof.
  intros Hact Hdue. unfold continuous_vlm_analysis.
  rewrite decide_True by done.
  apply Qgeb_le in Hdue. rewrite Hdue.
  set (new := list_to_set (tracking_id <$> suspects) ∖ participants (active_event st)).
  destruct (add_participants_effect (elements new) st)
    as (Ht & Hid & Hst & Hlast & Hp & Hq & Hv & Hn).
  simpl. rewrite Ht, Hid, Hst, Hp, Hq, Hv, Hn, list_to_set_elements_L.
  done.
Qed.

Lemma continuous_vlm_analysis_not_due (now : Q) (jpg : string)
  (suspects : list Subject) (st : State) :
  event_status (active_event st) = inactive
  ∨ (now - last_vlm_trigger_time (active_event st) < VLM_INTERVAL_SEC)%Q →
  continuous_vlm_analysis now jpg suspects st = st.
Proof.
  unfold continuous_vlm_analysis. intros [Hin | Hearly].
  - rewrite decide_False; [done|]. by rewrite Hin.
  - apply Qgeb_false in Hearly. rewrite Hearly. by case_decide.
Qed.

(** The escalation never changes whether an event is active, nor which. *)
Lemma continuous_vlm_analysis_keeps (now : Q) (jpg : string)
  (suspects : list Subject) (st : State) :
  let st' := continuous_vlm_analysis now jpg suspects st in
  tracked_subjects st' = tracked_subjects st
  ∧ id (active_event st') = id (active_event st)
  ∧ event_status (active_event st') = event_status (active_event st)
  ∧ object_ids_allocated st' = object_ids_allocated st.
Proof.
  cbv zeta.
  destruct (decide (event_status (active_event st) = active)) as [Hact|Hin].
  - destruct (Qlt_le_dec (now - last_vlm_trigger_time (active_event st))
                VLM_INTERVAL_SEC) as [Hearly|Hdue].
    + by rewrite continuous_vlm_analysis_not_due by by right.
    + destruct (continuous_vlm_analysis_due now jpg suspects st Hact Hdue)
        as (-> & -> & -> & _ & _ & _ & _ & ->). by rewrite Hact.
  - rewrite continuous_vlm_analysis_not_due; [done|].
    left. by destruct (event_status (active_event st)).
Qed.

(** START, when it fires. *)
Lemma start_new_event_fires (first : Subject) (others : list Subject) (st : State) :
  event_status (active_event st) = inactive →
  start_new_event (first :: others) st
  = {| tracked_subjects := tracked_subjects st;
       active_event :=
         {| id := Some (object_ids_allocated st);
            event_status := active;
            last_vlm_trigger_time := 0;
            participants := participants (active_event st) ∪ {[tracking_id first]} |};
       db_writer_queue := db_writer_queue st
         ++ [create_event (Some (object_ids_allocated st)) "cam_01" (tracking_id first)];
       vlm_task_queue := vlm_task_queue st;
       object_ids_allocated := S (object_ids_allocated st) |}.
Proof. intros Hin. unfold start_new_event. by rewrite decide_True by done. Qed.

(** START runs only when no event is active and somebody is suspicious. *)
Lemma start_new_event_idle (suspects : list Subject) (st : State) :
  event_status (active_event st) = active ∨ suspects = [] →
  start_new_event suspects st = st.
Proof.
  unfold start_new_event. intros [Hact | ->]; [|done].
  destruct suspects; [done|]. rewrite decide_False; [done|]. by rewrite Hact.
Qed.

(** END, when it fires. *)
Lemma end_existing_event_fires (st : State) :
  event_status (active_event st) = active →
  end_existing_event [] st
  = {| tracked_subjects := tracked_subjects st;
       active_event :=
         {| id := None;
            event_status := inactive;
            last_vlm_trigger_time := last_vlm_trigger_time (active_event st);
            participants := ∅ |};
       db_writer_queue := db_writer_queue st ++ [end_event (id (active_event st))];
       vlm_task_queue := vlm_task_queue st;
       object_ids_allocated := object_ids_allocated st |}.
Proof. intros Hact. unfold end_existing_event. by rewrite decide_True by done. Qed.

(** END runs only when an event is active and nobody is suspicious. *)
Lemma end_existing_event_idle (suspects : list Subject) (st : State) :
  event_status (active_event st) = inactive ∨ suspects ≠ [] →
  end_existing_event suspects st = st.
Proof.
  unfold end_existing_event. intros [Hin | Hne].
  - destruct suspects; [|done]. rewrite decide_False; [done|]. by rewrite Hin.
  - by destruct suspects.
Qed.

End LifecycleSteps.

(** ** Step 2 over a whole frame *)

Section TrackingFacts.

Import Pose Detection Input Ledger Consistency.

Lemma dict_get_elem {V : Type} (d : list (Z * V)) (k : Z) (v : V) :
  dict_get d k = Some v → (k, v) ∈ d.
Proof.
  induction d as [|[k' v'] d IH]; simpl; [done|].
  destruct (Z.eqb_spec k' k) as [->|Hne].
  - intros [= ->]. by left.
  - intros H. right. by apply IH.
Qed.

Lemma dict_set_Forall {V : Type} (P : Z * V → Prop) (d : list (Z * V)) (k : Z) (v : V) :
  Forall P d → P (k, v) → Forall P (dict_set d k v).
Proof.
  intros Hd Hv. induction Hd as [|[k' v'] d Hx Hd IH]; simpl.
  - by constructor.
  - destruct (Z.eqb_spec k' k) as [->|Hne]; by constructor.
Qed.

Lemma new_subject_consistent (pid : string) : subject_consistent (new_subject pid).
Proof. by unfold subject_consistent. Qed.

(** On a consistent subject the pose branch never raises, and leaves a
    consistent subject. *)
Lemma update_pose_consistent (on_ground : bool) (now : Q) (s : Subject) :
  subject_consistent s →
  ∃ s' cs, update_pose on_ground now s = Ok (s', cs) ∧ subject_consistent s'.
Proof.
  unfold subject_consistent, update_pose.
  destruct s as [tid [| |] start flag]; simpl; intros [Hstart ->];
    simplify_eq; destruct on_ground; simpl;
    try (destruct Hstart as [t ->]; simpl);
    repeat case_match; simpl;
    (eexists _, _; split; [reflexivity|]; simpl; eauto).
Qed.

Lemma update_pose_keeps_consistent (on_ground : bool) (now : Q) (s s' : Subject)
  (cs : list DbCommand) :
  subject_consistent s → update_pose on_ground now s = Ok (s', cs) →
  subject_consistent s'.
Proof.
  intros Hs Hupd.
  destruct (update_pose_consistent on_ground now s Hs) as (s1 & cs1 & H1 & Hc).
  congruence.
Qed.

(** Step 2 touches neither the event nor the analysis queue, and only puts
    subject commands on the persistence queue. *)
Lemma track_persons_effect (now : Q) (fh : Z) (persons : list Detection)
  (st st2 : State) :
  for_each (track_person now fh) persons st = Ok st2 →
  active_event st2 = active_event st
  ∧ vlm_task_queue st2 = vlm_task_queue st
  ∧ object_ids_allocated st2 = object_ids_allocated st
  ∧ ∃ commands, db_writer_queue st2 = db_writer_queue st ++ commands
      ∧ Forall is_subject_command commands.
Proof.
  apply (for_each_invariant (track_person now fh)
    (λ s, active_event s = active_event st
          ∧ vlm_task_queue s = vlm_task_queue st
          ∧ object_ids_allocated s = object_ids_allocated st
          ∧ ∃ commands, db_writer_queue s = db_writer_queue st ++ commands
              ∧ Forall is_subject_command commands)).
  - intros s person s' _ (He & Hv & Hn & cs & Hq & Hcs) Hstep.
    apply track_person_Ok in Hstep
      as (before & after & created & commands & on_ground
          & Hnew & _ & Hupd & _ & Hq' & -> & -> & ->).
    repeat split; try done.
    exists (cs ++ created ++ commands). rewrite Hq', Hq, <- app_assoc.
    split; [done|]. apply Forall_app. split; [done|]. apply Forall_app. split.
    + destruct Hnew as [[_ ->]|(_ & _ & ->)]; by repeat constructor.
    + apply update_pose_commands in Hupd as [_ [->|[? ->]]]; by repeat constructor.
  - repeat split; try done. exists []. by rewrite app_nil_r.
Qed.

(** Step 2 keeps the dictionary's keys distinct and adds the observed ids. *)
Lemma track_persons_keys (now : Q) (fh : Z) (persons : list Detection)
  (st st2 : State) :
  for_each (track_person now fh) persons st = Ok st2 →
  NoDup (dict_keys (tracked_subjects st)) →
  NoDup (dict_keys (tracked_subjects st2))
  ∧ ∀ k, k ∈ dict_keys (tracked_subjects st2)
         ↔ k ∈ dict_keys (tracked_subjects st) ∨ k ∈ yolo_track_id <$> persons.
Proof.
  revert st. induction persons as [|person persons IH]; intros st Hrun Hnd.
  - simpl in Hrun. simplify_eq. split; [done|]. intros k. rewrite elem_of_nil. tauto.
  - simpl in Hrun. apply bind_Ok in Hrun as (s1 & Hstep & Hrest).
    apply track_person_Ok in Hstep
      as (before & after & created & commands & on_ground
          & _ & _ & _ & Ht & _).
    destruct (IH s1 Hrest) as [Hnd2 Hkeys].
    { rewrite Ht. by apply dict_keys_set_NoDup. }
    split; [done|]. intros k. rewrite Hkeys, Ht, dict_keys_set_elem.
    rewrite fmap_cons, elem_of_cons. tauto.
Qed.

Lemma track_persons_consistent (now : Q) (fh : Z) (persons : list Detection)
  (st st2 : State) :
  for_each (track_person now fh) persons st = Ok st2 →
  Forall (λ kv, subject_consistent kv.2) (tracked_subjects st) →
  Forall (λ kv, subject_consistent kv.2) (tracked_subjects st2).
Proof.
  intros Hrun Hst.
  apply (for_each_invariant (track_person now fh)
    (λ s, Forall (λ kv, subject_consistent kv.2) (tracked_subjects s))
    persons st st2); [|done|done].
  intros s person s' _ Hs Hstep.
  apply track_person_Ok in Hstep
    as (before & after & created & commands & on_ground
        & Hnew & _ & Hupd & -> & _).
  apply dict_set_Forall; [done|]. simpl.
  apply (update_pose_keeps_consistent on_ground now before after commands);
    [|done].
  destruct Hnew as [[Hget _]|(_ & -> & _)]; [|apply new_subject_consistent].
  apply dict_get_elem in Hget.
  rewrite Forall_forall in Hs. exact (Hs _ Hget).
Qed.

(** On well-formed persons and consistent subjects, step 2 runs to its end. *)
Lemma track_persons_total (now : Q) (fh : Z) (persons : list Detection) (st : State) :
  Forall well_formed_person persons →
  Forall (λ kv, subject_consistent kv.2) (tracked_subjects st) →
  ∃ st2, for_each (track_person now fh) persons st = Ok st2.
Proof.
  intros Hwf. revert st. induction Hwf as [|person persons Hp Hwf IH]; intros st Hst.
  - by exists st.
  - simpl.
    destruct (is_person_on_ground_yolo_returns (keypoints_for_person person) fh
                GROUND_THRESHOLD_PERCENT Hp) as (on_ground & Hpose).
    assert (∃ s1, track_person now fh st person = Ok s1) as [s1 Hstep].
    { unfold track_person, dict_mem.
      destruct (dict_get (tracked_subjects st) (yolo_track_id person))
        as [s0|] eqn:Hget.
      - rewrite Hget, Hpose. simpl.
        destruct (update_pose_consistent on_ground now s0) as (s' & cs & -> & _).
        { apply dict_get_elem in Hget. rewrite Forall_forall in Hst.
          exact (Hst _ Hget). }
        simpl. eauto.
      - simpl. rewrite dict_get_set_eq, Hpose. simpl.
        destruct (update_pose_consistent on_ground now
                    (new_subject ("person_" +:+ uuid_hex person)))
          as (s' & cs & -> & _); [apply new_subject_consistent|].
        simpl. eauto. }
    rewrite Hstep. simpl. apply IH.
    apply (track_persons_consistent now fh [person] st s1); [|done].
    simpl. by rewrite Hstep.
Qed.

End TrackingFacts.

(** ** Command streams that follow the protocol *)

Section LedgerFacts.

Import Ledger.

Lemma replay_app (a b : list DbCommand) (g : Protocol) :
  replay (a ++ b) g = replay a g ≫= replay b.
Proof.
  revert g. induction a as [|c a IH]; intros g; simpl; [done|].
  destruct (protocol_step g c); [apply IH|done].
Qed.

Lemma replay_app_Some (a b : list DbCommand) (g g' : Protocol) :
  replay (a ++ b) g = Some g' ↔ ∃ g1, replay a g = Some g1 ∧ replay b g1 = Some g'.
Proof.
  rewrite replay_app. destruct (replay a g) as [g1|]; simpl.
  - split; [by exists g1|]. by intros (? & [= <-] & ?).
  - split; [done|]. by intros (? & ? & ?).
Qed.

Lemma replay_subject_commands (cs : list DbCommand) (g : Protocol) :
  Forall is_subject_command cs → replay cs g = Some g.
Proof.
  induction 1 as [|c cs Hc _ IH]; simpl; [done|].
  destruct c; simpl in *; done.
Qed.

Lemma replay_add_participants (x : ObjectId) (ts : list string) (g : Protocol) :
  current g = Some x → replay (add_participant_to_event (Some x) <$> ts) g = Some g.
Proof.
  intros Hx. induction ts as [|t ts IH]; simpl; [done|].
  by rewrite decide_True.
Qed.

Lemma protocol_step_well_formed (g g' : Protocol) (c : DbCommand) :
  well_formed g → protocol_step g c = Some g' →
  well_formed g' ∧ (fresh g ≤ fresh g')%nat.
Proof.
  unfold well_formed. intros Hg Hstep.
  destruct c as [| |[x|]|[x|]|[x|]|]; simpl in Hstep;
    repeat case_match; simplify_eq; simpl; split; try done; try lia.
  intros ? [= <-]. lia.
Qed.

Lemma protocol_step_event (g g' : Protocol) (c : DbCommand) (e : option ObjectId) :
  well_formed g → protocol_step g c = Some g' → event_of c = Some e →
  ∃ x, e = Some x ∧ (current g = Some x ∨ fresh g ≤ x)%nat ∧ (x < fresh g')%nat.
Proof.
  destruct g as [cur fr]. unfold well_formed. simpl. intros Hg Hstep He.
  destruct c as [| |[x|] ? ?|[x|] ?|[x|]|]; simpl in Hstep, He; simplify_eq;
    exists x; (split; [done|]).
  - destruct cur; [done|]. case_decide; [|done]. simplify_eq. simpl.
    split; [by right|lia].
  - case_decide as Hcur; [|done]. simplify_eq. simpl.
    split; [by left|]. by apply Hg.
  - case_decide as Hcur; [|done]. simplify_eq. simpl.
    split; [by left|]. by apply Hg.
Qed.

Lemma protocol_step_current (g g' : Protocol) (c : DbCommand) (x : ObjectId) :
  protocol_step g c = Some g' → current g' = Some x →
  (current g = Some x ∨ fresh g ≤ x)%nat.
Proof.
  destruct g as [cur fr]. simpl. intros Hstep Hx.
  destruct c as [| |[y|] ? ?|[y|] ?|[y|]|]; simpl in Hstep; simplify_eq;
    try (by left).
  - destruct cur; [done|]. case_decide; [|done]. simplify_eq. simpl in Hx.
    simplify_eq. by right.
  - case_decide; [|done]. simplify_eq. by left.
  - case_decide; [|done]. by simplify_eq.
Qed.

(** Every event a conforming stream mentions is the one open at its start
    or one allocated during it. *)
Lemma replay_events (q : list DbCommand) (g g' : Protocol) :
  well_formed g → replay q g = Some g' →
  well_formed g' ∧ (fresh g ≤ fresh g')%nat
  ∧ ∀ c e, c ∈ q → event_of c = Some e →
      ∃ x, e = Some x ∧ (current g = Some x ∨ fresh g ≤ x)%nat ∧ (x < fresh g')%nat.
Proof.
  revert g. induction q as [|c q IH]; intros g Hg Hrun; simpl in Hrun.
  - simplify_eq. split; [done|]. split; [done|]. by intros ? ? ?%elem_of_nil.
  - destruct (protocol_step g c) as [g1|] eqn:Hstep; [|done].
    destruct (protocol_step_well_formed g g1 c Hg Hstep) as [Hg1 Hle1].
    destruct (IH g1 Hg1 Hrun) as (Hg' & Hle & Hq).
    split; [done|]. split; [lia|].
    intros c0 e Hin He. apply elem_of_cons in Hin as [Heq|Hin].
    + subst c0.
      destruct (protocol_step_event g g1 c e Hg Hstep He) as (x & -> & Hx & Hlt).
      exists x. split; [done|]. split; [done|lia].
    + destruct (Hq c0 e Hin He) as (x & -> & Hx & Hlt).
      exists x. split; [done|]. split; [|done].
      destruct Hx as [Hcur|Hfresh]; [|right; lia].
      exact (protocol_step_current g g1 c x Hstep Hcur).
Qed.

(** The events a conforming stream leaves open: the protocol's current one. *)
Lemma replay_open_events (q : list DbCommand) (g g' : Protocol) :
  replay q g = Some g' →
  foldl record_command (option_list (current g)) q = option_list (current g').
Proof.
  revert g. induction q as [|c q IH]; intros g Hrun; simpl in Hrun.
  - by simplify_eq.
  - destruct (protocol_step g c) as [g1|] eqn:Hstep; [|done].
    simpl. rewrite <- (IH g1 Hrun). f_equal. clear IH Hrun.
    destruct g as [cur fr].
    destruct c as [| |[x|] ? ?|[x|] ?|[x|]|]; simpl in Hstep; simplify_eq;
      simpl; try done.
    + destruct cur; [done|]. case_decide; by simplify_eq.
    + case_decide; by simplify_eq.
    + case_decide; [|done]. simplify_eq. simpl.
      by rewrite filter_cons_False by auto.
Qed.

(** In a conforming stream an event is ended at most once. *)
Lemma replay_ends_once (q : list DbCommand) (g g' : Protocol) (e : option ObjectId) :
  well_formed g → replay q g = Some g' →
  (length (filter (λ c, c = end_event e) q) ≤ 1)%nat.
Proof.
  revert g. induction q as [|c q IH]; intros g Hg Hrun; simpl in Hrun; [simpl; lia|].
  destruct (protocol_step g c) as [g1|] eqn:Hstep; [|done].
  destruct (protocol_step_well_formed g g1 c Hg Hstep) as [Hg1 Hle1].
  destruct (decide (c = end_event e)) as [->|Hne].
  - rewrite filter_cons_True by done. simpl.
    destruct e as [x|]; simpl in Hstep; [|done].
    case_decide as Hcur; [|done]. simplify_eq.
    destruct (replay_events q _ g' Hg1 Hrun) as (_ & _ & Hq).
    rewrite filter_none; [simpl; lia|].
    intros c Hin ->.
    destruct (Hq _ _ Hin eq_refl) as (y & [= <-] & [Hy|Hy] & _); simpl in Hy; [done|].
    apply Hg in Hcur. lia.
  - rewrite filter_cons_False by done. by apply (IH g1).
Qed.

(** In a conforming stream nobody joins an event after it has ended. *)
Lemma replay_no_add_after_end (before after : list DbCommand) (g g' : Protocol)
  (e : option ObjectId) (t : string) :
  well_formed g → replay (before ++ end_event e :: after) g = Some g' →
  add_participant_to_event e t ∉ after.
Proof.
  intros Hg Hrun.
  apply replay_app_Some in Hrun as (g1 & Hbefore & Hrun).
  destruct (replay_events before g g1 Hg Hbefore) as (Hg1 & _ & _).
  simpl in Hrun. destruct e as [x|]; simpl in Hrun; [|done].
  case_decide as Hcur; [|done].
  assert (well_formed {| current := None; fresh := fresh g1 |}) as Hg2 by done.
  destruct (replay_events after _ g' Hg2 Hrun) as (_ & _ & Hq).
  intros Hin. destruct (Hq _ _ Hin eq_refl) as (y & [= <-] & [Hy|Hy] & _);
    simpl in Hy; [done|].
  apply Hg1 in Hcur. lia.
Qed.

End LedgerFacts.

(** ** Consistency is kept by every frame *)

Section ConsistencyFacts.

Import Pose Detection Input Ledger Consistency.

Lemma initial_state_consistent : consistent initial_state.
Proof.
  unfold consistent, event_consistent, ledger_consistent. simpl.
  repeat split; try done; constructor.
Qed.

Lemma start_new_event_consistent (suspects : list Subject) (st : State) :
  consistent st → consistent (start_new_event suspects st).
Proof.
  intros Hst.
  destruct suspects as [|first others]; [done|].
  destruct (event_status (active_event st)) eqn:Hstatus;
    [|by rewrite start_new_event_idle by by left].
  rewrite start_new_event_fires by done.
  destruct Hst as (Hnd & Hsub & Hev & Hled).
  unfold consistent, event_consistent, ledger_consistent in *. simpl.
  rewrite Hstatus in Hev. destruct Hev as [Hid _].
  repeat split; try done.
  - exists (object_ids_allocated st). split; [done|lia].
  - apply replay_app_Some. eexists. split; [exact Hled|].
    simpl. rewrite Hid. simpl. by rewrite decide_True by lia.
Qed.

Lemma end_existing_event_consistent (suspects : list Subject) (st : State) :
  consistent st → consistent (end_existing_event suspects st).
Proof.
  intros Hst.
  destruct suspects as [|first others]; [|by rewrite end_existing_event_idle by by right].
  destruct (event_status (active_event st)) eqn:Hstatus;
    [by rewrite end_existing_event_idle by by left|].
  rewrite end_existing_event_fires by done.
  destruct Hst as (Hnd & Hsub & Hev & Hled).
  unfold consistent, event_consistent, ledger_consistent in *. simpl.
  rewrite Hstatus in Hev. destruct Hev as (x & Hid & Hx).
  repeat split; try done.
  apply replay_app_Some. eexists. split; [exact Hled|].
  rewrite Hid. simpl. by rewrite decide_True by done.
Qed.

Lemma continuous_vlm_analysis_consistent (now : Q) (jpg : string)
  (suspects : list Subject) (st : State) :
  consistent st → consistent (continuous_vlm_analysis now jpg suspects st).
Proof.
  intros Hst.
  destruct (event_status (active_event st)) eqn:Hstatus;
    [by rewrite continuous_vlm_analysis_not_due by by left|].
  destruct (Qlt_le_dec (now - last_vlm_trigger_time (active_event st))
              VLM_INTERVAL_SEC) as [Hearly|Hdue];
    [by rewrite continuous_vlm_analysis_not_due by by right|].
  destruct (continuous_vlm_analysis_due now jpg suspects st Hstatus Hdue)
    as (Ht & Hid & Hact & _ & _ & Hq & _ & Hn).
  destruct Hst as (Hnd & Hsub & Hev & Hled).
  unfold consistent, event_consistent, ledger_consistent in *.
  rewrite Ht, Hid, Hact, Hq, Hn. rewrite Hstatus in Hev.
  destruct Hev as (x & Hx & Hlt).
  repeat split; try done; [by exists x|].
  apply replay_app_Some. eexists. split; [exact Hled|].
  rewrite Hx. by apply replay_add_participants.
Qed.

Lemma manage_event_lifecycle_consistent (now : Q) (jpg : string) (st : State) :
  consistent st → consistent (manage_event_lifecycle now jpg st).
Proof.
  intros Hst. unfold manage_event_lifecycle.
  by apply continuous_vlm_analysis_consistent, end_existing_event_consistent,
    start_new_event_consistent.
Qed.

(** A frame with tracked persons is step 2, then step 3, then step 4. *)
Lemma process_frame_Some (st st' : State) (results : Frame) (persons : list Detection) :
  boxes results = Some persons →
  process_frame st results = Ok st' ↔
  ∃ st2,
    for_each (track_person (current_time results) (frame_height results)) persons st
      = Ok st2
    ∧ st' = manage_event_lifecycle (current_time results) (jpg_as_text results)
              (clean_up_lost_tracks (yolo_track_id <$> persons) st2).
Proof.
  intros Hboxes. unfold process_frame. rewrite Hboxes. split.
  - intros H. apply bind_Ok in H as (st2 & Hrun & H). exists st2. by simplify_eq.
  - intros (st2 & -> & ->). done.
Qed.

Lemma process_frame_consistent (st : State) (results : Frame) :
  consistent st → well_formed_frame results →
  ∃ st', process_frame st results = Ok st' ∧ consistent st'.
Proof.
  intros Hst Hwf. unfold well_formed_frame in Hwf.
  destruct (boxes results) as [persons|] eqn:Hboxes.
  - destruct Hst as (Hnd & Hsub & Hev & Hled).
    destruct (track_persons_total (current_time results) (frame_height results)
                persons st Hwf Hsub) as [st2 Hrun].
    eexists. split; [apply (process_frame_Some _ _ _ persons Hboxes); eauto|].
    apply manage_event_lifecycle_consistent.
    destruct (track_persons_effect _ _ _ _ _ Hrun) as (He & Hv & Hn & cs & Hq & Hcs).
    destruct (track_persons_keys _ _ _ _ _ Hrun Hnd) as [Hnd2 _].
    pose proof (track_persons_consistent _ _ _ _ _ Hrun Hsub) as Hsub2.
    unfold consistent, event_consistent, ledger_consistent in *.
    rewrite clean_up_lost_tracks_filter by done. simpl.
    rewrite He, Hn, Hq. repeat split.
    + by apply filter_keys_NoDup.
    + by apply Forall_filter_keep.
    + done.
    + apply replay_app_Some. eexists. split; [exact Hled|].
      by apply replay_subject_commands.
  - exists st. split; [|done]. unfold process_frame. by rewrite Hboxes.
Qed.

(** On well-formed frames the process never raises, and its state stays
    consistent. *)
Lemma threat_detection_process_consistent (frames : list Frame) :
  Forall well_formed_frame frames →
  ∃ st, threat_detection_process frames = Ok st ∧ consistent st.
Proof.
  unfold threat_detection_process.
  generalize initial_state initial_state_consistent.
  intros st Hst Hwf. revert st Hst.
  induction Hwf as [|results frames Hr Hwf IH]; intros st Hst.
  - by exists st.
  - destruct (process_frame_consistent st results Hst Hr) as (st1 & Hstep & Hst1).
    simpl. rewrite Hstep. simpl. by apply IH.
Qed.

(** Conversely, a frame the process survives was well formed. *)
Lemma process_frame_well_formed (st st' : State) (results : Frame) :
  process_frame st results = Ok st' → well_formed_frame results.
Proof.
  unfold well_formed_frame. destruct (boxes results) as [persons|] eqn:Hboxes; [|done].
  intros H. apply (process_frame_Some _ _ _ persons Hboxes) in H as (st2 & Hrun & _).
  clear Hboxes. revert st Hrun.
  induction persons as [|person persons IH]; intros st Hrun; [constructor|].
  simpl in Hrun. apply bind_Ok in Hrun as (s1 & Hstep & Hrest).
  constructor; [|by apply (IH s1)].
  apply track_person_Ok in Hstep as (? & ? & ? & ? & on_ground & _ & Hpose & _).
  unfold well_formed_person.
  destruct (decide (RIGHT_HIP < length (keypoints_for_person person))%nat)
    as [|Hshort]; [done|].
  unfold is_person_on_ground_yolo in Hpose.
  destruct (get_item (keypoints_for_person person) LEFT_SHOULDER); [|done].
  destruct (get_item (keypoints_for_person person) RIGHT_SHOULDER); [|done].
  destruct (get_item (keypoints_for_person person) LEFT_HIP); [|done].
  rewrite (get_item_out_of_range _ RIGHT_HIP) in Hpose by lia. done.
Qed.

Lemma threat_detection_process_Ok (frames : list Frame) (st : State) :
  threat_detection_process frames = Ok st →
  Forall well_formed_frame frames ∧ consistent st.
Proof.
  intros Hrun.
  assert (Forall well_formed_frame frames) as Hwf.
  { unfold threat_detection_process in Hrun. revert Hrun.
    generalize initial_state. induction frames as [|results frames IH];
      intros s Hrun; [constructor|].
    simpl in Hrun. apply bind_Ok in Hrun as (s1 & Hstep & Hrest).
    constructor; [by eapply process_frame_well_formed|by eapply IH]. }
  split; [done|].
  destruct (threat_detection_process_consistent frames Hwf) as (st1 & H1 & Hc).
  congruence.
Qed.

End ConsistencyFacts.

(** ** Frames *)

Section FrameFacts.

Import Pose Detection Input Ledger Consistency.

Lemma dict_get_filter_keys {V : Type} (ids : list Z) (d : list (Z * V)) (k : Z) :
  dict_get (filter (λ kv, kv.1 ∈ ids) d) k
  = if decide (k ∈ ids) then dict_get d k else None.
Proof.
  induction d as [|[k' v'] d IH]; simpl.
  - by case_decide.
  - rewrite filter_cons. simpl. destruct (decide (k' ∈ ids)) as [Hin|Hout]; simpl.
    + destruct (Z.eqb_spec k' k) as [->|Hne]; [by rewrite decide_True by done|done].
    + destruct (Z.eqb_spec k' k) as [->|Hne]; [|done].
      rewrite IH. by rewrite !decide_False by done.
Qed.

Lemma clean_up_lost_tracks_rest (ids : list Z) (st : State) :
  active_event (clean_up_lost_tracks ids st) = active_event st
  ∧ db_writer_queue (clean_up_lost_tracks ids st) = db_writer_queue st
  ∧ vlm_task_queue (clean_up_lost_tracks ids st) = vlm_task_queue st
  ∧ object_ids_allocated (clean_up_lost_tracks ids st) = object_ids_allocated st.
Proof. done. Qed.

(** Step 4 leaves the subjects alone, and puts no subject command. *)
Lemma manage_event_lifecycle_effect (now : Q) (jpg : string) (st : State) :
  tracked_subjects (manage_event_lifecycle now jpg st) = tracked_subjects st
  ∧ ∃ commands,
      db_writer_queue (manage_event_lifecycle now jpg st)
      = db_writer_queue st ++ commands
      ∧ Forall (λ c, subject_of c = None) commands.
Proof.
  unfold manage_event_lifecycle.
  set (suspects := suspicious_subjects (tracked_subjects st)).
  assert (∃ cs1, tracked_subjects (start_new_event suspects st) = tracked_subjects st
            ∧ db_writer_queue (start_new_event suspects st) = db_writer_queue st ++ cs1
            ∧ Forall (λ c, subject_of c = None) cs1) as (cs1 & Ht1 & Hq1 & Hc1).
  { destruct suspects as [|first others]; [exists []; by rewrite app_nil_r|].
    destruct (event_status (active_event st)) eqn:Hs.
    - rewrite start_new_event_fires by done. eexists. simpl.
      split; [done|]. split; [done|]. by repeat constructor.
    - rewrite start_new_event_idle by (by left). exists []. by rewrite app_nil_r. }
  set (st1 := start_new_event suspects st) in *.
  assert (∃ cs2, tracked_subjects (end_existing_event suspects st1) = tracked_subjects st1
            ∧ db_writer_queue (end_existing_event suspects st1)
              = db_writer_queue st1 ++ cs2
            ∧ Forall (λ c, subject_of c = None) cs2) as (cs2 & Ht2 & Hq2 & Hc2).
  { destruct suspects as [|first others];
      [|exists []; rewrite end_existing_event_idle by (by right);
        by rewrite app_nil_r].
    destruct (event_status (active_event st1)) eqn:Hs.
    - rewrite end_existing_event_idle by (by left). exists []. by rewrite app_nil_r.
    - rewrite end_existing_event_fires by done. eexists. simpl.
      split; [done|]. split; [done|]. by repeat constructor. }
  set (st2 := end_existing_event suspects st1) in *.
  assert (∃ cs3, tracked_subjects (continuous_vlm_analysis now jpg suspects st2)
              = tracked_subjects st2
            ∧ db_writer_queue (continuous_vlm_analysis now jpg suspects st2)
              = db_writer_queue st2 ++ cs3
            ∧ Forall (λ c, subject_of c = None) cs3) as (cs3 & Ht3 & Hq3 & Hc3).
  { destruct (event_status (active_event st2)) eqn:Hs;
      [rewrite continuous_vlm_analysis_not_due by (by left);
       exists []; by rewrite app_nil_r|].
    destruct (Qlt_le_dec (now - last_vlm_trigger_time (active_event st2))
                VLM_INTERVAL_SEC) as [Hearly|Hdue];
      [rewrite continuous_vlm_analysis_not_due by (by right);
       exists []; by rewrite app_nil_r|].
    destruct (continuous_vlm_analysis_due now jpg suspects st2 Hs Hdue)
      as (Ht & _ & _ & _ & _ & Hq & _).
    eexists. split; [done|]. split; [exact Hq|].
    apply Forall_fmap, Forall_forall. by intros. }
  rewrite Ht3, Ht2, Ht1. split; [done|].
  exists (cs1 ++ cs2 ++ cs3). rewrite Hq3, Hq2, Hq1, <- !app_assoc.
  split; [done|]. by rewrite !Forall_app.
Qed.

(** Within step 2 a subject keeps its place and its persistent id. *)
Lemma track_persons_tracking_id (now : Q) (fh : Z) (persons : list Detection)
  (st st2 : State) (k : Z) (s : Subject) :
  for_each (track_person now fh) persons st = Ok st2 →
  dict_get (tracked_subjects st) k = Some s →
  ∃ s', dict_get (tracked_subjects st2) k = Some s'
        ∧ tracking_id s' = tracking_id s.
Proof.
  intros Hrun Hget.
  apply (for_each_invariant (track_person now fh)
    (λ st, ∃ s', dict_get (tracked_subjects st) k = Some s'
                 ∧ tracking_id s' = tracking_id s) persons st st2);
    [|by exists s|done].
  intros s0 person s1 _ (s' & Hs' & Hid) Hstep.
  apply track_person_Ok in Hstep
    as (before & after & created & commands & on_ground
        & Hnew & _ & Hupd & -> & _).
  apply update_pose_commands in Hupd as [Hafter _].
  destruct (decide (yolo_track_id person = k)) as [<-|Hne].
  - rewrite dict_get_set_eq. exists after. split; [done|].
    destruct Hnew as [[Hb _]|[Hb _]]; congruence.
  - rewrite dict_get_set_ne by done. by exists s'.
Qed.

(** Every subject command of step 2 reports on a subject whose transient id
    is among the frame's persons. *)
Lemma track_persons_commands (now : Q) (fh : Z) (persons : list Detection)
  (st st2 : State) :
  for_each (track_person now fh) persons st = Ok st2 →
  ∃ commands, db_writer_queue st2 = db_writer_queue st ++ commands
    ∧ ∀ c pid, c ∈ commands → subject_of c = Some pid →
        ∃ k s, k ∈ yolo_track_id <$> persons
               ∧ dict_get (tracked_subjects st2) k = Some s
               ∧ tracking_id s = pid.
Proof.
  revert st. induction persons as [|person persons IH]; intros st Hrun.
  - simpl in Hrun. simplify_eq. exists []. rewrite app_nil_r.
    split; [done|]. by intros ? ? ?%elem_of_nil.
  - simpl in Hrun. apply bind_Ok in Hrun as (s1 & Hstep & Hrest).
    destruct (IH s1 Hrest) as (cs & Hq & Hcs).
    apply track_person_Ok in Hstep
      as (before & after & created & commands & on_ground
          & Hnew & _ & Hupd & Ht & Hq1 & _).
    exists ((created ++ commands) ++ cs). rewrite Hq, Hq1, <- !app_assoc.
    split; [done|]. intros c pid Hin Hsub.
    apply update_pose_commands in Hupd as [Hafter Hcommands].
    assert (c ∈ created ++ commands → tracking_id before = pid) as Hhere.
    { intros [Hc|Hc]%elem_of_app.
      - destruct Hnew as [[_ ->]|(_ & -> & ->)]; [by apply elem_of_nil in Hc|].
        apply list_elem_of_singleton in Hc as ->. simpl in Hsub. by simplify_eq.
      - destruct Hcommands as [->|[ns ->]]; [by apply elem_of_nil in Hc|].
        apply list_elem_of_singleton in Hc as ->. simpl in Hsub. by simplify_eq. }
    rewrite app_assoc in Hin. apply elem_of_app in Hin as [Hin|Hin].
    + destruct (track_persons_tracking_id now fh persons s1 st2
                  (yolo_track_id person) after Hrest) as (s' & Hs' & Hid).
      { rewrite Ht. apply dict_get_set_eq. }
      exists (yolo_track_id person), s'. rewrite fmap_cons.
      split; [by left|]. split; [done|]. rewrite Hid, Hafter. by apply Hhere.
    + destruct (Hcs c pid Hin Hsub) as (k & s & Hk & Hs & Hid).
      exists k, s. rewrite fmap_cons. split; [by right|]. done.
Qed.

End FrameFacts.

(** ** Worked scenarios *)

Section Scenarios.

Import Pose Detection Scenario.

(** A single subject holds the pose for exactly the confirmation window: one
    status update, one create_event, and the analysis task in the same
    frame. *)
Example fall_commands :
  db_writer_queue (state_after fall)
  = [create_new_subject "person_0a1b2c3d" [] "cam_01";
     update_subject_status "person_0a1b2c3d" suspicious;
     create_event (Some 0%nat) "cam_01" "person_0a1b2c3d"]
  ∧ vlm_task_queue (state_after fall)
    = [{| task_event_id := Some 0%nat;
          task_subjects := ["person_0a1b2c3d"];
          base64_frame := "/9j/4AAQ" |}]
  ∧ last_vlm_trigger_time (active_event (state_after fall)) = 1001%Q.
Proof. by vm_compute. Qed.

(** The suspicious track is lost while somebody else is in view: the event
    ends on that frame. *)
Example lost_track_ends_event :
  let st := state_after (fall ++ [frame 1002 (Some [person 3 "8899aabb" standing])]) in
  db_writer_queue st
  = db_writer_queue (state_after fall)
    ++ [create_new_subject "person_8899aabb" [] "cam_01"; end_event (Some 0%nat)]
  ∧ dict_keys (tracked_subjects st) = [3%Z]
  ∧ event_status (active_event st) = inactive.
Proof. by vm_compute. Qed.

(** The suspicious track is lost because nobody is in view any more: the
    frame is skipped, and the event stays active. *)
Example empty_scene_keeps_event :
  state_after (fall ++ [frame 1002 None; frame 1010 None]) = state_after fall.
Proof. by vm_compute. Qed.

(** Two subjects confirmed in the same frame: the event starts with the
    first, and the second is folded in by the escalation of that frame. *)
Example two_fall_commands :
  db_writer_queue (state_after two_fall)
  = [create_new_subject "person_0a1b2c3d" [] "cam_01";
     create_new_subject "person_4e5f6071" [] "cam_01";
     update_subject_status "person_0a1b2c3d" suspicious;
     update_subject_status "person_4e5f6071" suspicious;
     create_event (Some 0%nat) "cam_01" "person_0a1b2c3d";
     add_participant_to_event (Some 0%nat) "person_4e5f6071"].
Proof. by vm_compute. Qed.

End Scenarios.

(** * The claims *)

(** Well-formedness of a scenario, frame by frame. *)
Ltac well_formed_frames :=
  cbv [Scenario.fall_and_recover Scenario.fall Scenario.two_fall app];
  repeat first
    [ apply Forall_nil_2
    | apply Forall_cons_2
    | progress (unfold Input.well_formed_frame, Input.well_formed_person,
                  Pose.RIGHT_HIP; simpl)
    | lia ].

Section Claims.

Import Pose Detection Input Ledger Consistency Episode Scenario Stated.

(** C1. On every sequence of frames the tracker can yield, the process runs
    without raising and at most one event is open at any time: after any
    prefix of the commands sent so far, the events created and not yet ended
    number at most one, and in the end they are exactly the event the
    life-cycle manager holds, if it holds one. START changes nothing while an
    event is active, END changes nothing while none is. *)
Theorem at_most_one_event (frames : list Frame) :
  Forall well_formed_frame frames →
  ∃ st, threat_detection_process frames = Ok st
    ∧ (∀ sent, sent `prefix_of` db_writer_queue st →
         (length (open_events sent) ≤ 1)%nat)
    ∧ open_events (db_writer_queue st) = option_list (id (active_event st))
    ∧ (event_status (active_event st) = active ↔ is_Some (id (active_event st)))
    ∧ (∀ suspects s, event_status (active_event s) = active →
         start_new_event suspects s = s)
    ∧ (∀ suspects s, event_status (active_event s) = inactive →
         end_existing_event suspects s = s).
Proof.
  intros Hwf.
  destruct (threat_detection_process_consistent frames Hwf)
    as (st & Hrun & Hnd & Hsub & Hev & Hled).
  exists st. split; [done|]. split; [|split; [|split; [|split]]].
  - intros sent [rest Hsent]. unfold ledger_consistent in Hled.
    rewrite Hsent in Hled. apply replay_app_Some in Hled as (g1 & Hg1 & _).
    apply replay_open_events in Hg1. simpl in Hg1.
    unfold open_events. rewrite Hg1. destruct (current g1); simpl; lia.
  - apply replay_open_events in Hled. exact Hled.
  - unfold event_consistent in Hev.
    destruct (event_status (active_event st)).
    + destruct Hev as [-> _]. split; [done|]. by intros [? ?].
    + destruct Hev as (x & -> & _). split; [by eexists|done].
  - intros suspects s Hact. apply start_new_event_idle. by left.
  - intros suspects s Hin. apply end_existing_event_idle. by left.
Qed.

(** The run in which track 1 falls and gets up again. *)
Lemma at_most_one_event_witness :
  Forall well_formed_frame fall_and_recover
  ∧ ∃ st, threat_detection_process fall_and_recover = Ok st
    ∧ (∀ sent, sent `prefix_of` db_writer_queue st →
         (length (open_events sent) ≤ 1)%nat)
    ∧ open_events (db_writer_queue st) = option_list (id (active_event st))
    ∧ (event_status (active_event st) = active ↔ is_Some (id (active_event st)))
    ∧ (∀ suspects s, event_status (active_event s) = active →
         start_new_event suspects s = s)
    ∧ (∀ suspects s, event_status (active_event s) = inactive →
         end_existing_event suspects s = s).
Proof.
  assert (Forall well_formed_frame fall_and_recover) as Hwf by well_formed_frames.
  split; [exact Hwf|]. exact (at_most_one_event fall_and_recover Hwf).
Defined.

(** C10. A frame in which the tracker reports no tracked person leaves the
    whole state as it was (subjects, event, both queues) and the run
    goes on as if the frame had not been there. *)
Theorem frame_without_tracks_is_skipped (st : State) (results : Frame) :
  boxes results = None →
  process_frame st results = Ok st
  ∧ ∀ before after,
      threat_detection_process (before ++ results :: after)
      = threat_detection_process (before ++ after).
Proof.
  intros Hnone.
  assert (∀ s, process_frame s results = Ok s) as Hskip.
  { intros s. unfold process_frame. by rewrite Hnone. }
  split; [apply Hskip|]. intros before after.
  unfold threat_detection_process. rewrite !for_each_app.
  destruct (for_each process_frame before initial_state) as [s|e]; [|done].
  simpl. by rewrite Hskip.
Qed.

(** An empty frame while track 1 is suspicious and the event is active. *)
Lemma frame_without_tracks_is_skipped_witness :
  boxes (frame 1007 None) = None
  ∧ process_frame (state_after fall) (frame 1007 None) = Ok (state_after fall)
  ∧ ∀ before after,
      threat_detection_process (before ++ frame 1007 None :: after)
      = threat_detection_process (before ++ after).
Proof.
  split; [reflexivity|].
  exact (frame_without_tracks_is_skipped (state_after fall) (frame 1007 None) eq_refl).
Defined.

(** C4, as stated, fails: after track 1 has been seen, a frame without any
    tracked person does not observe it, and yet its subject stays. *)
Lemma lost_on_first_absent_frame_fails : ¬ lost_on_first_absent_frame.
Proof.
  intros Hclaim.
  apply (Hclaim [frame 1000 (Some [person 1 "0a1b2c3d" lying])] (frame 1001 None)
           (state_after [frame 1000 (Some [person 1 "0a1b2c3d" lying])])
           (state_after [frame 1000 (Some [person 1 "0a1b2c3d" lying])]) 1%Z).
  - by vm_compute.
  - by vm_compute.
  - vm_compute. by left.
  - vm_compute. apply not_elem_of_nil.
  - vm_compute. by left.
Qed.

(** C4, amended. In a frame with at least one tracked person, the subjects
    left afterwards are exactly those whose transient id the frame observes,
    so every id of the map that the frame does not observe is removed on that
    frame. The removal sends nothing: step 3 leaves both queues as they are,
    and every subject command sent during the frame reports on a subject
    whose transient id the frame observes. *)
Theorem lost_tracks_removed (frames : list Frame) (results : Frame)
  (persons : list Detection) (st st' : State) :
  threat_detection_process frames = Ok st →
  boxes results = Some persons →
  process_frame st results = Ok st' →
  (∀ k, k ∈ dict_keys (tracked_subjects st') ↔ k ∈ observed_ids results)
  ∧ (∀ k, k ∈ dict_keys (tracked_subjects st) → k ∉ observed_ids results →
       k ∉ dict_keys (tracked_subjects st'))
  ∧ (∀ ids s, db_writer_queue (clean_up_lost_tracks ids s) = db_writer_queue s
              ∧ vlm_task_queue (clean_up_lost_tracks ids s) = vlm_task_queue s)
  ∧ ∃ sent, db_writer_queue st' = db_writer_queue st ++ sent
      ∧ ∀ c pid, c ∈ sent → subject_of c = Some pid →
          ∃ k s, k ∈ observed_ids results
                 ∧ dict_get (tracked_subjects st') k = Some s
                 ∧ tracking_id s = pid.
Proof.
  intros Hrun Hboxes Hstep.
  apply threat_detection_process_Ok in Hrun as [_ (Hnd & _)].
  apply (process_frame_Some _ _ _ persons Hboxes) in Hstep as (st2 & Htrack & ->).
  unfold observed_ids. rewrite Hboxes. simpl.
  set (ids := yolo_track_id <$> persons).
  destruct (track_persons_keys _ _ _ _ _ Htrack Hnd) as [Hnd2 Hkeys].
  destruct (manage_event_lifecycle_effect (current_time results) (jpg_as_text results)
              (clean_up_lost_tracks ids st2)) as (Ht & life & Hq & Hlife).
  rewrite Ht, Hq, clean_up_lost_tracks_filter by done.
  assert (∀ k, k ∈ dict_keys (filter (λ kv, kv.1 ∈ ids) (tracked_subjects st2))
               ↔ k ∈ ids) as Hleft.
  { intros k. rewrite <- dict_get_Some_keys, dict_get_filter_keys.
    case_decide as Hk.
    - rewrite dict_get_Some_keys, Hkeys. tauto.
    - split; [by intros [? ?]|done]. }
  split; [exact Hleft|]. split; [by intros k _ Hout ?%Hleft|].
  split; [done|].
  destruct (track_persons_commands _ _ _ _ _ Htrack) as (cs & Hq2 & Hcs).
  exists (cs ++ life). simpl. rewrite Hq2, <- app_assoc. split; [done|].
  intros c pid [Hin|Hin]%elem_of_app Hsub.
  - destruct (Hcs c pid Hin Hsub) as (k & s & Hk & Hs & Hid).
    exists k, s. split; [done|]. split; [|done].
    rewrite dict_get_filter_keys. by rewrite decide_True.
  - rewrite Forall_forall in Hlife. rewrite (Hlife c Hin) in Hsub. done.
Qed.

(** Track 1 has fallen beside track 2; then only track 2 is observed. *)
Lemma lost_tracks_removed_witness :
  let results := frame 1002 (Some [person 2 "4e5f6071" lying]) in
  threat_detection_process two_fall = Ok (state_after two_fall)
  ∧ boxes results = Some [person 2 "4e5f6071" lying]
  ∧ process_frame (state_after two_fall) results
    = Ok (state_after (two_fall ++ [results]))
  ∧ (∀ k, k ∈ dict_keys (tracked_subjects (state_after (two_fall ++ [results])))
          ↔ k ∈ observed_ids results).
Proof.
  intros results.
  assert (threat_detection_process two_fall = Ok (state_after two_fall)) as Hrun
    by (by vm_compute).
  assert (process_frame (state_after two_fall) results
          = Ok (state_after (two_fall ++ [results]))) as Hstep by (by vm_compute).
  split; [exact Hrun|]. split; [reflexivity|]. split; [exact Hstep|].
  exact (proj1 (lost_tracks_removed two_fall results _ _ _ Hrun eq_refl Hstep)).
Defined.

(** What a frame with tracked persons does to the event, given the state
    step 3 leaves. *)
Lemma process_frame_lifecycle (st st' : State) (results : Frame)
  (persons : list Detection) :
  boxes results = Some persons →
  process_frame st results = Ok st' →
  ∃ st3 subject_commands,
    st' = manage_event_lifecycle (current_time results) (jpg_as_text results) st3
    ∧ tracked_subjects st3 = tracked_subjects st'
    ∧ active_event st3 = active_event st
    ∧ vlm_task_queue st3 = vlm_task_queue st
    ∧ object_ids_allocated st3 = object_ids_allocated st
    ∧ db_writer_queue st3 = db_writer_queue st ++ subject_commands
    ∧ Forall is_subject_command subject_commands.
Proof.
  intros Hboxes Hstep.
  apply (process_frame_Some _ _ _ persons Hboxes) in Hstep as (st2 & Htrack & ->).
  destruct (track_persons_effect _ _ _ _ _ Htrack) as (He & Hv & Hn & cs & Hq & Hcs).
  exists (clean_up_lost_tracks (yolo_track_id <$> persons) st2), cs.
  destruct (manage_event_lifecycle_effect (current_time results) (jpg_as_text results)
              (clean_up_lost_tracks (yolo_track_id <$> persons) st2)) as [-> _].
  done.
Qed.

(** C5. In a frame that finds no event active and leaves somebody
    suspicious, START allocates a new event id, makes the first suspicious
    subject the only participant, sends one create_event carrying that id and
    that subject, and sets the time of the last escalation to 0; the
    escalation therefore runs in the same frame (the clock counts seconds
    since 1970, far above the interval) and sends exactly one analysis task,
    after folding the other suspicious subjects in. *)
Theorem event_start (frames : list Frame) (results : Frame)
  (persons : list Detection) (st st' : State)
  (first : Subject) (others : list Subject) :
  threat_detection_process frames = Ok st →
  boxes results = Some persons →
  process_frame st results = Ok st' →
  event_status (active_event st) = inactive →
  suspicious_subjects (tracked_subjects st') = first :: others →
  (VLM_INTERVAL_SEC <= current_time results)%Q →
  let oid := object_ids_allocated st in
  let suspects := first :: others in
  let created := create_event (Some oid) "cam_01" (tracking_id first) in
  let folded_in :=
    add_participant_to_event (Some oid)
    <$> elements (list_to_set (tracking_id <$> suspects)
                  ∖ ({[tracking_id first]} : gset string)) in
  ∃ st3 subject_commands,
    db_writer_queue st3 = db_writer_queue st ++ subject_commands
    ∧ Forall is_subject_command subject_commands
    ∧ active_event (start_new_event suspects st3)
      = {| id := Some oid;
           event_status := active;
           last_vlm_trigger_time := 0;
           participants := {[tracking_id first]} |}
    ∧ db_writer_queue (start_new_event suspects st3)
      = db_writer_queue st3 ++ [created]
    ∧ vlm_task_queue (start_new_event suspects st3) = vlm_task_queue st
    ∧ object_ids_allocated (start_new_event suspects st3) = S oid
    ∧ st' = continuous_vlm_analysis (current_time results) (jpg_as_text results)
              suspects (start_new_event suspects st3)
    ∧ db_writer_queue st'
      = db_writer_queue st ++ subject_commands ++ [created] ++ folded_in
    ∧ vlm_task_queue st'
      = vlm_task_queue st
        ++ [{| task_event_id := Some oid;
               task_subjects := tracking_id <$> suspects;
               base64_frame := jpg_as_text results |}]
    ∧ active_event st'
      = {| id := Some oid;
           event_status := active;
           last_vlm_trigger_time := current_time results;
           participants := list_to_set (tracking_id <$> suspects) |}
    ∧ object_ids_allocated st' = S oid.
Proof.
  intros Hrun Hboxes Hstep Hin Hsus Hclock oid suspects created folded_in.
  apply threat_detection_process_Ok in Hrun as [_ (_ & _ & Hev & _)].
  unfold event_consistent in Hev. rewrite Hin in Hev. destruct Hev as [Hid Hnone].
  destruct (process_frame_lifecycle _ _ _ _ Hboxes Hstep)
    as (st3 & cs & Hst' & Ht & He & Hv & Hn & Hq & Hcs).
  exists st3, cs.
  unfold manage_event_lifecycle in Hst'. rewrite Ht, Hsus in Hst'.
  fold suspects in Hst'.
  assert (event_status (active_event st3) = inactive) as Hin3 by by rewrite He.
  assert (start_new_event suspects st3
          = {| tracked_subjects := tracked_subjects st3;
               active_event :=
                 {| id := Some oid; event_status := active;
                    last_vlm_trigger_time := 0;
                    participants := {[tracking_id first]} |};
               db_writer_queue := db_writer_queue st3 ++ [created];
               vlm_task_queue := vlm_task_queue st;
               object_ids_allocated := S oid |}) as Hstart.
  { unfold suspects. rewrite start_new_event_fires by done.
    rewrite He, Hnone, Hv, Hn, (left_id_L ∅ (∪)). done. }
  rewrite end_existing_event_idle in Hst' by by right.
  rewrite Hstart in Hst' |- *.
  match type of Hst' with _ = continuous_vlm_analysis _ _ _ ?s => set (st4 := s) in * end.
  destruct (continuous_vlm_analysis_due (current_time results) (jpg_as_text results)
              suspects st4)
    as (Ht4 & Hid4 & Hact4 & Hlast4 & Hp4 & Hq4 & Hv4 & Hn4).
  { done. }
  { unfold st4, VLM_INTERVAL_SEC in *. simpl. lra. }
  rewrite <- Hst' in Ht4, Hid4, Hact4, Hlast4, Hp4, Hq4, Hv4, Hn4.
  unfold st4 in Hid4, Hp4, Hq4, Hv4, Hn4. simpl in Hid4, Hp4, Hq4, Hv4, Hn4.
  repeat split; try done.
  - rewrite Hq4, Hq, <- !app_assoc. done.
  - destruct (active_event st') as [i s l p].
    simpl in Hid4, Hact4, Hlast4, Hp4. subst i s l p.
    f_equal. apply set_eq. intros t.
    rewrite elem_of_union, elem_of_difference.
    destruct (decide (t ∈ ({[tracking_id first]} : gset string))) as [Ht1|Ht1];
      [|tauto].
    split; [|tauto]. intros _.
    apply elem_of_singleton in Ht1 as ->.
    apply elem_of_list_to_set. unfold suspects. rewrite fmap_cons. by left.
Qed.


(** Track 1, pending since 1000 s, is confirmed at 1001 s. *)
Lemma event_start_witness :
  let frames := [frame 1000 (Some [person 1 "0a1b2c3d" lying])] in
  let results := frame 1001 (Some [person 1 "0a1b2c3d" lying]) in
  let first :=
    {| tracking_id := "person_0a1b2c3d"; status := suspicious;
       pose_start_time := Some 1000%Q; is_confirmed_suspicious := true |} in
  threat_detection_process frames = Ok (state_after frames)
  ∧ boxes results = Some [person 1 "0a1b2c3d" lying]
  ∧ process_frame (state_after frames) results = Ok (state_after fall)
  ∧ event_status (active_event (state_after frames)) = inactive
  ∧ suspicious_subjects (tracked_subjects (state_after fall)) = [first]
  ∧ (VLM_INTERVAL_SEC <= current_time results)%Q
  ∧ vlm_task_queue (state_after fall)
    = [{| task_event_id := Some 0%nat;
          task_subjects := ["person_0a1b2c3d"];
          base64_frame := jpg_as_text results |}].
Proof.
  intros frames results first.
  assert (threat_detection_process frames = Ok (state_after frames)) as Hrun
    by (by vm_compute).
  assert (process_frame (state_after frames) results = Ok (state_after fall))
    as Hstep by (by vm_compute).
  assert (event_status (active_event (state_after frames)) = inactive) as Hin
    by (by vm_compute).
  assert (suspicious_subjects (tracked_subjects (state_after fall)) = [first])
    as Hsus by (by vm_compute).
  assert (VLM_INTERVAL_SEC <= current_time results)%Q as Hclock
    by (by vm_compute).
  destruct (event_start frames results _ _ _ first [] Hrun eq_refl Hstep Hin Hsus Hclock)
    as (st3 & cs & _ & _ & _ & _ & _ & _ & _ & _ & Hv & _).
  split; [exact Hrun|]. split; [reflexivity|]. split; [exact Hstep|].
  split; [exact Hin|]. split; [exact Hsus|]. split; [exact Hclock|].
  exact Hv.
Defined.

(** C6, as stated, fails: with the event active and the interval elapsed, a
    frame without tracked persons sends no analysis task and leaves the time
    of the last escalation where it was. *)
Lemma escalates_on_every_due_frame_fails : ¬ escalates_on_every_due_frame.
Proof.
  intros Hclaim.
  assert (length (vlm_task_queue (state_after fall))
          = S (length (vlm_task_queue (state_after fall)))) as Hlen.
  { apply (Hclaim fall (frame 1007 None) (state_after fall) (state_after fall)).
    - by vm_compute.
    - by vm_compute.
    - by vm_compute.
    - by vm_compute.
    - by vm_compute. }
  lia.
Qed.

(** C6, amended. In a frame with at least one tracked person that ends with
    an event active (so the event is active when the escalation is
    considered, START and END having had their turn) and at least
    [VLM_INTERVAL_SEC] after the last escalation, the escalation sends one
    add_participant command for each persistent id of a suspicious subject
    that is not yet a participant, adds these ids to the participants, sends
    exactly one analysis task carrying the event id, all the suspicious
    subjects and the frame, and sets the time of the last escalation to now,
    new participants or not. *)
Theorem escalation (st st' : State) (results : Frame) (persons : list Detection) :
  boxes results = Some persons →
  process_frame st results = Ok st' →
  event_status (active_event st') = active →
  let suspects := suspicious_subjects (tracked_subjects st') in
  let known : gset string :=
    match event_status (active_event st), suspects with
    | inactive, first :: _ =>
        participants (active_event st) ∪ {[tracking_id first]}
    | _, _ => participants (active_event st)
    end in
  let last :=
    match event_status (active_event st) with
    | inactive => 0%Q
    | active => last_vlm_trigger_time (active_event st)
    end in
  (VLM_INTERVAL_SEC <= current_time results - last)%Q →
  let new_participants : gset string :=
    list_to_set (tracking_id <$> suspects) ∖ known in
  (∃ earlier,
      db_writer_queue st'
      = db_writer_queue st ++ earlier
        ++ (add_participant_to_event (id (active_event st'))
            <$> elements new_participants)
      ∧ Forall (λ c, ¬ is_add_participant c) earlier)
  ∧ NoDup (elements new_participants)
  ∧ (∀ t, t ∈ elements new_participants
          ↔ t ∈ tracking_id <$> suspects ∧ t ∉ known)
  ∧ participants (active_event st') = known ∪ new_participants
  ∧ vlm_task_queue st'
    = vlm_task_queue st
      ++ [{| task_event_id := id (active_event st');
             task_subjects := tracking_id <$> suspects;
             base64_frame := jpg_as_text results |}]
  ∧ last_vlm_trigger_time (active_event st') = current_time results.
Proof.
  intros Hboxes Hstep Hact suspects known last Hdue new_participants.
  destruct (process_frame_lifecycle _ _ _ _ Hboxes Hstep)
    as (st3 & cs & Hst' & Ht & He & Hv & Hn & Hq & Hcs).
  unfold manage_event_lifecycle in Hst'. rewrite Ht in Hst'. fold suspects in Hst'.
  set (st5 := end_existing_event suspects (start_new_event suspects st3)) in *.
  assert (event_status (active_event st5) = active) as Hact5.
  { destruct (continuous_vlm_analysis_keeps (current_time results)
                (jpg_as_text results) suspects st5) as (_ & _ & Hs & _).
    rewrite <- Hst' in Hs. congruence. }
  assert (∃ extra,
            vlm_task_queue st5 = vlm_task_queue st
            ∧ participants (active_event st5) = known
            ∧ last_vlm_trigger_time (active_event st5) = last
            ∧ db_writer_queue st5 = db_writer_queue st ++ cs ++ extra
            ∧ Forall (λ c, ¬ is_add_participant c) extra)
    as (extra & Hv5 & Hp5 & Hl5 & Hq5 & Hextra).
  { unfold st5, known, last. clear Hst' Hdue new_participants.
    destruct (event_status (active_event st)) eqn:Hs.
    - destruct suspects as [|first others].
      + exfalso. unfold st5 in Hact5.
        rewrite start_new_event_idle in Hact5 by by right.
        rewrite end_existing_event_idle in Hact5 by (left; congruence).
        congruence.
      + rewrite start_new_event_fires by congruence.
        rewrite end_existing_event_idle by by right.
        simpl. exists [create_event (Some (object_ids_allocated st3)) "cam_01"
                        (tracking_id first)].
        rewrite He, Hq, <- app_assoc. repeat split; try done.
        repeat constructor. by intros [].
    - rewrite start_new_event_idle by (left; congruence).
      destruct suspects as [|first others].
      + exfalso. unfold st5 in Hact5.
        rewrite start_new_event_idle in Hact5 by (left; congruence).
        rewrite end_existing_event_fires in Hact5 by congruence. done.
      + rewrite end_existing_event_idle by by right.
        exists []. rewrite He, Hq, app_nil_r. done. }
  destruct (continuous_vlm_analysis_due (current_time results) (jpg_as_text results)
              suspects st5 Hact5)
    as (_ & Hid' & _ & Hlast' & Hp' & Hq' & Hv' & _).
  { by rewrite Hl5. }
  rewrite <- Hst' in Hid', Hlast', Hp', Hq', Hv'.
  rewrite Hp5 in Hp', Hq'. fold new_participants in Hp', Hq'.
  split; [|split; [|split; [|split; [|split]]]].
  - exists (cs ++ extra). rewrite Hq', Hq5, Hid', <- !app_assoc.
    split; [done|]. apply Forall_app. split; [|done].
    eapply Forall_impl; [exact Hcs|]. intros c Hc Hadd. by destruct c.
  - apply NoDup_elements.
  - intros t. unfold new_participants.
    rewrite elem_of_elements, elem_of_difference, elem_of_list_to_set. done.
  - exact Hp'.
  - by rewrite Hv', Hv5, Hid'.
  - exact Hlast'.
Qed.

(** Five seconds after the first escalation track 1 is still down: a second
    analysis task, and nobody new to fold in. *)
Lemma escalation_witness :
  let results := frame 1006 (Some [person 1 "0a1b2c3d" lying]) in
  let st' := state_after (fall ++ [results]) in
  boxes results = Some [person 1 "0a1b2c3d" lying]
  ∧ process_frame (state_after fall) results = Ok st'
  ∧ event_status (active_event st') = active
  ∧ (VLM_INTERVAL_SEC
     <= current_time results - last_vlm_trigger_time (active_event (state_after fall)))%Q
  ∧ vlm_task_queue st'
    = vlm_task_queue (state_after fall)
      ++ [{| task_event_id := id (active_event st');
             task_subjects :=
               tracking_id <$> suspicious_subjects (tracked_subjects st');
             base64_frame := jpg_as_text results |}]
  ∧ last_vlm_trigger_time (active_event st') = current_time results.
Proof.
  intros results st'.
  assert (process_frame (state_after fall) results = Ok st') as Hstep
    by (by vm_compute).
  assert (event_status (active_event st') = active) as Hact by (by vm_compute).
  assert (VLM_INTERVAL_SEC
          <= current_time results
             - last_vlm_trigger_time (active_event (state_after fall)))%Q as Hdue
    by (by vm_compute).
  destruct (escalation (state_after fall) st' results _ eq_refl Hstep Hact Hdue)
    as (_ & _ & _ & _ & Hv & Hlast).
  split; [reflexivity|]. split; [exact Hstep|]. split; [exact Hact|].
  split; [exact Hdue|]. split; [exact Hv|exact Hlast].
Defined.

(** X1. The end of an event in the YOLO variant: in a frame that finds an event
    active and leaves nobody suspicious, exactly one end_event carrying the
    event's id follows the frame's subject commands, no analysis task is
    sent, and the event dictionary is back to inactive, without id and
    without participants. *)
Theorem event_end_discards_event (frames : list Frame) (results : Frame)
  (persons : list Detection) (st st' : State) :
  threat_detection_process frames = Ok st →
  boxes results = Some persons →
  process_frame st results = Ok st' →
  event_status (active_event st) = active →
  suspicious_subjects (tracked_subjects st') = [] →
  is_Some (id (active_event st))
  ∧ (∃ subject_commands,
       db_writer_queue st'
       = db_writer_queue st ++ subject_commands ++ [end_event (id (active_event st))]
       ∧ Forall is_subject_command subject_commands)
  ∧ vlm_task_queue st' = vlm_task_queue st
  ∧ active_event st'
    = {| id := None;
         event_status := inactive;
         last_vlm_trigger_time := last_vlm_trigger_time (active_event st);
         participants := ∅ |}.
Proof.
  intros Hrun Hboxes Hstep Hact Hsus.
  apply threat_detection_process_Ok in Hrun as [_ (_ & _ & Hev & _)].
  unfold event_consistent in Hev. rewrite Hact in Hev. destruct Hev as (x & Hid & _).
  destruct (process_frame_lifecycle _ _ _ _ Hboxes Hstep)
    as (st3 & cs & Hst' & Ht & He & Hv & Hn & Hq & Hcs).
  unfold manage_event_lifecycle in Hst'. rewrite Ht, Hsus in Hst'.
  rewrite start_new_event_idle in Hst' by by right.
  rewrite end_existing_event_fires in Hst' by congruence.
  rewrite continuous_vlm_analysis_not_due in Hst' by by left.
  subst st'. simpl. rewrite He, Hq, Hv, <- app_assoc.
  split; [by rewrite Hid|]. split; [by exists cs|]. done.
Qed.

(** X2. The event commands of the YOLO variant, over a whole run: an event is
    ended at most once, and nobody is added to an event after its end. *)
Theorem event_commands_round_trip (frames : list Frame) :
  Forall well_formed_frame frames →
  ∃ st, threat_detection_process frames = Ok st
    ∧ (∀ e, (length (filter (λ c, c = end_event e) (db_writer_queue st)) ≤ 1)%nat)
    ∧ (∀ before after e t,
         db_writer_queue st = before ++ end_event e :: after →
         add_participant_to_event e t ∉ after).
Proof.
  intros Hwf.
  destruct (threat_detection_process_consistent frames Hwf)
    as (st & Hrun & _ & _ & _ & Hled).
  exists st. split; [done|]. unfold ledger_consistent in Hled.
  assert (well_formed {| current := None; fresh := 0 |}) as Hg0 by done.
  split.
  - intros e. exact (replay_ends_once _ _ _ e Hg0 Hled).
  - intros before after e t Hsplit. rewrite Hsplit in Hled.
    exact (replay_no_add_after_end _ _ _ _ e t Hg0 Hled).
Qed.

(** C3 in the MediaPipe variant. Its END block sends the end_event and
    resets status and id, but never clears the participants: after one fall
    and recovery the event is inactive and the former participant is still
    in the set, where the YOLO variant leaves the empty set. When the same
    subject is suspicious again in a later event that starts with somebody
    else, the stale entry hides it from the escalation, and the
    add_participant command the YOLO variant sends is missing. *)
Theorem event_end_keeps_participants_in_variant1 :
  (∃ st, Detection1.threat_detection_process fall_and_recover1 = Ok st
     ∧ last (db_writer_queue st) = Some (end_event (Some 0%nat))
     ∧ event_status (active_event st) = inactive
     ∧ id (active_event st) = None
     ∧ participants (active_event st) = {["person_0a1b2c3d"]})
  ∧ (∃ st, threat_detection_process fall_and_recover = Ok st
       ∧ last (db_writer_queue st) = Some (end_event (Some 0%nat))
       ∧ participants (active_event st) = ∅)
  ∧ (∃ st, Detection1.threat_detection_process relapse1 = Ok st
       ∧ create_event (Some 1%nat) "cam_01" "person_4e5f6071" ∈ db_writer_queue st
       ∧ tracking_id <$> suspicious_subjects (tracked_subjects st)
         = ["person_4e5f6071"; "person_0a1b2c3d"]
       ∧ add_participant_to_event (Some 1%nat) "person_0a1b2c3d"
         ∉ db_writer_queue st)
  ∧ (∃ st, threat_detection_process relapse = Ok st
       ∧ add_participant_to_event (Some 1%nat) "person_0a1b2c3d"
         ∈ db_writer_queue st).
Proof.
  split; [|split; [|split]].
  - exists (state_after1 fall_and_recover1). split; [by vm_compute|]. by vm_compute.
  - exists (state_after fall_and_recover). split; [by vm_compute|]. by vm_compute.
  - exists (state_after1 relapse1). split; [by vm_compute|].
    split; [apply (bool_decide_unpack _); by vm_compute|].
    split; [by vm_compute|].
    apply (bool_decide_unpack _). by vm_compute.
  - exists (state_after relapse). split; [by vm_compute|].
    apply (bool_decide_unpack _). by vm_compute.
Qed.

End Claims.

(** ** Pose histories *)

Section EpisodeFacts.

Import Pose Detection Input Consistency Episode.

Lemma subject_after_app (s : Subject) (a b : list (bool * Q)) :
  subject_after s (a ++ b) = subject_after s a ≫= λ s1, subject_after s1 b.
Proof. apply for_each_app. Qed.

Lemma observe_Ok (s s' : Subject) (b : bool) (t : Q) :
  observe s (b, t) = Ok s' ↔ ∃ cs, update_pose b t s = Ok (s', cs).
Proof.
  unfold observe. simpl. destruct (update_pose b t s) as [[s1 cs]|e]; simpl.
  - split; [intros [= <-]; by exists cs|]. by intros (? & [= -> _]).
  - split; [done|]. by intros (? & ?).
Qed.

Lemma fresh_start_after_false (inputs : list (bool * Q)) (t : Q) :
  fresh_start (inputs ++ [(false, t)]).
Proof. right. by exists inputs, t. Qed.

(** One more observation keeps the history in step with the status. *)
Lemma observe_history (inputs : list (bool * Q)) (s s' : Subject) (b : bool) (t : Q) :
  history_matches inputs s → observe s (b, t) = Ok s' →
  history_matches (inputs ++ [(b, t)]) s' ∧ tracking_id s' = tracking_id s.
Proof.
  intros Hs Hobs. apply observe_Ok in Hobs as [cs Hupd].
  unfold history_matches in *. unfold update_pose in Hupd.
  destruct s as [tid st start flag]. simpl in *.
  destruct b.
  - destruct st.
    + simplify_eq. simpl. split; [|done].
      destruct Hs as (Hfresh & _ & ->).
      exists inputs, t, []. repeat split; try done.
    + destruct Hs as (before & t0 & during & -> & Hfresh & Hduring & -> & ->).
      simpl in Hupd.
      destruct (Qgeb (t - t0) POSE_CONFIRMATION_SEC) eqn:Hwin; simplify_eq; simpl.
      * split; [|done]. exists t0. split; [|done].
        exists before, during, t, []. rewrite <- app_assoc. simpl.
        repeat split; try done. by apply Qgeb_le.
      * split; [|done]. exists before, t0, (during ++ [(true, t)]).
        rewrite <- app_assoc. simpl. repeat split; try done.
        apply Forall_app. split; [done|]. by repeat constructor.
    + simplify_eq. simpl. split; [|done].
      destruct Hs as (t0 & (before & during & t1 & after & -> & Hfresh & Hd & Ha & Hw)
                      & -> & ->).
      exists t0. split; [|done].
      exists before, during, t1, (after ++ [(true, t)]).
      rewrite <- !app_assoc. simpl. rewrite <- app_assoc. simpl.
      repeat split; try done.
      apply Forall_app. split; [done|]. by repeat constructor.
  - destruct st; simpl in Hupd; simplify_eq; simpl.
    + destruct Hs as (_ & -> & ->).
      split; [|done]. split; [apply fresh_start_after_false|done].
    + split; [|done]. split; [apply fresh_start_after_false|done].
    + split; [|done]. split; [apply fresh_start_after_false|done].
Qed.

(** A subject's status always agrees with the observations it was fed. *)
Lemma subject_after_history (pid : string) (inputs : list (bool * Q)) (s : Subject) :
  subject_after (new_subject pid) inputs = Ok s →
  history_matches inputs s ∧ tracking_id s = pid.
Proof.
  revert s. induction inputs as [|[b t] inputs IH] using rev_ind; intros s Hrun.
  - unfold subject_after in Hrun. simpl in Hrun. simplify_eq. split; [|done].
    unfold history_matches. simpl. split; [by left|done].
  - rewrite subject_after_app in Hrun.
    apply bind_Ok in Hrun as (s1 & Hs1 & Hlast).
    destruct (IH s1 Hs1) as [Hm Hid].
    unfold subject_after in Hlast. simpl in Hlast.
    apply bind_Ok in Hlast as (s2 & Hobs & Hret).
    simpl in Hret. simplify_eq.
    destruct (observe_history inputs s1 s b t Hm Hobs) as [Hm' Hid'].
    split; [done|]. congruence.
Qed.

Lemma observations_cons (k : Z) (now : Q) (fh : Z) (person : Detection)
  (persons : list Detection) :
  observations k now fh (person :: persons)
  = if decide (yolo_track_id person = k)
    then (pose_of fh person, now) :: observations k now fh persons
    else observations k now fh persons.
Proof. unfold observations. rewrite filter_cons. by case_decide. Qed.

Lemma observations_nonempty (k : Z) (now : Q) (fh : Z) (persons : list Detection) :
  k ∈ yolo_track_id <$> persons → observations k now fh persons ≠ [].
Proof.
  induction persons as [|person persons IH]; [by intros ?%elem_of_nil|].
  rewrite fmap_cons, observations_cons. intros Hin.
  case_decide as Hk; [done|].
  apply IH. apply elem_of_cons in Hin as [->|Hin]; done.
Qed.

(** Step 2 feeds each subject the observations the frame holds for its key. *)
Lemma track_persons_history (now : Q) (fh : Z) (persons : list Detection)
  (st st2 : State) (k : Z) :
  for_each (track_person now fh) persons st = Ok st2 →
  evolves (dict_get (tracked_subjects st) k) (observations k now fh persons)
    (dict_get (tracked_subjects st2) k).
Proof.
  revert st. induction persons as [|person persons IH]; intros st Hrun.
  - simpl in Hrun. simplify_eq. unfold evolves, observations. simpl.
    destruct (dict_get (tracked_subjects st2) k) as [s|]; [by exists s|by left].
  - simpl in Hrun. apply bind_Ok in Hrun as (s1 & Hstep & Hrest).
    specialize (IH s1 Hrest).
    apply track_person_Ok in Hstep
      as (before & after & created & commands & on_ground
          & Hnew & Hpose & Hupd & Ht & _).
    rewrite observations_cons. rewrite Ht in IH.
    destruct (decide (yolo_track_id person = k)) as [<-|Hne].
    + rewrite dict_get_set_eq in IH. destruct IH as (s' & Hfinal & Hafter).
      assert (subject_after before
                ((pose_of fh person, now)
                 :: observations (yolo_track_id person) now fh persons) = Ok s')
        as Hall.
      { unfold subject_after. simpl.
        assert (observe before (pose_of fh person, now) = Ok after) as ->.
        { apply observe_Ok. exists commands. unfold pose_of. simpl.
          by rewrite Hpose. }
        exact Hafter. }
      destruct Hnew as [[-> _]|(-> & -> & _)]; simpl.
      * by exists s'.
      * right. split; [done|]. by eexists _, s'.
    + by rewrite dict_get_set_ne in IH.
Qed.

(** One frame moves every key along its episode. *)
Lemma process_frame_episode (k : Z) (acc : option (list (bool * Q)))
  (st st' : State) (results : Frame) :
  NoDup (dict_keys (tracked_subjects st)) →
  follows_episode k acc st →
  process_frame st results = Ok st' →
  follows_episode k (episode_step k acc results) st'.
Proof.
  intros Hnd Hacc Hstep. unfold episode_step.
  destruct (boxes results) as [persons|] eqn:Hboxes.
  - destruct (proj1 (process_frame_Some _ _ _ persons Hboxes) Hstep)
      as (st2 & Htrack & Hst').
    subst st'.
    destruct (track_persons_keys _ _ _ _ _ Htrack Hnd) as [Hnd2 _].
    pose proof (track_persons_history _ _ _ _ _ k Htrack) as Hev.
    destruct (manage_event_lifecycle_effect (current_time results)
                (jpg_as_text results)
                (clean_up_lost_tracks (yolo_track_id <$> persons) st2)) as [Ht _].
    unfold follows_episode. rewrite Ht, clean_up_lost_tracks_filter by done.
    rewrite dict_get_filter_keys.
    destruct (decide (k ∈ yolo_track_id <$> persons)) as [Hin|Hout]; [|done].
    pose proof (observations_nonempty k (current_time results)
                  (frame_height results) persons Hin) as Hobs.
    unfold follows_episode in Hacc. unfold evolves in Hev.
    destruct acc as [inputs|]; simpl.
    + destruct Hacc as (pid & s & Hget & Hs). rewrite Hget in Hev.
      destruct Hev as (s' & -> & Hs'). exists pid, s'. split; [done|].
      rewrite subject_after_app, Hs. exact Hs'.
    + rewrite Hacc in Hev. destruct Hev as [[? _]|(_ & pid & s' & -> & Hs')]; [done|].
      by exists pid, s'.
  - unfold process_frame in Hstep. rewrite Hboxes in Hstep. by simplify_eq.
Qed.

(** After a run, the subject under a key is the one its episode produces. *)
Lemma threat_detection_process_episode (k : Z) (frames : list Frame) (st : State) :
  threat_detection_process frames = Ok st →
  follows_episode k (episode k frames) st.
Proof.
  unfold threat_detection_process, episode.
  assert (follows_episode k None initial_state) as Hinit by done.
  assert (consistent initial_state) as Hc by apply initial_state_consistent.
  revert Hinit Hc. generalize initial_state (@None (list (bool * Q))).
  induction frames as [|results frames IH]; intros s acc Hacc Hc Hrun.
  - simpl in Hrun. by simplify_eq.
  - simpl in Hrun. apply bind_Ok in Hrun as (s1 & Hstep & Hrest). simpl.
    apply (IH s1); [|  |done].
    + apply (process_frame_episode k acc s s1 results); [apply Hc|done|done].
    + destruct (process_frame_consistent s results Hc) as (s1' & Hs1' & Hc1);
        [by eapply process_frame_well_formed|]. congruence.
Qed.

End EpisodeFacts.

Section SubjectClaims.

Import Pose Detection Input Consistency Episode Scenario.

(** C2. On every sequence of frames the tracker can yield, each tracked
    subject obeys the pose state machine: from Normal a pose-true frame moves
    it to Pending and records the time; from Pending a pose-true frame at
    least [POSE_CONFIRMATION_SEC] after the recorded time moves it to
    Suspicious, an earlier one leaves it Pending; from Pending or Suspicious
    a pose-false frame returns it to Normal, clearing the recorded time and
    the confirmed flag. And a subject that is Suspicious got there the only
    possible way: since its creation or its last pose-false observation,
    every observation of it was pose-true, the first at the recorded time
    [t0] and a later one at least [POSE_CONFIRMATION_SEC] after [t0]. *)
Theorem suspicious_only_after_full_window (frames : list Frame) :
  Forall well_formed_frame frames →
  ∃ st, threat_detection_process frames = Ok st
    ∧ ∀ k s, dict_get (tracked_subjects st) k = Some s →
        (status s = normal → ∀ now,
           update_pose true now s
           = Ok ({| tracking_id := tracking_id s; status := pending;
                    pose_start_time := Some now;
                    is_confirmed_suspicious := false |}, []))
        ∧ (status s = pending → ∃ t0, pose_start_time s = Some t0 ∧ ∀ now,
             ((POSE_CONFIRMATION_SEC <= now - t0)%Q →
                update_pose true now s
                = Ok ({| tracking_id := tracking_id s; status := suspicious;
                         pose_start_time := Some t0;
                         is_confirmed_suspicious := true |},
                      [update_subject_status (tracking_id s) suspicious]))
             ∧ ((now - t0 < POSE_CONFIRMATION_SEC)%Q →
                  update_pose true now s = Ok (s, [])))
        ∧ (status s ≠ normal → ∀ now,
             update_pose false now s
             = Ok ({| tracking_id := tracking_id s; status := normal;
                      pose_start_time := None;
                      is_confirmed_suspicious := false |},
                   [update_subject_status (tracking_id s) normal]))
        ∧ (status s = suspicious →
             ∃ inputs t0, episode k frames = Some inputs
                          ∧ held_full_window inputs t0
                          ∧ pose_start_time s = Some t0).
Proof.
  intros Hwf.
  destruct (threat_detection_process_consistent frames Hwf)
    as (st & Hrun & _ & Hsub & _ & _).
  exists st. split; [done|]. intros k s Hget.
  assert (subject_consistent s) as Hs.
  { apply dict_get_elem in Hget. rewrite Forall_forall in Hsub.
    exact (Hsub _ Hget). }
  unfold subject_consistent in Hs.
  split; [|split; [|split]].
  - intros Hst now. rewrite Hst in Hs. destruct Hs as [_ Hflag].
    unfold update_pose. by rewrite Hst, Hflag.
  - intros Hst. rewrite Hst in Hs. destruct Hs as [[t0 Hstart] Hflag].
    exists t0. split; [done|]. intros now. unfold update_pose.
    rewrite Hst, Hstart, Hflag. simpl. split.
    + intros Hwin. apply Qgeb_le in Hwin. by rewrite Hwin.
    + intros Hearly. apply Qgeb_false in Hearly. by rewrite Hearly.
  - intros Hst now. unfold update_pose. by rewrite decide_True.
  - intros Hst.
    pose proof (threat_detection_process_episode k frames st Hrun) as Hep.
    unfold follows_episode in Hep.
    destruct (episode k frames) as [inputs|]; [|congruence].
    destruct Hep as (pid & s0 & Hget0 & Hafter).
    assert (s0 = s) as -> by congruence.
    apply subject_after_history in Hafter as [Hm _].
    unfold history_matches in Hm. rewrite Hst in Hm.
    destruct Hm as (t0 & Hheld & Hstart & _).
    by exists inputs, t0.
Qed.

(** Track 1 after its fall: suspicious, having held the pose from 1000 s to
    1001 s. *)
Lemma suspicious_only_after_full_window_witness :
  Forall well_formed_frame fall
  ∧ ∃ inputs t0, episode 1 fall = Some inputs ∧ held_full_window inputs t0.
Proof.
  assert (Forall well_formed_frame fall) as Hwf by well_formed_frames.
  split; [exact Hwf|].
  destruct (suspicious_only_after_full_window fall Hwf) as (st & Hrun & Hall).
  assert (threat_detection_process fall = Ok (state_after fall)) as Hrun'
    by (by vm_compute).
  assert (st = state_after fall) as -> by congruence.
  destruct (Hall 1%Z
              {| tracking_id := "person_0a1b2c3d"; status := suspicious;
                 pose_start_time := Some 1000%Q;
                 is_confirmed_suspicious := true |})
    as (_ & _ & _ & Hsus); [by vm_compute|].
  destruct (Hsus eq_refl) as (inputs & t0 & Hep & Hheld & _).
  by exists inputs, t0.
Defined.

End SubjectClaims.

(** ** The persistence consumer *)

Section ConsumerClaims.

Import DbWriter Consumer.

Context {Store : Type} (db_manager : DatabaseManager Store).

Lemma writer_loop_step (t : Task) (rest : list (option Task)) (store : Store)
  (log : list LogLine) :
  action t ≠ Some "shutdown" →
  writer_loop db_manager (Some t :: rest) store log
  = writer_loop db_manager rest
      (apply_command db_manager (store, log) t).1
      (apply_command db_manager (store, log) t).2.
Proof.
  intros Hgo. simpl. rewrite bool_decide_eq_false_2 by done.
  unfold apply_command. simpl.
  destruct (route db_manager (action t)) as [method|]; [|done].
  by destruct (method (default [] (payload t)) store) as [store' [e|]].
Qed.

Lemma writer_loop_commands (commands : list Task) (rest : list (option Task))
  (store : Store) (log : list LogLine) :
  Forall (λ t, action t ≠ Some "shutdown") commands →
  writer_loop db_manager ((Some <$> commands) ++ rest) store log
  = writer_loop db_manager rest
      (foldl (apply_command db_manager) (store, log) commands).1
      (foldl (apply_command db_manager) (store, log) commands).2.
Proof.
  intros Hgo. revert store log.
  induction Hgo as [|t commands Ht _ IH]; intros store log; [done|].
  rewrite fmap_cons, <- app_comm_cons, writer_loop_step by done.
  rewrite IH. simpl.
  by destruct (apply_command db_manager (store, log) t).
Qed.

Lemma writer_loop_sentinel (stop : option Task) (later : list (option Task))
  (store : Store) (log : list LogLine) :
  sentinel stop →
  writer_loop db_manager (stop :: later) store log
  = Exited (db_close db_manager store) (log ++ [ShutdownSignalReceived; ShuttingDown]).
Proof.
  intros [->|(t & -> & Ht)]; simpl; [done|].
  by rewrite bool_decide_eq_true_2.
Qed.

Lemma route_None (a : option string) :
  route db_manager a = None ↔ ∀ name, name ∈ recognised_actions → a ≠ Some name.
Proof.
  unfold route, recognised_actions. split.
  - intros Hr name Hin. repeat case_decide; try done.
    repeat (apply elem_of_cons in Hin as [->|Hin]; [done|]).
    by apply elem_of_nil in Hin.
  - intros Hall.
    by rewrite !decide_False by (apply Hall; repeat constructor).
Qed.

End ConsumerClaims.

Section ConsumerTheorem.

Import DbWriter Consumer.

(** C8. The consumer applies the commands one at a time, in arrival order:
    on commands followed by a sentinel ([None] or a ['shutdown'] action) it
    leaves the store as the successive application of the commands leaves
    it, closes the connection and exits, whatever follows the sentinel; with
    no sentinel yet it waits for the next message with the connection still
    open. A command whose method raises is logged and the loop goes on with
    the next message; a command with an unrecognised action is logged as
    unknown, changes nothing in the store, and the loop goes on. *)
Theorem consumer_in_order_until_sentinel {Store : Type}
  (db_manager : DatabaseManager Store) (commands : list Task)
  (stop : option Task) (later : list (option Task)) (connection : Store) :
  Forall (λ t, action t ≠ Some "shutdown") commands →
  sentinel stop →
  let applied := foldl (apply_command db_manager) (connection, []) commands in
  db_writer_process db_manager (Ok connection) ((Some <$> commands) ++ stop :: later)
    = Exited (db_close db_manager applied.1)
        (applied.2 ++ [ShutdownSignalReceived; ShuttingDown])
  ∧ db_writer_process db_manager (Ok connection) (Some <$> commands)
    = BlockedOnGet applied.1 applied.2
  ∧ (∀ t rest store log method store' e,
       action t ≠ Some "shutdown" →
       route db_manager (action t) = Some method →
       method (default [] (payload t)) store = (store', Some e) →
       writer_loop db_manager (Some t :: rest) store log
       = writer_loop db_manager rest store' (log ++ [ErrorProcessingTask t e]))
  ∧ (∀ t rest store log,
       action t ≠ Some "shutdown" →
       (∀ name, name ∈ recognised_actions → action t ≠ Some name) →
       writer_loop db_manager (Some t :: rest) store log
       = writer_loop db_manager rest store (log ++ [UnknownAction (action t)])).
Proof.
  intros Hgo Hstop applied. unfold db_writer_process.
  split; [|split; [|split]].
  - rewrite writer_loop_commands by done. by apply writer_loop_sentinel.
  - rewrite <- (app_nil_r (Some <$> commands)).
    by rewrite writer_loop_commands by done.
  - intros t rest store log method store' e Ht Hroute Hraise.
    rewrite writer_loop_step by done. unfold apply_command. simpl.
    by rewrite Hroute, Hraise.
  - intros t rest store log Ht Hunknown.
    rewrite writer_loop_step by done. unfold apply_command. simpl.
    by rewrite (proj2 (route_None db_manager (action t)) Hunknown).
Qed.

(** A create, a failing end, an unknown action, an update, then the
    ['shutdown'] sentinel with one more command behind it. *)
Lemma consumer_in_order_until_sentinel_witness :
  let commands :=
    [command "create_event"; command "end_event"; command "archive_event";
     command "update_subject_status"] in
  Forall (λ t, action t ≠ Some "shutdown") commands
  ∧ sentinel (Some (command "shutdown"))
  ∧ db_writer_process recording_manager (Ok [])
      ((Some <$> commands) ++ Some (command "shutdown")
         :: [Some (command "create_event")])
    = Exited ["create_event"; "end_event"; "update_subject_status"; "close"]
        [ErrorProcessingTask (command "end_event")
           (Exception "ServerSelectionTimeoutError");
         UnknownAction (Some "archive_event");
         ShutdownSignalReceived; ShuttingDown].
Proof.
  intros commands.
  assert (Forall (λ t, action t ≠ Some "shutdown") commands) as Hgo
    by (by repeat constructor).
  assert (sentinel (Some (command "shutdown"))) as Hstop
    by (right; by eexists).
  split; [exact Hgo|]. split; [exact Hstop|].
  exact (proj1 (consumer_in_order_until_sentinel recording_manager commands
                  (Some (command "shutdown")) [Some (command "create_event")] []
                  Hgo Hstop)).
Defined.

End ConsumerTheorem.

(** ** The analysis worker *)

Section WorkerClaims.

Import Worker Analysis.

Context (strip : string → string).

Lemma run_vlm_analysis_succeeds (env : Capabilities) (payload : VlmTask)
  (st : WorkerState) (content : string) :
  succeeds env content →
  db_writer_queue (run_vlm_analysis strip env payload st)
  = db_writer_queue st
    ++ [add_vlm_log (task_event_id payload) "cam_01" (strip content)
          (random_embedding env) (task_subjects payload)].
Proof.
  intros [Hscreen Hchat]. unfold run_vlm_analysis. by rewrite Hscreen, Hchat.
Qed.

Lemma run_vlm_analysis_fails (env : Capabilities) (payload : VlmTask)
  (st : WorkerState) :
  fails env →
  db_writer_queue (run_vlm_analysis strip env payload st) = db_writer_queue st.
Proof.
  unfold fails, succeeds, run_vlm_analysis. intros Hfails.
  destruct (screen env) as [[| |e]|e]; try done.
  destruct (chat_completion env) as [[content|]|e]; try done.
  by destruct (Hfails content).
Qed.

(** The service is called at most once per task. *)
Lemma run_vlm_analysis_calls (env : Capabilities) (payload : VlmTask)
  (st : WorkerState) :
  ∃ made, calls (run_vlm_analysis strip env payload st) = calls st ++ made
          ∧ (length made ≤ 1)%nat.
Proof.
  unfold run_vlm_analysis.
  destruct (screen env) as [[| |e]|e];
    try (exists []; rewrite app_nil_r; simpl; split; [done|lia]).
  destruct (chat_completion env) as [[content|]|e];
    (eexists [_]; split; [done|simpl; lia]).
Qed.

Lemma run_vlm_analysis_owed (it : Iteration) (message : VlmMessage) (st : WorkerState) :
  polled_vlm it = Some (Some message) →
  task message = Some "analyze_threat" →
  db_writer_queue (run_vlm_analysis strip (env it) (payload message) st)
  = db_writer_queue st ++ owed strip it.
Proof.
  intros Hvlm Htask. unfold owed, run_vlm_analysis.
  rewrite Hvlm, decide_True by done.
  destruct (screen (env it)) as [[| |e]|e]; try by rewrite app_nil_r.
  destruct (chat_completion (env it)) as [[content|]|e]; simpl; try done;
    by rewrite app_nil_r.
Qed.

(** The loop over turns without stop signal: every turn is served, and the
    persistence queue receives what each turn owes, in order. *)
Lemma worker_loop_keeps_running (iterations : list Iteration) (st : WorkerState) :
  Forall keeps_running iterations →
  ∃ st', worker_loop strip iterations st = Polling st'
         ∧ db_writer_queue st'
           = db_writer_queue st ++ concat (owed strip <$> iterations).
Proof.
  intros Hgo. revert st.
  induction Hgo as [|it iterations [Htask Hvlm] _ IH]; intros st.
  - exists st. by rewrite app_nil_r.
  - simpl. rewrite bool_decide_eq_false_2 by done.
    destruct (polled_vlm it) as [[message|]|] eqn:Hpoll; [|done|].
    + destruct (decide (task message = Some "analyze_threat")) as [Ht|Ht].
      * rewrite bool_decide_eq_true_2 by done.
        destruct (IH (run_vlm_analysis strip (env it) (payload message) st))
          as (st' & Hloop & Hq).
        exists st'. split; [done|].
        rewrite Hq, (run_vlm_analysis_owed it message st Hpoll Ht).
        by rewrite <- app_assoc.
      * rewrite bool_decide_eq_false_2 by done.
        destruct (IH st) as (st' & Hloop & Hq). exists st'. split; [done|].
        rewrite Hq. unfold owed at 2. rewrite Hpoll. by rewrite decide_False.
    + destruct (IH st) as (st' & Hloop & Hq). exists st'. split; [done|].
      rewrite Hq. unfold owed at 2. by rewrite Hpoll.
Qed.

End WorkerClaims.

Section WorkerTheorem.

Import Worker Analysis.

(** C9. An analysis task whose handling fails (the screen capture or the
    analysis call raises, or the answer carries no text) puts nothing on the
    persistence queue; one that succeeds puts exactly one add_vlm_log
    carrying the description, the feature vector and the subjects' ids. In
    both cases the service is called at most once for the task, and the
    loop goes on: over any sequence of turns without stop signal the worker
    is still polling at the end, and the persistence queue has received what
    each turn owes, in order. *)
Theorem analysis_worker_outcomes (strip : string → string)
  (iterations : list Iteration) :
  Forall keeps_running iterations →
  (∀ env payload st,
     fails env →
     db_writer_queue (run_vlm_analysis strip env payload st) = db_writer_queue st)
  ∧ (∀ env payload st content,
       succeeds env content →
       db_writer_queue (run_vlm_analysis strip env payload st)
       = db_writer_queue st
         ++ [add_vlm_log (task_event_id payload) "cam_01" (strip content)
               (random_embedding env) (task_subjects payload)])
  ∧ (∀ env payload st,
       ∃ made, calls (run_vlm_analysis strip env payload st) = calls st ++ made
               ∧ (length made ≤ 1)%nat)
  ∧ (∀ it rest message st,
       keeps_running it →
       polled_vlm it = Some (Some message) →
       task message = Some "analyze_threat" →
       worker_loop strip (it :: rest) st
       = worker_loop strip rest
           (run_vlm_analysis strip (env it) (payload message) st))
  ∧ ∃ st', background_ai_worker strip (Ok ()) iterations = Polling st'
           ∧ db_writer_queue st' = concat (owed strip <$> iterations).
Proof.
  intros Hgo. split; [|split; [|split; [|split]]].
  - intros env payload st. apply run_vlm_analysis_fails.
  - intros env payload st content. apply run_vlm_analysis_succeeds.
  - intros env payload st. apply run_vlm_analysis_calls.
  - intros it rest message st [Htask _] Hvlm Hmsg. simpl.
    rewrite bool_decide_eq_false_2 by done.
    by rewrite Hvlm, bool_decide_eq_true_2.
  - unfold background_ai_worker.
    destruct (worker_loop_keeps_running strip iterations
                {| db_writer_queue := []; calls := [] |} Hgo) as (st' & Hloop & Hq).
    by exists st'.
Qed.

(** Three tasks; the analysis call fails for the second. *)
Lemma analysis_worker_outcomes_witness :
  let iterations :=
    [analyze 0 ["person_0a1b2c3d"] (answering "one person lying on the floor");
     analyze 0 ["person_0a1b2c3d"] unreachable_service;
     analyze 0 ["person_0a1b2c3d"; "person_4e5f6071"]
       (answering "two people on the floor")] in
  Forall keeps_running iterations
  ∧ ∃ st', background_ai_worker (λ s, s) (Ok ()) iterations = Polling st'
           ∧ db_writer_queue st'
             = [add_vlm_log (Some 0%nat) "cam_01" "one person lying on the floor"
                  [1 # 2; 1 # 3]%Q ["person_0a1b2c3d"];
                add_vlm_log (Some 0%nat) "cam_01" "two people on the floor"
                  [1 # 2; 1 # 3]%Q ["person_0a1b2c3d"; "person_4e5f6071"]].
Proof.
  intros iterations.
  assert (Forall keeps_running iterations) as Hgo
    by (repeat constructor; done).
  split; [exact Hgo|].
  exact (proj2 (proj2 (proj2 (proj2
    (analysis_worker_outcomes (λ s, s) iterations Hgo))))).
Defined.

End WorkerTheorem.

(** * Further properties of the code *)

(** ** The detection loop *)

Section DetectionExtras.

Import Pose Detection Input Ledger Consistency Episode Scenario Durable.

(** A property of the initial state that every frame keeps holds after every
    run. *)
Lemma run_invariant (P : State → Prop) :
  P initial_state →
  (∀ st results st',
     consistent st → P st → process_frame st results = Ok st' → P st') →
  ∀ frames st, threat_detection_process frames = Ok st → P st.
Proof.
  intros Hinit Hstep frames st. unfold threat_detection_process.
  pose proof initial_state_consistent as Hc.
  revert Hinit Hc. generalize initial_state.
  induction frames as [|results frames IH]; intros s Hs Hc Hrun.
  - simpl in Hrun. by simplify_eq.
  - simpl in Hrun. apply bind_Ok in Hrun as (s1 & Hs1 & Hrest).
    apply (IH s1); [by eapply Hstep| |done].
    destruct (process_frame_consistent s results Hc) as (s1' & Hs1' & Hc1);
      [by eapply process_frame_well_formed|]. congruence.
Qed.

(** Track 1 gets up again while its event is active. *)
Lemma event_end_discards_event_witness :
  let results := frame 1002 (Some [person 1 "0a1b2c3d" standing]) in
  threat_detection_process fall = Ok (state_after fall)
  ∧ boxes results = Some [person 1 "0a1b2c3d" standing]
  ∧ process_frame (state_after fall) results = Ok (state_after fall_and_recover)
  ∧ event_status (active_event (state_after fall)) = active
  ∧ suspicious_subjects (tracked_subjects (state_after fall_and_recover)) = []
  ∧ active_event (state_after fall_and_recover)
    = {| id := None; event_status := inactive;
         last_vlm_trigger_time :=
           last_vlm_trigger_time (active_event (state_after fall));
         participants := ∅ |}.
Proof.
  intros results.
  assert (threat_detection_process fall = Ok (state_after fall)) as Hrun
    by (by vm_compute).
  assert (process_frame (state_after fall) results
          = Ok (state_after fall_and_recover)) as Hstep by (by vm_compute).
  assert (event_status (active_event (state_after fall)) = active) as Hact
    by (by vm_compute).
  assert (suspicious_subjects (tracked_subjects (state_after fall_and_recover)) = [])
    as Hsus by (by vm_compute).
  destruct (event_end_discards_event fall results _ _ _ Hrun eq_refl Hstep Hact Hsus)
    as (_ & _ & _ & Hev).
  split; [exact Hrun|]. split; [reflexivity|]. split; [exact Hstep|].
  split; [exact Hact|]. split; [exact Hsus|exact Hev].
Defined.

Lemma event_commands_round_trip_witness :
  Forall well_formed_frame fall_and_recover
  ∧ ∃ st, threat_detection_process fall_and_recover = Ok st
    ∧ (∀ e, (length (filter (λ c, c = end_event e) (db_writer_queue st)) ≤ 1)%nat)
    ∧ (∀ before after e t,
         db_writer_queue st = before ++ end_event e :: after →
         add_participant_to_event e t ∉ after).
Proof.
  assert (Forall well_formed_frame fall_and_recover) as Hwf by well_formed_frames.
  split; [exact Hwf|]. exact (event_commands_round_trip fall_and_recover Hwf).
Defined.

(** The heuristic raises nothing but [IndexError]. *)
Lemma is_person_on_ground_yolo_raises (keypoints : list Keypoint) (fh : Z) (pct : Q)
  (e : exn) :
  is_person_on_ground_yolo keypoints fh pct = Raise e → e = IndexError.
Proof.
  unfold is_person_on_ground_yolo, get_item.
  repeat (case_match; simpl; try done); by intros [= <-].
Qed.

Lemma track_person_raises (now : Q) (fh : Z) (st : State) (person : Detection)
  (e : exn) :
  Forall (λ kv, subject_consistent kv.2) (tracked_subjects st) →
  track_person now fh st person = Raise e → e = IndexError.
Proof.
  intros Hst. unfold track_person, dict_mem.
  destruct (dict_get (tracked_subjects st) (yolo_track_id person)) as [s0|] eqn:Hget.
  - rewrite Hget.
    destruct (is_person_on_ground_yolo (keypoints_for_person person) fh
                GROUND_THRESHOLD_PERCENT) as [on_ground|e'] eqn:Hpose; simpl.
    + destruct (update_pose_consistent on_ground now s0) as (s' & cs & -> & _);
        [|done].
      apply dict_get_elem in Hget. rewrite Forall_forall in Hst. exact (Hst _ Hget).
    + intros [= <-]. by eapply is_person_on_ground_yolo_raises.
  - simpl. rewrite dict_get_set_eq.
    destruct (is_person_on_ground_yolo (keypoints_for_person person) fh
                GROUND_THRESHOLD_PERCENT) as [on_ground|e'] eqn:Hpose; simpl.
    + destruct (update_pose_consistent on_ground now
                  (new_subject ("person_" +:+ uuid_hex person)))
        as (s' & cs & -> & _); [apply new_subject_consistent|done].
    + intros [= <-]. by eapply is_person_on_ground_yolo_raises.
Qed.

Lemma process_frame_raises (st : State) (results : Frame) (e : exn) :
  consistent st → process_frame st results = Raise e → e = IndexError.
Proof.
  intros (_ & Hsub & _ & _). unfold process_frame.
  destruct (boxes results) as [persons|]; [|done].
  generalize (current_time results) (frame_height results). intros now fh.
  assert (for_each (track_person now fh) persons st = Raise e → e = IndexError)
    as Hloop.
  { revert st Hsub. induction persons as [|person persons IH]; intros st Hsub;
      [done|].
    simpl. destruct (track_person now fh st person) as [s1|e1] eqn:Hstep; simpl.
    - apply IH.
      apply (track_persons_consistent now fh [person] st s1); [|done].
      simpl. by rewrite Hstep.
    - intros [= <-]. by eapply track_person_raises. }
  destruct (for_each (track_person now fh) persons st) as [s2|e2]; simpl; [done|].
  intros [= <-]. by apply Hloop.
Qed.

(** X3. The loop stops on an exception exactly when some tracked person's
    keypoint tensor lacks one of the four torso rows, and the exception is
    then [IndexError]: the subtraction [current_time - pose_start_time] never
    meets a [None], and the subject of a tracked id is always found. *)
Theorem process_stops_only_on_short_keypoints (frames : list Frame) :
  (Forall well_formed_frame frames ↔ ∃ st, threat_detection_process frames = Ok st)
  ∧ ∀ e, threat_detection_process frames = Raise e → e = IndexError.
Proof.
  split.
  - split.
    + intros Hwf.
      destruct (threat_detection_process_consistent frames Hwf) as (st & Hrun & _).
      by exists st.
    + intros [st Hrun]. by apply threat_detection_process_Ok in Hrun as [? _].
  - unfold threat_detection_process.
    pose proof initial_state_consistent as Hc. revert Hc.
    generalize initial_state.
    induction frames as [|results frames IH]; intros s Hc e; [done|].
    simpl. destruct (process_frame s results) as [s1|e1] eqn:Hstep; simpl.
    + apply IH.
      destruct (process_frame_consistent s results Hc) as (s1' & Hs1' & Hc1);
        [by eapply process_frame_well_formed|]. congruence.
    + intros [= <-]. by eapply process_frame_raises.
Qed.

(** The event open after a conforming stream was open before it or was
    created in it. *)
Lemma replay_current_created (q : list DbCommand) (g g' : Protocol) (x : ObjectId) :
  replay q g = Some g' → current g' = Some x →
  current g = Some x ∨ ∃ cam p, create_event (Some x) cam p ∈ q.
Proof.
  revert g. induction q as [|c q IH]; intros g Hrun Hx; simpl in Hrun.
  - left. by simplify_eq.
  - destruct (protocol_step g c) as [g1|] eqn:Hstep; [|done].
    destruct (IH g1 Hrun Hx) as [Hcur|(cam & p & Hin)].
    + destruct g as [cur fr].
      destruct c as [| |[y|] cam p|[y|] ?|[y|]|]; simpl in Hstep; simplify_eq;
        try (by left).
      * destruct cur; [done|]. case_decide; [|done]. simplify_eq.
        simpl in Hcur. simplify_eq. right. exists cam, p. by left.
      * case_decide; [|done]. simplify_eq. by left.
      * case_decide; [|done]. by simplify_eq.
    + right. exists cam, p. by right.
Qed.

(** In a conforming stream, whatever adds to an event or ends it comes after
    the command that created the event, unless the event was open from the
    start. *)
Lemma replay_created_before_use (before after : list DbCommand) (c : DbCommand)
  (g g' : Protocol) (x : ObjectId) :
  replay (before ++ c :: after) g = Some g' → uses (Some x) c →
  current g = Some x ∨ ∃ cam p, create_event (Some x) cam p ∈ before.
Proof.
  intros Hrun Huse.
  apply replay_app_Some in Hrun as (g1 & Hbefore & Hrun).
  simpl in Hrun. destruct (protocol_step g1 c) as [g2|] eqn:Hstep; [|done].
  apply (replay_current_created before g g1 x Hbefore).
  destruct c as [| |? ? ?|[y|] ?|[y|]|]; simpl in Huse, Hstep; try done;
    simplify_eq; by case_decide.
Qed.

(** In a conforming stream every created event is new. *)
Lemma replay_creates_fresh (q : list DbCommand) (g g' : Protocol) (c : DbCommand)
  (x : ObjectId) :
  replay q g = Some g' → c ∈ q → creates (Some x) c →
  (fresh g ≤ x)%nat ∧ (x < fresh g')%nat.
Proof.
  revert g. induction q as [|c0 q IH]; intros g Hrun Hin Hc; simpl in Hrun.
  - by apply elem_of_nil in Hin.
  - destruct (protocol_step g c0) as [g1|] eqn:Hstep; [|done].
    assert (fresh g ≤ fresh g1)%nat as Hmono.
    { destruct g as [cur fr].
      destruct c0 as [| |[y|] ? ?|[y|] ?|[y|]|]; simpl in Hstep; simplify_eq;
        simpl; try lia; repeat case_match; simplify_eq; simpl; lia. }
    assert (∀ q1 g1 g2, replay q1 g1 = Some g2 → (fresh g1 ≤ fresh g2)%nat)
      as Hgrow.
    { clear. induction q1 as [|c1 q1 IH1]; intros g1 g2 Hrun; simpl in Hrun.
      - simplify_eq. lia.
      - destruct (protocol_step g1 c1) as [g3|] eqn:Hstep; [|done].
        specialize (IH1 g3 g2 Hrun).
        destruct g1 as [cur fr].
        destruct c1 as [| |[y|] ? ?|[y|] ?|[y|]|]; simpl in Hstep; simplify_eq;
          simpl in *; try lia; repeat case_match; simplify_eq; simpl in *; lia. }
    apply elem_of_cons in Hin as [->|Hin].
    + destruct c0 as [| |e cam p| | |]; simpl in Hc; try done. subst e.
      simpl in Hstep. destruct (current g); [done|].
      case_decide as Hle; [|done]. simplify_eq.
      specialize (Hgrow q _ g' Hrun). simpl in Hgrow. lia.
    + destruct (IH g1 Hrun Hin Hc). lia.
Qed.

(** In a conforming stream an event is created at most once. *)
Lemma replay_creates_once (q : list DbCommand) (g g' : Protocol) (e : option ObjectId) :
  replay q g = Some g' → (length (filter (creates e) q) ≤ 1)%nat.
Proof.
  revert g. induction q as [|c q IH]; intros g Hrun; simpl in Hrun; [simpl; lia|].
  destruct (protocol_step g c) as [g1|] eqn:Hstep; [|done].
  destruct (decide (creates e c)) as [Hc|Hc].
  - rewrite filter_cons_True by done. simpl.
    rewrite filter_none; [simpl; lia|].
    intros c' Hin Hc'.
    destruct c as [| |e0 cam p| | |]; simpl in Hc; try done. subst e0.
    destruct e as [x|]; [|done]. simpl in Hstep.
    destruct (current g); [done|]. case_decide; [|done]. simplify_eq.
    destruct (replay_creates_fresh q _ g' c' x Hrun Hin Hc') as [Hle _].
    simpl in Hle. lia.
  - rewrite filter_cons_False by done. by apply (IH g1).
Qed.

(** X4. Over a whole run, every add_participant_to_event and every end_event
    names an event that a create_event earlier in the stream has created, and
    no event id is created twice. *)
Theorem events_created_once_before_use (frames : list Frame) :
  Forall well_formed_frame frames →
  ∃ st, threat_detection_process frames = Ok st
    ∧ (∀ before c after e,
         db_writer_queue st = before ++ c :: after → uses e c →
         ∃ cam p, create_event e cam p ∈ before)
    ∧ (∀ e, (length (filter (creates e) (db_writer_queue st)) ≤ 1)%nat).
Proof.
  intros Hwf.
  destruct (threat_detection_process_consistent frames Hwf)
    as (st & Hrun & _ & _ & _ & Hled).
  exists st. split; [done|]. unfold ledger_consistent in Hled. split.
  - intros before c after e Hsplit Huse. rewrite Hsplit in Hled.
    destruct e as [x|].
    + destruct (replay_created_before_use _ _ _ _ _ x Hled Huse) as [Hcur|H];
        [done|exact H].
    + exfalso. apply replay_app_Some in Hled as (g1 & _ & Hled).
      simpl in Hled.
      destruct c as [| |? ? ?|[y|] ?|[y|]|]; simpl in Huse, Hled; done.
  - intros e. by eapply replay_creates_once.
Qed.

Lemma events_created_once_before_use_witness :
  Forall well_formed_frame relapse
  ∧ ∃ st, threat_detection_process relapse = Ok st
    ∧ (∀ before c after e,
         db_writer_queue st = before ++ c :: after → uses e c →
         ∃ cam p, create_event e cam p ∈ before)
    ∧ (∀ e, (length (filter (creates e) (db_writer_queue st)) ≤ 1)%nat).
Proof.
  assert (Forall well_formed_frame relapse) as Hwf.
  { unfold relapse. well_formed_frames. }
  split; [exact Hwf|]. exact (events_created_once_before_use relapse Hwf).
Defined.

(** START and END, taken together, on the state step 3 leaves: what the
    escalation finds. *)
Lemma lifecycle_before_escalation (st3 : State) :
  let suspects := suspicious_subjects (tracked_subjects st3) in
  let st5 := end_existing_event suspects (start_new_event suspects st3) in
  tracked_subjects st5 = tracked_subjects st3
  ∧ vlm_task_queue st5 = vlm_task_queue st3
  ∧ (object_ids_allocated st3 ≤ object_ids_allocated st5)%nat
  ∧ (event_status (active_event st5) = active →
       suspects ≠ []
       ∧ (event_status (active_event st3) = active → st5 = st3)
       ∧ (event_status (active_event st3) = inactive →
            last_vlm_trigger_time (active_event st5) = 0%Q)).
Proof.
  intros suspects st5. unfold st5.
  destruct (event_status (active_event st3)) eqn:Hs; destruct suspects as [|first others].
  - rewrite start_new_event_idle by by right.
    rewrite end_existing_event_idle by by left.
    rewrite Hs. repeat split; try done; lia.
  - rewrite start_new_event_fires by done.
    rewrite end_existing_event_idle by by right.
    simpl. repeat split; try done; lia.
  - rewrite start_new_event_idle by by left.
    rewrite end_existing_event_fires by done.
    simpl. repeat split; try done; lia.
  - rewrite start_new_event_idle by by left.
    rewrite end_existing_event_idle by by right.
    rewrite Hs. repeat split; try done; lia.
Qed.

(** X5. A frame sends at most one analysis task. When it sends one, an event
    is active, the task carries its id, the frame and the ids of all the
    suspicious subjects, of which there is at least one, and the time of the
    last escalation becomes now; if the event was already active when the
    frame began, at least [VLM_INTERVAL_SEC] have passed since the previous
    escalation. *)
Theorem analysis_task_at_most_once_per_frame (st st' : State) (results : Frame) :
  process_frame st results = Ok st' →
  vlm_task_queue st' = vlm_task_queue st
  ∨ (vlm_task_queue st'
     = vlm_task_queue st
       ++ [{| task_event_id := id (active_event st');
              task_subjects :=
                tracking_id <$> suspicious_subjects (tracked_subjects st');
              base64_frame := jpg_as_text results |}]
     ∧ event_status (active_event st') = active
     ∧ suspicious_subjects (tracked_subjects st') ≠ []
     ∧ last_vlm_trigger_time (active_event st') = current_time results
     ∧ (event_status (active_event st) = active →
          (VLM_INTERVAL_SEC
           <= current_time results - last_vlm_trigger_time (active_event st))%Q)).
Proof.
  intros Hstep.
  destruct (boxes results) as [persons|] eqn:Hboxes;
    [|left; unfold process_frame in Hstep; rewrite Hboxes in Hstep; by simplify_eq].
  destruct (process_frame_lifecycle _ _ _ _ Hboxes Hstep)
    as (st3 & cs & Hst' & Ht & He & Hv & Hn & Hq & Hcs).
  unfold manage_event_lifecycle in Hst'.
  destruct (lifecycle_before_escalation st3) as (Ht5 & Hv5 & _ & Hact5).
  set (suspects := suspicious_subjects (tracked_subjects st3)) in *.
  set (st5 := end_existing_event suspects (start_new_event suspects st3)) in *.
  destruct (event_status (active_event st5)) eqn:Hs5.
  { left. rewrite continuous_vlm_analysis_not_due in Hst' by by left.
    subst st'. by rewrite Hv5. }
  destruct (Qlt_le_dec (current_time results - last_vlm_trigger_time (active_event st5))
              VLM_INTERVAL_SEC) as [Hearly|Hdue].
  { left. rewrite continuous_vlm_analysis_not_due in Hst' by by right.
    subst st'. by rewrite Hv5. }
  right.
  destruct (continuous_vlm_analysis_due (current_time results) (jpg_as_text results)
              suspects st5 Hs5 Hdue)
    as (Ht' & Hid' & Hact' & Hlast' & _ & _ & Hv' & _).
  rewrite <- Hst' in Ht', Hid', Hact', Hlast', Hv'.
  destruct (Hact5 eq_refl) as (Hne & Hsame & _).
  assert (suspicious_subjects (tracked_subjects st') = suspects) as Hsus.
  { unfold suspects. by rewrite Ht. }
  rewrite Hsus, Hid', Hv', Hv5, Hv.
  repeat split; try done.
  intros Hact. rewrite <- He in Hact |- *.
  rewrite <- (Hsame Hact). exact Hdue.
Qed.

Lemma analysis_task_at_most_once_per_frame_witness :
  let results := frame 1006 (Some [person 1 "0a1b2c3d" lying]) in
  let st' := state_after (fall ++ [results]) in
  process_frame (state_after fall) results = Ok st'
  ∧ (vlm_task_queue st' = vlm_task_queue (state_after fall)
     ∨ last_vlm_trigger_time (active_event st') = current_time results).
Proof.
  intros results st'.
  assert (process_frame (state_after fall) results = Ok st') as Hstep
    by (by vm_compute).
  split; [exact Hstep|].
  destruct (analysis_task_at_most_once_per_frame _ _ _ Hstep)
    as [Hsame|(_ & _ & _ & Hlast & _)]; [by left|by right].
Defined.

(** What a frame adds to the analysis queue is well formed. *)
Lemma process_frame_tasks_well_formed (st st' : State) (results : Frame) :
  consistent st →
  process_frame st results = Ok st' →
  (object_ids_allocated st ≤ object_ids_allocated st')%nat
  ∧ ∃ new, vlm_task_queue st' = vlm_task_queue st ++ new
           ∧ Forall (task_well_formed (object_ids_allocated st')) new.
Proof.
  intros Hc Hstep.
  assert (consistent st') as Hc'.
  { destruct (process_frame_consistent st results Hc) as (s1 & Hs1 & Hc1);
      [by eapply process_frame_well_formed|]. congruence. }
  destruct (boxes results) as [persons|] eqn:Hboxes;
    [|unfold process_frame in Hstep; rewrite Hboxes in Hstep; simplify_eq;
      split; [lia|]; exists []; by rewrite app_nil_r].
  destruct (process_frame_lifecycle _ _ _ _ Hboxes Hstep)
    as (st3 & cs & Hst' & Ht & He & Hv & Hn & Hq & Hcs).
  unfold manage_event_lifecycle in Hst'.
  destruct (lifecycle_before_escalation st3) as (Ht5 & Hv5 & Hn5 & Hact5).
  set (suspects := suspicious_subjects (tracked_subjects st3)) in *.
  set (st5 := end_existing_event suspects (start_new_event suspects st3)) in *.
  destruct (continuous_vlm_analysis_keeps (current_time results)
              (jpg_as_text results) suspects st5) as (_ & _ & Hs' & Hn').
  rewrite <- Hst' in Hs', Hn'.
  split; [lia|].
  destruct (event_status (active_event st5)) eqn:Hs5.
  { exists []. rewrite continuous_vlm_analysis_not_due in Hst' by by left.
    subst st'. by rewrite app_nil_r, Hv5. }
  destruct (Qlt_le_dec (current_time results - last_vlm_trigger_time (active_event st5))
              VLM_INTERVAL_SEC) as [Hearly|Hdue].
  { exists []. rewrite continuous_vlm_analysis_not_due in Hst' by by right.
    subst st'. by rewrite app_nil_r, Hv5. }
  destruct (continuous_vlm_analysis_due (current_time results) (jpg_as_text results)
              suspects st5 Hs5 Hdue)
    as (_ & Hid' & _ & _ & _ & _ & Hv' & _).
  rewrite <- Hst' in Hid', Hv'.
  eexists. split; [by rewrite Hv', Hv5, Hv|].
  apply Forall_singleton. unfold task_well_formed. simpl.
  destruct (Hact5 eq_refl) as (Hne & _). split.
  - destruct Hc' as (_ & _ & Hev & _). unfold event_consistent in Hev.
    rewrite Hs' in Hev. destruct Hev as (x & Hx & Hlt).
    exists x. by rewrite <- Hid'.
  - intros Hnil. apply fmap_nil_inv in Hnil. done.
Qed.

(** X6. Every analysis task ever sent names an event id that has been
    allocated and lists at least one subject. *)
Theorem analysis_tasks_well_formed (frames : list Frame) :
  Forall well_formed_frame frames →
  ∃ st, threat_detection_process frames = Ok st
    ∧ Forall (task_well_formed (object_ids_allocated st)) (vlm_task_queue st).
Proof.
  intros Hwf.
  destruct (threat_detection_process_consistent frames Hwf) as (st & Hrun & _).
  exists st. split; [done|].
  apply (run_invariant
    (λ st, Forall (task_well_formed (object_ids_allocated st)) (vlm_task_queue st)))
    with (frames := frames); [constructor| |done].
  clear. intros st results st' Hc Hall Hstep.
  destruct (process_frame_tasks_well_formed st st' results Hc Hstep)
    as (Hn & new & -> & Hnew).
  apply Forall_app. split; [|done].
  eapply Forall_impl; [exact Hall|].
  intros t ((x & Hx & Hlt) & Hne). split; [|done]. exists x. split; [done|lia].
Qed.

Lemma analysis_tasks_well_formed_witness :
  Forall well_formed_frame fall
  ∧ ∃ st, threat_detection_process fall = Ok st
    ∧ Forall (task_well_formed (object_ids_allocated st)) (vlm_task_queue st).
Proof.
  assert (Forall well_formed_frame fall) as Hwf by well_formed_frames.
  split; [exact Hwf|]. exact (analysis_tasks_well_formed fall Hwf).
Defined.

Lemma recorded_participants_app (x : ObjectId) (q l : list DbCommand) :
  recorded_participants x (q ++ l)
  = foldl (record_participant x) (recorded_participants x q) l.
Proof. unfold recorded_participants. apply foldl_app. Qed.

(** Commands that do not mention event [x] record nothing for it. *)
Lemma record_participant_others (x : ObjectId) (acc : gset string)
  (l : list DbCommand) :
  (∀ c, c ∈ l → event_of c ≠ Some (Some x)) →
  foldl (record_participant x) acc l = acc.
Proof.
  revert acc. induction l as [|c l IH]; intros acc Hall; [done|].
  simpl. rewrite IH by (intros c' Hc'; apply Hall; by right).
  assert (event_of c ≠ Some (Some x)) as Hc by (apply Hall; by left).
  destruct c as [| |[y|] ? ?|[y|] ?| |]; simpl in *; try done;
    case_decide; congruence.
Qed.

Lemma record_participant_adds (x : ObjectId) (acc : gset string) (ts : list string) :
  foldl (record_participant x) acc (add_participant_to_event (Some x) <$> ts)
  = acc ∪ list_to_set ts.
Proof.
  revert acc. induction ts as [|t ts IH]; intros acc; simpl.
  - by rewrite (right_id_L ∅ (∪)).
  - rewrite decide_True by done. rewrite IH. by rewrite (assoc_L (∪)).
Qed.

Lemma subject_commands_mention_no_event (cs : list DbCommand) (x : ObjectId) :
  Forall is_subject_command cs → ∀ c, c ∈ cs → event_of c ≠ Some (Some x).
Proof.
  rewrite Forall_forall. intros Hcs c Hin. specialize (Hcs c Hin).
  by destruct c.
Qed.

Lemma continuous_vlm_analysis_recorded (now : Q) (jpg : string)
  (suspects : list Subject) (st : State) :
  participants_recorded st →
  (event_status (active_event st) = active → is_Some (id (active_event st))) →
  participants_recorded (continuous_vlm_analysis now jpg suspects st).
Proof.
  intros Hrec Hid.
  destruct (event_status (active_event st)) eqn:Hs;
    [by rewrite continuous_vlm_analysis_not_due by by left|].
  destruct (Qlt_le_dec (now - last_vlm_trigger_time (active_event st))
              VLM_INTERVAL_SEC) as [Hearly|Hdue];
    [by rewrite continuous_vlm_analysis_not_due by by right|].
  destruct (continuous_vlm_analysis_due now jpg suspects st Hs Hdue)
    as (_ & Hid' & _ & _ & Hp' & Hq' & _ & _).
  destruct (Hid eq_refl) as [x Hx].
  unfold participants_recorded in *. rewrite Hid', Hx, Hp', Hq' in *.
  rewrite recorded_participants_app, record_participant_adds, Hrec.
  by rewrite list_to_set_elements_L.
Qed.

(** One frame keeps the participants in step with the stream. *)
Lemma process_frame_recorded (st st' : State) (results : Frame) :
  consistent st → participants_recorded st →
  process_frame st results = Ok st' → participants_recorded st'.
Proof.
  intros Hc Hrec Hstep.
  destruct (boxes results) as [persons|] eqn:Hboxes;
    [|unfold process_frame in Hstep; rewrite Hboxes in Hstep; by simplify_eq].
  destruct (process_frame_lifecycle _ _ _ _ Hboxes Hstep)
    as (st3 & cs & Hst' & Ht & He & Hv & Hn & Hq & Hcs).
  destruct Hc as (_ & _ & Hev & Hled).
  unfold manage_event_lifecycle in Hst'.
  set (suspects := suspicious_subjects (tracked_subjects st3)) in *.
  subst st'. apply continuous_vlm_analysis_recorded.
  - unfold event_consistent in Hev. unfold participants_recorded in Hrec.
    destruct (event_status (active_event st)) eqn:Hs.
    + destruct Hev as [Hid Hnone].
      rewrite (end_existing_event_idle suspects)
        by (destruct suspects;
            [left; rewrite start_new_event_idle by (by right); congruence
            |by right]).
      destruct suspects as [|first others].
      * rewrite start_new_event_idle by by right.
        unfold participants_recorded. by rewrite He, Hid.
      * rewrite start_new_event_fires by congruence.
        unfold participants_recorded. simpl.
        rewrite He, Hnone, Hn, Hq, (left_id_L ∅ (∪)).
        rewrite <- app_assoc, recorded_participants_app.
        rewrite foldl_app. simpl. rewrite decide_True by done.
        rewrite record_participant_others
          by by apply subject_commands_mention_no_event.
        assert (recorded_participants (object_ids_allocated st) (db_writer_queue st)
                = ∅) as ->; [|by rewrite (left_id_L ∅ (∪))].
        apply record_participant_others. intros c Hin Hc.
        assert (well_formed {| current := None; fresh := 0 |}) as Hg0 by done.
        destruct (replay_events _ _ _ Hg0 Hled) as (_ & _ & Hall).
        destruct (Hall c _ Hin Hc) as (y & [= <-] & _ & Hlt). simpl in Hlt. lia.
    + destruct Hev as (x & Hid & _). rewrite Hid in Hrec.
      rewrite start_new_event_idle by (left; congruence).
      destruct suspects as [|first others].
      * rewrite end_existing_event_fires by congruence. done.
      * rewrite end_existing_event_idle by by right.
        unfold participants_recorded. rewrite He, Hid, Hq, Hrec.
        rewrite recorded_participants_app.
        by rewrite record_participant_others
          by by apply subject_commands_mention_no_event.
  - intros Hact. unfold event_consistent in Hev.
    destruct (event_status (active_event st)) eqn:Hs.
    + destruct suspects as [|first others].
      * rewrite start_new_event_idle in Hact |- * by by right.
        rewrite end_existing_event_idle in Hact by (left; congruence).
        congruence.
      * rewrite start_new_event_fires by congruence.
        rewrite end_existing_event_idle by by right. by eexists.
    + destruct Hev as (x & Hid & _).
      rewrite start_new_event_idle in Hact |- * by (left; congruence).
      destruct suspects as [|first others].
      * rewrite end_existing_event_fires in Hact by congruence. done.
      * rewrite end_existing_event_idle by by right. rewrite He, Hid. by eexists.
Qed.

(** X7. After every run the participants held in memory are exactly those
    the command stream records for the open event (the one named by its
    create_event and those added by add_participant_to_event), and the set is
    empty when no event is open. *)
Theorem participants_agree_with_commands (frames : list Frame) :
  Forall well_formed_frame frames →
  ∃ st, threat_detection_process frames = Ok st
    ∧ match id (active_event st) with
      | Some x =>
          participants (active_event st)
          = recorded_participants x (db_writer_queue st)
      | None => participants (active_event st) = ∅
      end.
Proof.
  intros Hwf.
  destruct (threat_detection_process_consistent frames Hwf) as (st & Hrun & _).
  exists st. split; [done|].
  apply (run_invariant participants_recorded) with (frames := frames);
    [done| |done].
  intros s results s' Hc Hrec Hstep. by eapply process_frame_recorded.
Qed.

Lemma participants_agree_with_commands_witness :
  Forall well_formed_frame two_fall
  ∧ ∃ st, threat_detection_process two_fall = Ok st
    ∧ match id (active_event st) with
      | Some x =>
          participants (active_event st)
          = recorded_participants x (db_writer_queue st)
      | None => participants (active_event st) = ∅
      end.
Proof.
  assert (Forall well_formed_frame two_fall) as Hwf by well_formed_frames.
  split; [exact Hwf|]. exact (participants_agree_with_commands two_fall Hwf).
Defined.

Lemma stored_status_app (a b : list DbCommand) (pid : string) (ns : Status) :
  stored_status (a ++ [update_subject_status pid ns]) = ns.
Proof. unfold stored_status. by rewrite foldl_app. Qed.

(** X8. The commands a subject's pose history puts on the queue all carry the
    subject's persistent id and never the status Pending, and the status they
    leave in the store is Suspicious exactly when the subject is Suspicious
    in memory: a Pending subject is stored as normal. *)
Theorem stored_status_mirrors_subject (pid : string) (inputs : list (bool * Q))
  (s : Subject) (commands : list DbCommand) :
  trace_after (new_subject pid) inputs = Ok (s, commands) →
  Forall (λ c, c = update_subject_status pid normal
               ∨ c = update_subject_status pid suspicious) commands
  ∧ stored_status commands
    = match status s with suspicious => suspicious | _ => normal end
  ∧ subject_after (new_subject pid) inputs = Ok s.
Proof.
  revert s commands.
  induction inputs as [|[b t] inputs IH] using rev_ind; intros s commands Hrun.
  - unfold trace_after in Hrun. simpl in Hrun. simplify_eq. by repeat split.
  - unfold trace_after in Hrun. rewrite for_each_app in Hrun.
    apply bind_Ok in Hrun as ([s1 cs1] & Hs1 & Hlast).
    destruct (IH s1 cs1 Hs1) as (Hall & Hstored & Hafter).
    simpl in Hlast. apply bind_Ok in Hlast as ([s2 cs2] & Hobs & Hret).
    simpl in Hret. simplify_eq.
    unfold observe_emitting in Hobs. simpl in Hobs.
    apply bind_Ok in Hobs as ([s3 cs3] & Hupd & Hret). simpl in Hret. simplify_eq.
    assert (tracking_id s1 = pid) as Hpid.
    { by apply subject_after_history in Hafter as [_ ?]. }
    assert (subject_after (new_subject pid) (inputs ++ [(b, t)]) = Ok s) as Hafter'.
    { rewrite subject_after_app, Hafter. unfold subject_after. simpl.
      assert (observe s1 (b, t) = Ok s) as -> by (apply observe_Ok; by eexists).
      done. }
    split; [|split; [|done]].
    + apply Forall_app. split; [done|].
      unfold update_pose in Hupd.
      repeat (case_match; simplify_eq);
        repeat first [apply Forall_nil_2 | apply Forall_cons_2];
        try (by left); try (by right).
    + unfold update_pose in Hupd.
      destruct b.
      * destruct (status s1) eqn:Hst; simplify_eq; simpl.
        -- by rewrite app_nil_r.
        -- repeat (case_match; simplify_eq); simpl;
             rewrite ?app_nil_r, ?stored_status_app; try done;
             by rewrite Hst in Hstored |- *.
        -- rewrite app_nil_r. by rewrite Hst.
      * case_decide as Hn; simplify_eq; simpl.
        -- by rewrite stored_status_app.
        -- rewrite app_nil_r.
           destruct (status s) eqn:Hst; try done.
Qed.

(** Down at 1000 s, confirmed at 1001 s, up at 1002 s, down again at 1003 s. *)
Lemma stored_status_mirrors_subject_witness :
  let inputs := [(true, 1000%Q); (true, 1001%Q); (false, 1002%Q); (true, 1003%Q)] in
  trace_after (new_subject "person_0a1b2c3d") inputs
  = Ok ({| tracking_id := "person_0a1b2c3d"; status := pending;
           pose_start_time := Some 1003%Q; is_confirmed_suspicious := false |},
        [update_subject_status "person_0a1b2c3d" suspicious;
         update_subject_status "person_0a1b2c3d" normal])
  ∧ stored_status
      [update_subject_status "person_0a1b2c3d" suspicious;
       update_subject_status "person_0a1b2c3d" normal] = normal.
Proof.
  intros inputs.
  assert (trace_after (new_subject "person_0a1b2c3d") inputs
          = Ok ({| tracking_id := "person_0a1b2c3d"; status := pending;
                   pose_start_time := Some 1003%Q;
                   is_confirmed_suspicious := false |},
                [update_subject_status "person_0a1b2c3d" suspicious;
                 update_subject_status "person_0a1b2c3d" normal])) as Hrun
    by (by vm_compute).
  split; [exact Hrun|].
  exact (proj1 (proj2 (stored_status_mirrors_subject _ _ _ _ Hrun))).
Defined.

End DetectionExtras.

(** ** The video source *)

Section VideoSourceExtras.

Import VideoSource.

Context (int : string → option Z) (path_exists : string → bool).


End VideoSourceExtras.

(** ** The MediaPipe variant *)

Section Variant1Extras.

Import Detection Scenario.

(** X10. The MediaPipe heuristic answers "not on ground" for a pose without
    landmarks, raises [IndexError] for a pose with some landmarks but fewer
    than the right hip's index requires, and otherwise answers "on ground"
    exactly when the mean normalised height of the two shoulders and the two
    hips exceeds 0.75; the frame height plays no part. *)
Theorem is_person_on_ground_verdict (landmarks : list Detection1.Landmark)
  (frame_height : Z) :
  (landmarks = [] → Detection1.is_person_on_ground landmarks frame_height = Ok false)
  ∧ ((0 < length landmarks ≤ Detection1.RIGHT_HIP)%nat →
     Detection1.is_person_on_ground landmarks frame_height = Raise IndexError)
  ∧ ((Detection1.RIGHT_HIP < length landmarks)%nat →
     ∃ ls rs lh rh on_ground,
       landmarks !! Detection1.LEFT_SHOULDER = Some ls
       ∧ landmarks !! Detection1.RIGHT_SHOULDER = Some rs
       ∧ landmarks !! Detection1.LEFT_HIP = Some lh
       ∧ landmarks !! Detection1.RIGHT_HIP = Some rh
       ∧ Detection1.is_person_on_ground landmarks frame_height = Ok on_ground
       ∧ (on_ground = true ↔
          (3 # 4 < (Detection1.lm_y ls + Detection1.lm_y rs
                    + Detection1.lm_y lh + Detection1.lm_y rh) / 4)%Q))
  ∧ ∀ other_height,
      Detection1.is_person_on_ground landmarks other_height
      = Detection1.is_person_on_ground landmarks frame_height.
Proof.
  unfold Detection1.RIGHT_HIP, Detection1.LEFT_HIP, Detection1.RIGHT_SHOULDER,
    Detection1.LEFT_SHOULDER.
  split; [by intros ->|]. split; [|split; [|done]].
  - intros [Hpos Hshort]. destruct landmarks as [|l0 landmarks]; [simpl in Hpos; lia|].
    unfold Detection1.is_person_on_ground.
    unfold Detection1.RIGHT_HIP, Detection1.LEFT_HIP, Detection1.RIGHT_SHOULDER,
      Detection1.LEFT_SHOULDER.
    destruct (get_item (l0 :: landmarks) 11) as [a|e] eqn:Ha;
      [|unfold get_item in Ha; by case_match; simplify_eq].
    destruct (get_item (l0 :: landmarks) 12) as [b|e] eqn:Hb;
      [|unfold get_item in Hb; by case_match; simplify_eq].
    destruct (get_item (l0 :: landmarks) 23) as [c|e] eqn:Hc;
      [|unfold get_item in Hc; by case_match; simplify_eq].
    by rewrite (get_item_out_of_range _ 24) by lia.
  - intros Hlen.
    destruct (lookup_lt_is_Some_2 landmarks 11) as [ls Hls]; [lia|].
    destruct (lookup_lt_is_Some_2 landmarks 12) as [rs Hrs]; [lia|].
    destruct (lookup_lt_is_Some_2 landmarks 23) as [lh Hlh]; [lia|].
    destruct (lookup_lt_is_Some_2 landmarks 24) as [rh Hrh]; [lia|].
    exists ls, rs, lh, rh. eexists. repeat (split; [done|]).
    unfold Detection1.is_person_on_ground.
    destruct landmarks as [|l0 landmarks]; [simpl in Hlen; lia|].
    unfold Detection1.RIGHT_HIP, Detection1.LEFT_HIP, Detection1.RIGHT_SHOULDER,
      Detection1.LEFT_SHOULDER.
    rewrite (get_item_lookup _ _ _ Hls), (get_item_lookup _ _ _ Hrs),
      (get_item_lookup _ _ _ Hlh), (get_item_lookup _ _ _ Hrh).
    split; [reflexivity|]. apply Qgtb_lt.
Qed.

Lemma track_person1_Ok (now : Q) (fh : Z) (st st' : State)
  (indexed : nat * Detection1.Person) :
  Detection1.track_person now fh st indexed = Ok st' →
  ∃ (before after : Subject) (commands : list DbCommand) (on_ground : bool),
    (dict_get (tracked_subjects st) (Z.of_nat indexed.1) = Some before
     ∨ dict_get (tracked_subjects st) (Z.of_nat indexed.1) = None
       ∧ before = new_subject ("person_" +:+ Detection1.person_uuid_hex indexed.2))
    ∧ update_pose on_ground now before = Ok (after, commands)
    ∧ tracked_subjects st'
      = dict_set (tracked_subjects st) (Z.of_nat indexed.1) after
    ∧ active_event st' = active_event st.
Proof.
  destruct indexed as [i person]. unfold Detection1.track_person, dict_mem. simpl.
  intros H.
  destruct (dict_get (tracked_subjects st) (Z.of_nat i)) as [s0|] eqn:Hget.
  - rewrite Hget in H.
    apply bind_Ok in H as (on_ground & Hpose & H).
    apply bind_Ok in H as ([after commands] & Hupd & H). simplify_eq.
    exists s0, after, commands, on_ground.
    match goal with |- context [put_all_db commands ?s] =>
      destruct (put_all_db_rest commands s) as (-> & -> & _) end.
    simpl. repeat split; auto.
  - simpl in H. rewrite dict_get_set_eq in H.
    apply bind_Ok in H as (on_ground & Hpose & H).
    apply bind_Ok in H as ([after commands] & Hupd & H). simplify_eq.
    eexists _, after, commands, on_ground.
    match goal with |- context [put_all_db commands ?s] =>
      destruct (put_all_db_rest commands s) as (-> & -> & _) end.
    simpl. rewrite dict_set_set. split; [right; done|]. repeat split; auto.
Qed.

(** The tracking pass of the MediaPipe variant keeps every subject, and
    leaves alone those whose index is not among the poses. *)
Lemma track_persons1_keep (now : Q) (fh : Z) (indexed : list (nat * Detection1.Person))
  (st st2 : State) (k : Z) (s : Subject) :
  for_each (Detection1.track_person now fh) indexed st = Ok st2 →
  dict_get (tracked_subjects st) k = Some s →
  active_event st2 = active_event st
  ∧ ∃ s', dict_get (tracked_subjects st2) k = Some s'
          ∧ tracking_id s' = tracking_id s
          ∧ (k ∉ (λ ip, Z.of_nat ip.1) <$> indexed → s' = s).
Proof.
  revert st s. induction indexed as [|ip indexed IH]; intros st s Hrun Hget.
  - simpl in Hrun. simplify_eq. split; [done|]. by exists s.
  - simpl in Hrun. apply bind_Ok in Hrun as (s1 & Hstep & Hrest).
    apply track_person1_Ok in Hstep
      as (before & after & commands & on_ground & Hnew & Hupd & Ht & He).
    apply update_pose_commands in Hupd as [Hafter _].
    destruct (decide (Z.of_nat ip.1 = k)) as [Hk|Hne].
    + destruct (IH s1 after Hrest) as (He2 & s' & Hs' & Hid & Hsame).
      { rewrite Ht, Hk. apply dict_get_set_eq. }
      split; [congruence|]. exists s'. split; [done|]. split.
      * rewrite Hid, Hafter. destruct Hnew as [Hb|[Hb _]]; congruence.
      * intros Hout. exfalso. apply Hout. rewrite fmap_cons, <- Hk. by left.
    + destruct (IH s1 s Hrest) as (He2 & s' & Hs' & Hid & Hsame).
      { rewrite Ht. by rewrite dict_get_set_ne. }
      split; [congruence|]. exists s'. split; [done|]. split; [done|].
      intros Hout. apply Hsame. intros Hin. apply Hout. rewrite fmap_cons. by right.
Qed.

Lemma enumerate_indices {A : Type} (l : list A) (k : Z) :
  k ∈ (λ ip : nat * A, Z.of_nat ip.1) <$> Detection1.enumerate l →
  (0 ≤ k < Z.of_nat (length l))%Z.
Proof.
  unfold Detection1.enumerate. intros ([i a] & -> & Hin)%list_elem_of_fmap.
  apply elem_of_zip_l in Hin. apply elem_of_seq in Hin. simpl. lia.
Qed.

Lemma suspicious_subjects_nonempty (d : list (Z * Subject)) (k : Z) (s : Subject) :
  dict_get d k = Some s → status s = suspicious → suspicious_subjects d ≠ [].
Proof.
  intros Hget Hs Hnil. apply dict_get_elem in Hget.
  assert (s ∈ suspicious_subjects d) as Hin.
  { unfold suspicious_subjects. apply list_elem_of_filter. split; [done|].
    unfold dict_values. apply list_elem_of_fmap. by exists (k, s). }
  rewrite Hnil in Hin. by apply elem_of_nil in Hin.
Qed.

(** X11. The MediaPipe variant never forgets a subject: after a frame every
    subject of the map is still there with its persistent id, and a subject
    whose index is not among the frame's poses (or any subject, when the
    capture failed) is unchanged. So a Suspicious subject that is no longer
    detected stays Suspicious, and an event that is active stays active with
    the same id: nothing can end it. *)
Theorem variant1_never_forgets (st st' : State) (frame : Detection1.Frame)
  (k : Z) (s : Subject) :
  Detection1.process_frame st frame = Ok st' →
  dict_get (tracked_subjects st) k = Some s →
  ∃ s', dict_get (tracked_subjects st') k = Some s'
    ∧ tracking_id s' = tracking_id s
    ∧ (Detection1.success frame = false
       ∨ (Z.of_nat (length (Detection1.pose_landmarks frame)) ≤ k)%Z →
       s' = s
       ∧ (status s = suspicious →
          event_status (active_event st) = active →
          event_status (active_event st') = active
          ∧ id (active_event st') = id (active_event st))).
Proof.
  intros Hstep Hget. unfold Detection1.process_frame in Hstep.
  destruct (Detection1.success frame) eqn:Hsuccess.
  - apply bind_Ok in Hstep as (st2 & Htrack & Hst'). simplify_eq.
    destruct (track_persons1_keep _ _ _ _ _ k s Htrack Hget)
      as (He & s' & Hs' & Hid & Hsame).
    unfold Detection1.manage_event_lifecycle.
    set (suspects := suspicious_subjects (tracked_subjects st2)).
    assert (∀ s0, tracked_subjects (Detection1.end_existing_event suspects s0)
                  = tracked_subjects s0) as Hend.
    { intros s0. unfold Detection1.end_existing_event.
      destruct suspects; [case_decide|]; done. }
    assert (∀ s0, tracked_subjects (start_new_event suspects s0)
                  = tracked_subjects s0) as Hstart.
    { intros s0. unfold start_new_event.
      destruct suspects; [done|]. by case_decide. }
    destruct (continuous_vlm_analysis_keeps (Detection1.current_time frame)
                (Detection1.jpg_as_text frame) suspects
                (Detection1.end_existing_event suspects
                   (start_new_event suspects st2)))
      as (Ht' & Hid' & Hs5 & _).
    rewrite Ht', Hend, Hstart. exists s'. split; [done|]. split; [done|].
    intros [Hfalse|Hout]; [done|].
    assert (s' = s) as ->.
    { apply Hsame. intros Hin%enumerate_indices. lia. }
    split; [done|]. intros Hsus Hact.
    rewrite Hs5, Hid'.
    assert (suspects ≠ []) as Hne by by eapply suspicious_subjects_nonempty.
    rewrite start_new_event_idle by (left; congruence).
    unfold Detection1.end_existing_event.
    destruct suspects; [done|]. by rewrite He.
  - simplify_eq. exists s. split; [done|]. split; [done|].
    intros _. split; [done|]. by intros _ Hact.
Qed.

(** A person confirmed at 1001 s, then a frame in which nobody is detected. *)
Lemma variant1_never_forgets_witness :
  let frame := frame1 1002 [] in
  let st := state_after1 fall_then_empty1 in
  let s := {| tracking_id := "person_0a1b2c3d"; status := suspicious;
              pose_start_time := Some 1000%Q; is_confirmed_suspicious := true |} in
  Detection1.process_frame st frame = Ok (state_after1 (fall_then_empty1 ++ [frame]))
  ∧ dict_get (tracked_subjects st) 0 = Some s
  ∧ ∃ s', dict_get (tracked_subjects (state_after1 (fall_then_empty1 ++ [frame]))) 0
          = Some s'
    ∧ tracking_id s' = tracking_id s.
Proof.
  intros frame st s.
  assert (Detection1.process_frame st frame
          = Ok (state_after1 (fall_then_empty1 ++ [frame]))) as Hstep
    by (by vm_compute).
  assert (dict_get (tracked_subjects st) 0 = Some s) as Hget by (by vm_compute).
  split; [exact Hstep|]. split; [exact Hget|].
  destruct (variant1_never_forgets _ _ _ _ _ Hstep Hget) as (s' & Hs' & Hid & _).
  by exists s'.
Defined.

End Variant1Extras.

(** ** Producers and consumers *)

Section WireExtras.

Import DbWriter Consumer Wire.

Context {Store : Type} (db_manager : DatabaseManager Store).

Lemma route_action_of (c : DbCommand) :
  route db_manager (Some (action_of c)) = Some (method_for db_manager c).
Proof. by destruct c. Qed.

Lemma action_of_not_shutdown (c : DbCommand) : Some (action_of c) ≠ Some "shutdown".
Proof. by destruct c. Qed.

(** X12. Every command the detection loops and the analysis worker send is
    understood by the consumer: its action is not the sentinel, it is routed
    to the method of [DatabaseManager] named like it, and its payload's keys
    bind to that method's parameters. So on any sequence of such commands the
    consumer calls one method per command, in order, and logs no unknown
    action: the only lines it can log are the methods' own failures. With
    the orchestrator's shutdown message behind them the consumer has served
    them all when it closes the connection and exits, whatever comes later. *)
Theorem producers_match_consumer (values : DbCommand → list string)
  (commands : list DbCommand) (store : Store) (log : list LogLine) :
  (∀ c, route db_manager (Some (action_of c)) = Some (method_for db_manager c)
        ∧ ∃ sig, signature_of (action_of c) = Some sig
                 ∧ binds (payload_keys c) sig)
  ∧ ∃ store' errors,
      writer_loop db_manager (Some ∘ to_task values <$> commands) store log
      = BlockedOnGet store' (log ++ errors)
      ∧ (∀ later,
           writer_loop db_manager
             ((Some ∘ to_task values <$> commands)
                ++ Orchestrator.db_writer_stop :: later) store log
           = Exited (db_close db_manager store')
               ((log ++ errors) ++ [ShutdownSignalReceived; ShuttingDown]))
      ∧ Forall (λ line, ∃ t e, line = ErrorProcessingTask t e) errors
      ∧ (length errors ≤ length commands)%nat.
Proof.
  split.
  - intros c. split; [apply route_action_of|].
    destruct c; (eexists; split; [reflexivity|]); unfold binds; simpl;
      split; intros x; rewrite ?elem_of_cons, ?elem_of_nil; tauto.
  - revert store log. induction commands as [|c commands IH]; intros store log.
    + exists store, []. rewrite app_nil_r.
      split; [done|]. split; [done|]. split; [constructor|done].
    + rewrite fmap_cons. simpl.
      rewrite bool_decide_eq_false_2 by apply action_of_not_shutdown.
      rewrite route_action_of.
      destruct (method_for db_manager c (zip (payload_keys c) (values c)) store)
        as [store1 [e|]].
      * destruct (IH store1 (log ++ [ErrorProcessingTask (to_task values c) e]))
          as (store' & errors & -> & Hstop & Herrors & Hlen).
        exists store', (ErrorProcessingTask (to_task values c) e :: errors).
        rewrite <- app_assoc. split; [done|].
        split; [intros later; rewrite Hstop; by rewrite <- (app_assoc log)|].
        split; [|simpl; lia].
        constructor; [by eexists _, _|done].
      * destruct (IH store1 log) as (store' & errors & -> & Hstop & Herrors & Hlen).
        exists store', errors. split; [done|]. split; [done|].
        split; [done|simpl; lia].
Qed.

End WireExtras.

(** ** The analysis worker's stop and its accounts *)

Section WorkerExtras.

Import Worker Analysis Served.

Context (strip : string → string).

Lemma worker_loop_app (before rest : list Iteration) (st : WorkerState) :
  Forall keeps_running before →
  ∃ st', worker_loop strip before st = Polling st'
         ∧ worker_loop strip (before ++ rest) st = worker_loop strip rest st'.
Proof.
  intros Hgo. revert st.
  induction Hgo as [|it before [Htask Hvlm] _ IH]; intros st; [by exists st|].
  simpl. rewrite bool_decide_eq_false_2 by done.
  destruct (polled_vlm it) as [[message|]|]; [|done|by apply IH].
  destruct (bool_decide (task message = Some "analyze_threat")); by apply IH.
Qed.

Lemma worker_loop_stop (it : Iteration) (after : list Iteration) (st : WorkerState) :
  stops it → worker_loop strip (it :: after) st = Stopped st.
Proof.
  intros [Htask|Hvlm]; simpl.
  - by rewrite bool_decide_eq_true_2.
  - destruct (bool_decide (polled_task it = Some "shutdown")); [done|].
    by rewrite Hvlm.
Qed.

Lemma accounted_more (tasks more : list VlmTask) (st : WorkerState) :
  accounted tasks st → accounted (tasks ++ more) st.
Proof.
  intros (Hq & Hc & Ha & Hk). split; [done|].
  split; [rewrite length_app; lia|]. split.
  - eapply Forall_impl; [exact Ha|].
    intros c (t & d & v & Hin & ->). exists t, d, v. split; [|done].
    apply elem_of_app. by left.
  - eapply Forall_impl; [exact Hk|].
    intros call (t & Hin & ->). exists t. split; [|done].
    apply elem_of_app. by left.
Qed.

Lemma run_vlm_analysis_accounted (env : Capabilities) (t : VlmTask)
  (tasks : list VlmTask) (st : WorkerState) :
  accounted tasks st →
  accounted (tasks ++ [t]) (run_vlm_analysis strip env t st).
Proof.
  intros Hacc. pose proof (accounted_more tasks [t] st Hacc) as Hmore.
  destruct Hacc as (Hq & Hc & _ & _). destruct Hmore as (_ & _ & Ha & Hk).
  assert (t ∈ tasks ++ [t]) as Hin by (apply elem_of_app; right; by left).
  assert (asks (tasks ++ [t])
            (ChatCompletion (prompt_of t)
               ("data:image/jpeg;base64," +:+ base64_frame t))) as Hcall
    by (by exists t).
  unfold run_vlm_analysis.
  destruct (screen env) as [[| |e]|e];
    try (split; [done|]; split; [rewrite length_app; simpl; lia|]; by split).
  destruct (chat_completion env) as [[content|]|e];
    unfold accounted; simpl; rewrite ?length_app; simpl;
    (split; [lia|]); (split; [lia|]).
  - split.
    + apply Forall_app. split; [done|]. constructor; [|done].
      by exists t, (strip content), (random_embedding env).
    + apply Forall_app. split; [done|]. by constructor.
  - split; [done|]. apply Forall_app. split; [done|]. by constructor.
  - split; [done|]. apply Forall_app. split; [done|]. by constructor.
Qed.

Lemma worker_loop_accounted (iterations : list Iteration) (served : list VlmTask)
  (st : WorkerState) :
  accounted served st →
  accounted (served ++ analysis_tasks iterations)
    (produced (worker_loop strip iterations st)).
Proof.
  revert served st.
  induction iterations as [|it iterations IH]; intros served st Hacc.
  - by apply accounted_more.
  - unfold analysis_tasks. simpl. fold (analysis_tasks iterations).
    destruct (bool_decide (polled_task it = Some "shutdown"));
      [by apply accounted_more|].
    unfold analysis_task.
    destruct (polled_vlm it) as [[message|]|];
      [|by apply accounted_more|by apply IH].
    destruct (decide (task message = Some "analyze_threat")) as [Ht|Ht].
    + rewrite bool_decide_eq_true_2 by done. simpl.
      rewrite (cons_middle (payload message)), app_assoc.
      apply IH. by apply run_vlm_analysis_accounted.
    + rewrite bool_decide_eq_false_2 by done. by apply IH.
Qed.

(** X13. The worker stops at the first turn that polls one of the
    orchestrator's stop messages (['shutdown'] on the task queue, [None] on
    the analysis queue): it leaves the loop in the state the turns before
    had brought it to, so an analysis task polled in the stopping turn or
    later is never served, and the persistence queue holds what the earlier
    turns owed, in order. *)
Theorem worker_stops_at_first_signal (before : list Iteration) (stop : Iteration)
  (after : list Iteration) :
  Forall keeps_running before →
  stops stop →
  ∃ st', background_ai_worker strip (Ok ()) (before ++ stop :: after) = Stopped st'
         ∧ background_ai_worker strip (Ok ()) before = Polling st'
         ∧ db_writer_queue st' = concat (owed strip <$> before).
Proof.
  intros Hgo Hstop. unfold background_ai_worker.
  set (st0 := {| db_writer_queue := []; calls := [] |}).
  destruct (worker_loop_app before (stop :: after) st0 Hgo) as (st' & Hloop & Happ).
  destruct (worker_loop_keeps_running strip before st0 Hgo) as (st'' & Hloop' & Hq).
  assert (st'' = st') as -> by congruence.
  exists st'. split; [|by split].
  rewrite Happ. by apply worker_loop_stop.
Qed.

(** X14. Whatever the worker polls and whatever the outside answers, by the
    end every log it has put on the persistence queue is backed by a call to
    the service and every call by an analysis task it polled; each log
    names the event and the subjects of such a task, and each call sends the
    task's own frame with a prompt listing its subjects. A worker whose
    client could not be built produces nothing. *)
Theorem worker_output_accounted (client : result unit)
  (iterations : list Iteration) :
  accounted (analysis_tasks iterations)
    (produced (background_ai_worker strip client iterations))
  ∧ (∀ e, client = Raise e →
          background_ai_worker strip client iterations = NeverStarted).
Proof.
  split.
  - unfold background_ai_worker. destruct client as [[]|e].
    + apply (worker_loop_accounted iterations []).
      by repeat split; simpl; try lia.
    + by repeat split; simpl; try lia.
  - by intros e ->.
Qed.

End WorkerExtras.

Section WorkerExtrasWitnesses.

Import Worker Analysis Served.

(** One task served, then ['shutdown'] polled while a second task waits, and
    a third behind it. *)
Lemma worker_stops_at_first_signal_witness :
  let before := [analyze 0 ["person_0a1b2c3d"] (answering "one person on the floor")] in
  let stop := shutdown_over 0 ["person_0a1b2c3d"] (answering "still there") in
  let after := [analyze 0 ["person_0a1b2c3d"] (answering "gone")] in
  Forall keeps_running before
  ∧ stops stop
  ∧ ∃ st', background_ai_worker (λ s, s) (Ok ()) (before ++ stop :: after)
           = Stopped st'
           ∧ db_writer_queue st'
             = [add_vlm_log (Some 0%nat) "cam_01" "one person on the floor"
                  [1 # 2; 1 # 3]%Q ["person_0a1b2c3d"]].
Proof.
  intros before stop after.
  assert (Forall keeps_running before) as Hgo by (repeat constructor; done).
  assert (stops stop) as Hstop by (by left).
  split; [exact Hgo|]. split; [exact Hstop|].
  destruct (worker_stops_at_first_signal (λ s, s) before stop after Hgo Hstop)
    as (st' & Hrun & _ & Hq).
  exists st'. split; [exact Hrun|exact Hq].
Defined.

End WorkerExtrasWitnesses.

(** ** The event records *)

Section EventsFacts.

Import Ledger Durable Serving Stored.

Lemma fmap_id_on {A : Type} (f : A → A) (l : list A) :
  (∀ x, x ∈ l → f x = x) → f <$> l = l.
Proof.
  induction l as [|x l IH]; intros Hf; [done|].
  rewrite fmap_cons, Hf by (by left). f_equal. apply IH.
  intros y Hy. apply Hf. by right.
Qed.

Lemma update_one_cons (e : option ObjectId) (f : Events.Document → Events.Document)
  (doc : Events.Document) (rest : list Events.Document) :
  Events.update_one e f (doc :: rest)
  = if decide (Events._id doc = e) then (f doc :: rest, 1%nat)
    else (doc :: (Events.update_one e f rest).1, (Events.update_one e f rest).2).
Proof.
  simpl. case_decide; [done|]. by destruct (Events.update_one e f rest).
Qed.

Lemma update_one_ids (e : option ObjectId) (f : Events.Document → Events.Document)
  (events : list Events.Document) :
  (∀ doc, Events._id (f doc) = Events._id doc) →
  Events._id <$> (Events.update_one e f events).1 = Events._id <$> events.
Proof.
  intros Hf. induction events as [|doc rest IH]; [done|].
  rewrite update_one_cons. case_decide.
  - cbn [fst]. by rewrite !fmap_cons, Hf.
  - cbn [fst]. by rewrite !fmap_cons, IH.
Qed.

Lemma update_one_absent (e : option ObjectId) (f : Events.Document → Events.Document)
  (events : list Events.Document) :
  e ∉ Events._id <$> events → Events.update_one e f events = (events, 0%nat).
Proof.
  induction events as [|doc rest IH]; intros Hnot; [done|].
  rewrite fmap_cons in Hnot. apply not_elem_of_cons in Hnot as [Hne Hrest].
  rewrite update_one_cons, decide_False by done. by rewrite IH.
Qed.

Lemma update_one_matched (e : option ObjectId) (f : Events.Document → Events.Document)
  (events : list Events.Document) :
  e ∈ Events._id <$> events → (Events.update_one e f events).2 = 1%nat.
Proof.
  induction events as [|doc rest IH]; intros Hin;
    [by apply elem_of_nil in Hin|].
  rewrite update_one_cons. case_decide as Hd; [done|].
  rewrite fmap_cons in Hin.
  apply elem_of_cons in Hin as [Heq|Hin]; [congruence|]. by apply IH.
Qed.

(** With distinct identifiers the update touches the one document it
    names. *)
Lemma update_one_map (e : option ObjectId) (f : Events.Document → Events.Document)
  (events : list Events.Document) :
  NoDup (Events._id <$> events) →
  (Events.update_one e f events).1
  = (λ doc, if decide (Events._id doc = e) then f doc else doc) <$> events.
Proof.
  induction events as [|doc rest IH]; intros Hnd; [done|].
  rewrite fmap_cons in Hnd. apply NoDup_cons in Hnd as [Hnot Hnd].
  rewrite update_one_cons, fmap_cons. case_decide as Hd; cbn [fst].
  - f_equal. symmetry. apply fmap_id_on. intros d Hin.
    rewrite decide_False; [done|]. intros Heq. apply Hnot.
    rewrite Hd, <- Heq. by apply list_elem_of_fmap_2.
  - by rewrite IH.
Qed.

Lemma update_one_twice (e : option ObjectId) (f g : Events.Document → Events.Document)
  (events : list Events.Document) :
  (∀ doc, Events._id (f doc) = Events._id doc) →
  Events.update_one e g (Events.update_one e f events).1
  = Events.update_one e (λ doc, g (f doc)) events.
Proof.
  intros Hf. induction events as [|doc rest IH]; [done|].
  rewrite (update_one_cons e f), (update_one_cons e (λ doc, g (f doc))).
  case_decide as Hd; cbn [fst].
  - by rewrite update_one_cons, decide_True by (by rewrite Hf).
  - by rewrite update_one_cons, decide_False, IH by done.
Qed.

Lemma update_one_ext (e : option ObjectId) (f g : Events.Document → Events.Document)
  (events : list Events.Document) :
  (∀ doc, f doc = g doc) → Events.update_one e f events = Events.update_one e g events.
Proof.
  intros Hfg. induction events as [|doc rest IH]; [done|].
  by rewrite !update_one_cons, Hfg, IH.
Qed.

Lemma list_to_set_addToSet (t : string) (l : list string) :
  list_to_set (C := gset string) (Events.addToSet t l) = list_to_set l ∪ {[t]}.
Proof.
  unfold Events.addToSet. case_decide as Hin.
  - apply leibniz_equiv. set_solver.
  - rewrite list_to_set_app_L. simpl. by rewrite (right_id_L ∅ (∪)).
Qed.

Lemma addToSet_NoDup (t : string) (l : list string) :
  NoDup l → NoDup (Events.addToSet t l).
Proof.
  intros Hl. unfold Events.addToSet. case_decide as Hin; [done|].
  apply NoDup_app. split; [done|]. split; [|apply NoDup_singleton].
  intros x Hx ->%list_elem_of_singleton. done.
Qed.

Lemma addToSet_twice (t : string) (l : list string) :
  Events.addToSet t (Events.addToSet t l) = Events.addToSet t l.
Proof.
  unfold Events.addToSet. destruct (decide (t ∈ l)) as [Hin|Hin].
  - by rewrite decide_True.
  - rewrite decide_True; [done|]. apply elem_of_app. right. by left.
Qed.

Lemma recorded_participants_snoc (x : ObjectId) (q : list DbCommand) (c : DbCommand) :
  recorded_participants x (q ++ [c])
  = record_participant x (recorded_participants x q) c.
Proof. unfold recorded_participants. by rewrite foldl_app. Qed.

Lemma stamped_commands (utcnow : nat → Events.datetime) (commands : list DbCommand) :
  (stamped utcnow commands).*2 = commands.
Proof.
  unfold stamped. revert utcnow.
  induction commands as [|c commands IH]; intros utcnow; [done|].
  simpl. f_equal. apply IH.
Qed.

(** A command that the protocol admits goes through, and the collection
    follows the protocol. *)
Lemma serve_conforming (g g' : Protocol) (q : list DbCommand)
  (events : list Events.Document) (utcnow : Events.datetime) (c : DbCommand) :
  protocol_step g c = Some g' → mirrors g q events →
  ∃ events' s, serve events utcnow c = (events', s) ∧ went_through s
               ∧ mirrors g' (q ++ [c]) events'.
Proof.
  intros Hstep (Hnd & Hdocs & Hcur & Hfresh).
  assert (∀ x, Some x ∈ Events._id <$> events → (x < fresh g)%nat) as Hlt.
  { intros x (doc & Hid & Hin)%list_elem_of_fmap.
    rewrite Forall_forall in Hdocs.
    destruct (Hdocs doc Hin) as (y & Hy & Hlt & _). congruence. }
  assert (∀ c, (∀ x acc, record_participant x acc c = acc) →
               mirrors g (q ++ [c]) events) as Hother.
  { intros c0 Hc0. split; [done|]. split; [|split; [done|]].
    - eapply Forall_impl; [exact Hdocs|]. intros doc (x & Hid & Hx & Hp & Hs).
      exists x. by rewrite recorded_participants_snoc, Hc0.
    - intros x Hx. rewrite recorded_participants_snoc, Hc0. by apply Hfresh. }
  destruct c as [pid v cam|pid ns|[x|] cam p|[x|] t|[x|]|e cam d v subs];
    simpl in Hstep; simplify_eq.
  - exists events, Elsewhere. split; [done|]. split; [by right; right|].
    by apply Hother.
  - exists events, Elsewhere. split; [done|]. split; [by right; right|].
    by apply Hother.
  - destruct (current g) as [y|] eqn:Hg; [done|].
    case_decide as Hx; [|done]. simplify_eq.
    assert (Some x ∉ Events._id <$> events) as Hnew.
    { intros Hin. apply Hlt in Hin. lia. }
    eexists _, Inserted. split.
    { simpl. unfold Events.create_event, Events.insert_one. simpl.
      by rewrite decide_False by done. }
    split; [by left|].
    split; [|split; [|split]]; simpl.
    + rewrite fmap_app. apply NoDup_app. split; [done|].
      split; [|apply NoDup_singleton].
      intros y Hy ->%list_elem_of_singleton. done.
    + apply Forall_app. split.
      * eapply Forall_impl; [exact Hdocs|]. intros doc (y & Hid & Hy & Hp & Hs).
        exists y. split; [done|]. split; [lia|].
        rewrite recorded_participants_snoc. simpl.
        rewrite !decide_False by (intros ?; simplify_eq; lia).
        rewrite decide_False in Hs by done. done.
      * constructor; [|done]. exists x. simpl. split; [done|]. split; [lia|].
        rewrite recorded_participants_snoc. simpl.
        rewrite !decide_True by done. rewrite Hfresh by done.
        split; [|done]. apply leibniz_equiv. set_solver.
    + intros y [= <-]. rewrite fmap_app. apply elem_of_app. right. by left.
    + intros y Hy. rewrite recorded_participants_snoc. simpl.
      rewrite decide_False by lia. apply Hfresh. lia.
  - case_decide as Hx; [|done]. simplify_eq.
    pose proof (Hcur x Hx) as Hin. pose proof (Hlt x Hin) as Hxlt.
    unfold serve, Events.add_participant_to_event.
    set (f := λ doc : Events.Document, _).
    pose proof (update_one_map (Some x) f events Hnd) as Hmap.
    pose proof (update_one_matched (Some x) f events Hin) as Hone.
    pose proof (update_one_ids (Some x) f events (λ doc, eq_refl)) as Hids.
    destruct (Events.update_one (Some x) f events) as [events' n].
    simpl in Hmap, Hone, Hids. subst n.
    exists events', (Updated 1). split; [done|]. split; [by right; left|].
    split; [by rewrite Hids|]. split; [|split; [by rewrite Hids|]].
    + rewrite Hmap. apply Forall_fmap.
      eapply Forall_impl; [exact Hdocs|]. intros doc (y & Hid & Hy & Hp & Hs).
      simpl. exists y. rewrite recorded_participants_snoc. simpl.
      destruct (decide (Events._id doc = Some x)) as [Hd|Hd].
      * assert (y = x) as -> by congruence. subst f. simpl.
        split; [done|]. split; [done|].
        rewrite decide_True by done. rewrite list_to_set_addToSet, Hp.
        split; [done|]. by rewrite decide_True in Hs |- * by done.
      * split; [done|]. split; [done|].
        rewrite decide_False by congruence. done.
    + intros y Hy. rewrite recorded_participants_snoc. simpl.
      rewrite decide_False by lia. by apply Hfresh.
  - case_decide as Hx; [|done]. simplify_eq.
    pose proof (Hcur x Hx) as Hin. pose proof (Hlt x Hin) as Hxlt.
    unfold serve, Events.end_event.
    set (f := λ doc : Events.Document, _).
    pose proof (update_one_map (Some x) f events Hnd) as Hmap.
    pose proof (update_one_matched (Some x) f events Hin) as Hone.
    pose proof (update_one_ids (Some x) f events (λ doc, eq_refl)) as Hids.
    destruct (Events.update_one (Some x) f events) as [events' n].
    simpl in Hmap, Hone, Hids. subst n.
    exists events', (Updated 1). split; [done|]. split; [by right; left|].
    split; [by rewrite Hids|]. split; [|split; [done|]].
    + rewrite Hmap. apply Forall_fmap.
      eapply Forall_impl; [exact Hdocs|]. intros doc (y & Hid & Hy & Hp & Hs).
      simpl. exists y. rewrite recorded_participants_snoc. simpl.
      destruct (decide (Events._id doc = Some x)) as [Hd|Hd].
      * subst f. simpl. split; [done|]. split; [done|]. split; [done|].
        split; [done|by eexists].
      * split; [done|]. split; [done|]. split; [done|].
        rewrite decide_False in Hs by congruence. done.
    + intros y Hy. rewrite recorded_participants_snoc. simpl. by apply Hfresh.
  - exists events, Elsewhere. split; [done|]. split; [by right; right|].
    by apply Hother.
Qed.

Lemma serve_all_conforming (calls : list (Events.datetime * DbCommand))
  (g g' : Protocol) (q : list DbCommand) (events : list Events.Document) :
  replay (calls.*2) g = Some g' → mirrors g q events →
  ∃ events' served,
    serve_all calls events = (events', served)
    ∧ Forall went_through served
    ∧ mirrors g' (q ++ calls.*2) events'.
Proof.
  revert g q events.
  induction calls as [|[utcnow c] calls IH]; intros g q events Hrun Hm;
    simpl in Hrun.
  - simplify_eq. exists events, []. by rewrite app_nil_r.
  - destruct (protocol_step g c) as [g1|] eqn:Hstep; [|done].
    destruct (serve_conforming g g1 q events utcnow c Hstep Hm)
      as (events1 & s & Hs & Hok & Hm1).
    destruct (IH g1 (q ++ [c]) events1 Hrun Hm1) as (events' & ss & Hss & Hoks & Hm').
    exists events', (s :: ss). simpl. rewrite Hs, Hss.
    split; [done|]. split; [by constructor|].
    by rewrite <- app_assoc in Hm'.
Qed.

Lemma kept_refl (doc : Events.Document) : kept doc doc.
Proof. by repeat split. Qed.

Lemma kept_trans (a b c : Events.Document) : kept a b → kept b c → kept a c.
Proof.
  intros (Hi & Hs & Hc & Hv & Hp & He) (Hi' & Hs' & Hc' & Hv' & Hp' & He').
  repeat split; try congruence; [by etrans|auto].
Qed.

Lemma grows_refl (events : list Events.Document) : grows events events.
Proof.
  exists events, []. rewrite app_nil_r. split; [done|].
  induction events; constructor; [apply kept_refl|done].
Qed.

Lemma grows_trans (a b c : list Events.Document) : grows a b → grows b c → grows a c.
Proof.
  intros (old & new & -> & Hab) (old' & new' & -> & Hbc).
  apply Forall2_app_inv_l in Hbc as (k1 & k2 & Hk1 & Hk2 & ->).
  exists k1, (k2 ++ new'). split; [by rewrite app_assoc|].
  eapply Forall2_trans; [|exact Hab|exact Hk1]. apply kept_trans.
Qed.

Lemma Forall2_kept_refl (events : list Events.Document) : Forall2 kept events events.
Proof. induction events; constructor; [apply kept_refl|done]. Qed.

Lemma update_one_kept (e : option ObjectId) (f : Events.Document → Events.Document)
  (events : list Events.Document) :
  (∀ doc, kept doc (f doc)) → Forall2 kept events (Events.update_one e f events).1.
Proof.
  intros Hf. induction events as [|doc rest IH]; [constructor|].
  rewrite update_one_cons. case_decide; cbn [fst].
  - constructor; [apply Hf|apply Forall2_kept_refl].
  - constructor; [apply kept_refl|done].
Qed.

Lemma update_one_Forall (P : Events.Document → Prop) (e : option ObjectId)
  (f : Events.Document → Events.Document) (events : list Events.Document) :
  (∀ doc, P doc → P (f doc)) → Forall P events →
  Forall P (Events.update_one e f events).1.
Proof.
  intros Hf. induction 1 as [|doc rest Hd Hrest IH]; [constructor|].
  rewrite update_one_cons. case_decide; cbn [fst]; constructor; auto.
Qed.

(** One call keeps what the collection had. *)
Lemma serve_keeps (events : list Events.Document) (utcnow : Events.datetime)
  (c : DbCommand) :
  grows events (serve events utcnow c).1
  ∧ (NoDup (Events._id <$> events) →
     NoDup (Events._id <$> (serve events utcnow c).1))
  ∧ (Forall (λ doc, NoDup (Events.participant_tracking_ids doc)) events →
     Forall (λ doc, NoDup (Events.participant_tracking_ids doc))
       (serve events utcnow c).1).
Proof.
  destruct c as [pid v cam|pid ns|e cam p|e t|e|e cam d v subs]; simpl;
    try (split; [apply grows_refl|by split]).
  - unfold Events.create_event, Events.insert_one. simpl.
    case_decide as Hin; simpl; [split; [apply grows_refl|by split]|].
    split; [|split].
    + eexists events, [_]. split; [done|]. apply Forall2_kept_refl.
    + intros Hnd. rewrite fmap_app. apply NoDup_app. split; [done|].
      split; [|apply NoDup_singleton].
      intros y Hy ->%list_elem_of_singleton. done.
    + intros Hall. apply Forall_app. split; [done|].
      constructor; [|done]. simpl. apply NoDup_singleton.
  - unfold Events.add_participant_to_event.
    set (f := λ doc : Events.Document, _).
    pose proof (update_one_kept e f events) as Hk.
    pose proof (update_one_ids e f events (λ doc, eq_refl)) as Hids.
    pose proof (update_one_Forall
      (λ doc, NoDup (Events.participant_tracking_ids doc)) e f events) as Hall.
    destruct (Events.update_one e f events) as [events' n]. simpl in *.
    split; [|split].
    + exists events', []. rewrite app_nil_r. split; [done|]. apply Hk.
      intros doc. subst f. repeat split; simpl; try done.
      unfold Events.addToSet. case_decide; [done|]. by apply prefix_app_r.
    + by rewrite Hids.
    + apply Hall. intros doc Hd. subst f. simpl. by apply addToSet_NoDup.
  - unfold Events.end_event.
    set (f := λ doc : Events.Document, _).
    pose proof (update_one_kept e f events) as Hk.
    pose proof (update_one_ids e f events (λ doc, eq_refl)) as Hids.
    pose proof (update_one_Forall
      (λ doc, NoDup (Events.participant_tracking_ids doc)) e f events) as Hall.
    destruct (Events.update_one e f events) as [events' n]. simpl in *.
    split; [|split].
    + exists events', []. rewrite app_nil_r. split; [done|]. apply Hk.
      intros doc. subst f. by repeat split.
    + by rewrite Hids.
    + apply Hall. intros doc Hd. by subst f.
Qed.

End EventsFacts.

Section EventsExtras.

Import Pose Detection Input Ledger Consistency Scenario Durable Serving Stored.

(** X15. The event records follow the detection loop. When the consumer has
    served the commands of a run, in order and whenever it gets to them, no
    call has failed and every update has found its document; the collection
    holds one document per event created; the document of the event that is
    active in memory is open and lists exactly the participants held in
    memory; every other document is ended, with status ended_cleared and an
    end time. *)
Theorem events_collection_mirrors_detection (utcnow : nat → Events.datetime)
  (frames : list Frame) :
  Forall well_formed_frame frames →
  ∃ st events served,
    threat_detection_process frames = Ok st
    ∧ serve_all (stamped utcnow (db_writer_queue st)) [] = (events, served)
    ∧ Forall went_through served
    ∧ NoDup (Events._id <$> events)
    ∧ Forall (λ doc,
        if decide (Events._id doc = id (active_event st))
        then open_document doc
             ∧ list_to_set (Events.participant_tracking_ids doc)
               = participants (active_event st)
        else ended_document doc) events
    ∧ (event_status (active_event st) = active →
       id (active_event st) ∈ Events._id <$> events).
Proof.
  intros Hwf.
  destruct (threat_detection_process_consistent frames Hwf) as (st & Hrun & Hc).
  assert (participants_recorded st) as Hrec.
  { apply (run_invariant participants_recorded) with (frames := frames);
      [done| |done].
    intros s results s' Hs Hp Hstep. by eapply process_frame_recorded. }
  destruct Hc as (_ & _ & Hev & Hled). unfold ledger_consistent in Hled.
  destruct (serve_all_conforming (stamped utcnow (db_writer_queue st))
              {| current := None; fresh := 0 |}
              {| current := id (active_event st);
                 fresh := object_ids_allocated st |} [] [])
    as (events & served & Hserve & Hok & Hm).
  { by rewrite stamped_commands. }
  { split; [apply NoDup_nil_2|]. split; [constructor|]. by split. }
  rewrite stamped_commands in Hm. simpl in Hm.
  destruct Hm as (Hnd & Hdocs & Hcur & _). simpl in Hdocs, Hcur.
  exists st, events, served.
  split; [done|]. split; [done|]. split; [done|]. split; [done|]. split.
  - eapply Forall_impl; [exact Hdocs|]. intros doc (x & Hid & _ & Hp & Hs).
    rewrite Hid. unfold participants_recorded in Hrec.
    destruct (decide (id (active_event st) = Some x)) as [Hx|Hx].
    + rewrite decide_True by done. split; [done|].
      rewrite Hx in Hrec. congruence.
    + by rewrite decide_False by congruence.
  - intros Hact. unfold event_consistent in Hev. rewrite Hact in Hev.
    destruct Hev as (x & Hx & _). rewrite Hx. by apply Hcur.
Qed.

(** Two people fall, the second a little later. *)
Lemma events_collection_mirrors_detection_witness :
  Forall well_formed_frame two_fall
  ∧ ∃ st events served,
      threat_detection_process two_fall = Ok st
      ∧ serve_all (stamped Z.of_nat (db_writer_queue st)) [] = (events, served)
      ∧ Forall went_through served
      ∧ NoDup (Events._id <$> events)
      ∧ Forall (λ doc,
          if decide (Events._id doc = id (active_event st))
          then open_document doc
               ∧ list_to_set (Events.participant_tracking_ids doc)
                 = participants (active_event st)
          else ended_document doc) events
      ∧ (event_status (active_event st) = active →
         id (active_event st) ∈ Events._id <$> events).
Proof.
  assert (Forall well_formed_frame two_fall) as Hwf by well_formed_frames.
  split; [exact Hwf|].
  exact (events_collection_mirrors_detection Z.of_nat two_fall Hwf).
Defined.

(** X16. Whatever commands the consumer serves, in whatever order, it never
    loses an event record: the documents the collection had stay in place
    with their identifier, start time and cameras, their participants only
    grow, a document that has ended stays ended, and new documents come
    behind. Identifiers stay distinct, no participant is listed twice, and
    every call is answered. *)
Theorem events_are_never_lost (calls : list (Events.datetime * DbCommand))
  (events : list Events.Document) :
  grows events (serve_all calls events).1
  ∧ length (serve_all calls events).2 = length calls
  ∧ (NoDup (Events._id <$> events) →
     NoDup (Events._id <$> (serve_all calls events).1))
  ∧ (Forall (λ doc, NoDup (Events.participant_tracking_ids doc)) events →
     Forall (λ doc, NoDup (Events.participant_tracking_ids doc))
       (serve_all calls events).1).
Proof.
  revert events. induction calls as [|[utcnow c] calls IH]; intros events.
  - simpl. split; [apply grows_refl|]. by repeat split.
  - simpl. destruct (serve_keeps events utcnow c) as (Hg & Hids & Hps).
    destruct (serve events utcnow c) as [events1 s]. simpl in *.
    destruct (IH events1) as (Hg' & Hlen & Hids' & Hps').
    destruct (serve_all calls events1) as [events' ss]. simpl in *.
    split; [by eapply grows_trans|]. split; [by rewrite Hlen|].
    split; auto.
Qed.

(** An ended event, then a second create_event with its identifier, a late
    add_participant_to_event and a new event. *)
Lemma events_are_never_lost_witness :
  let calls :=
    [(1020%Z, create_event (Some 0%nat) "cam_01" "person_4e5f6071");
     (1021%Z, add_participant_to_event (Some 0%nat) "person_4e5f6071");
     (1022%Z, create_event (Some 1%nat) "cam_01" "person_4e5f6071")] in
  NoDup (Events._id <$> one_ended_event)
  ∧ Forall (λ doc, NoDup (Events.participant_tracking_ids doc)) one_ended_event
  ∧ grows one_ended_event (serve_all calls one_ended_event).1
  ∧ NoDup (Events._id <$> (serve_all calls one_ended_event).1)
  ∧ Forall (λ doc, NoDup (Events.participant_tracking_ids doc))
      (serve_all calls one_ended_event).1.
Proof.
  intros calls.
  assert (NoDup (Events._id <$> one_ended_event)) as Hids
    by (apply NoDup_singleton).
  assert (Forall (λ doc, NoDup (Events.participant_tracking_ids doc))
            one_ended_event) as Hps
    by (constructor; [apply NoDup_singleton|constructor]).
  destruct (events_are_never_lost calls one_ended_event) as (Hg & _ & Hi & Hp).
  split; [exact Hids|]. split; [exact Hps|]. split; [exact Hg|].
  split; [exact (Hi Hids)|exact (Hp Hps)].
Defined.

(** X17. Serving a command a second time does no harm. A create_event that
    has gone through fails the second time with a duplicate key and leaves
    the collection as it was; an add_participant_to_event served again
    leaves the collection and the answer as they were; of two end_event
    served for the same event the later one decides alone. *)
Theorem redelivery_is_harmless (events : list Events.Document)
  (utcnow later : Events.datetime) :
  (∀ e cam p,
     (serve events utcnow (create_event e cam p)).2 = Inserted →
     serve (serve events utcnow (create_event e cam p)).1 later
       (create_event e cam p)
     = ((serve events utcnow (create_event e cam p)).1,
        Failed (Exception "DuplicateKeyError")))
  ∧ (∀ e t,
       serve (serve events utcnow (add_participant_to_event e t)).1 later
         (add_participant_to_event e t)
       = serve events utcnow (add_participant_to_event e t))
  ∧ (∀ e,
       serve (serve events utcnow (end_event e)).1 later (end_event e)
       = serve events later (end_event e)).
Proof.
  split; [|split].
  - intros e cam p. simpl. unfold Events.create_event, Events.insert_one. simpl.
    case_decide as Hin; [done|]. intros _. simpl.
    rewrite decide_True; [done|].
    rewrite fmap_app. apply elem_of_app. right. by left.
  - intros e t. simpl. unfold Events.add_participant_to_event.
    set (f := λ doc : Events.Document, _).
    pose proof (update_one_twice e f f events (λ doc, eq_refl)) as Htwice.
    rewrite (update_one_ext e (λ doc, f (f doc)) f) in Htwice
      by (intros doc; subst f; simpl; by rewrite addToSet_twice).
    destruct (Events.update_one e f events) as [events' n]. simpl in *.
    by rewrite Htwice.
  - intros e. simpl. unfold Events.end_event.
    set (g := λ doc : Events.Document, _).
    set (f := λ doc : Events.Document, _).
    pose proof (update_one_twice e f g events (λ doc, eq_refl)) as Htwice.
    pose proof (update_one_ext e (λ doc, g (f doc)) g events (λ doc, eq_refl))
      as Hext.
    rewrite Hext in Htwice.
    destruct (Events.update_one e f events) as [events' n]. simpl in *.
    by rewrite Htwice.
Qed.

(** The first event of an empty collection, created twice. *)
Lemma redelivery_is_harmless_witness :
  let c := create_event (Some 0%nat) "cam_01" "person_0a1b2c3d" in
  (serve [] 1000%Z c).2 = Inserted
  ∧ serve (serve [] 1000%Z c).1 1001%Z c
    = ((serve [] 1000%Z c).1, Failed (Exception "DuplicateKeyError")).
Proof.
  intros c.
  assert ((serve [] 1000%Z c).2 = Inserted) as Hfirst by reflexivity.
  split; [exact Hfirst|].
  exact (proj1 (redelivery_is_harmless [] 1000%Z 1001%Z)
           (Some 0%nat) "cam_01" "person_0a1b2c3d" Hfirst).
Defined.

End EventsExtras.
